(** * redisclient.h: wire codec and key routing of the C++ Redis client

    A shallow embedding of the protocol codec (readers, command encoder,
    reply decoders) and of the connection router of [redis::base_client],
    followed by the properties of the specification that were checked
    against it.

    Conventions of the embedding.
    - [std::string] is a list of characters; sizes and indices ([size_t])
      are [nat]; [int_type] ([long]) and socket descriptors are [Z].
    - A function that throws returns [Throw]; a failed [assert] is [Abort];
      behaviour the language leaves undefined (an index outside a vector, a
      signed overflow, a negative byte count) is [Undefined].
    - Code that reads or writes a connection is a state transformer over
      the state of that connection; operations of the client are state
      transformers over the table of all descriptors.
    - The two allocations whose size the peer dictates before the data has
      arrived, [new char[n + 1]] in [read_n] and [out.reserve] in the decoder
      of multi-bulk replies, are modelled with the limits of the platform
      (class [Platform]); every property holds for all platforms.  All other
      allocations succeed. *)

From Stdlib Require Import ZArith Lia Ascii String List DecimalString DecimalNat DecimalZ.
From stdpp Require Import base option list gmap strings.

Local Open Scope Z_scope.
Local Open Scope list_scope.

(** ** Strings *)

Abbreviation std_string := (list ascii) (only parsing).

Definition str (s : string) : std_string := list_ascii_of_string s.

Definition CR : ascii := ascii_of_nat 13.
Definition LF : ascii := ascii_of_nat 10.
Definition NUL : ascii := ascii_of_nat 0.

Definition REDIS_LBR : std_string := [CR; LF].
Definition REDIS_STATUS_REPLY_OK : std_string := str "OK".
Definition REDIS_PREFIX_STATUS_REPLY_ERROR : std_string := str "-ERR ".
Definition REDIS_PREFIX_STATUS_REPLY_VALUE : ascii := "+"%char.
Definition REDIS_PREFIX_SINGLE_BULK_REPLY : ascii := "$"%char.
Definition REDIS_PREFIX_MULTI_BULK_REPLY : ascii := "*"%char.
Definition REDIS_PREFIX_INT_REPLY : ascii := ":"%char.

Definition LONG_MAX : Z := 2 ^ 63 - 1.
Definition LONG_MIN : Z := - 2 ^ 63.

(** [str.find_last_not_of(ws)], as the number of characters up to and
    including the last one outside [ws] (that is, [pos + 1], which is [0]
    when the search fails and [pos] is [npos]). *)
Fixpoint find_last_not_of_succ (s ws : std_string) : nat :=
  match s with
  | [] => 0%nat
  | c :: s' =>
      match find_last_not_of_succ s' ws with
      | S k => S (S k)
      | O => if bool_decide (c ∈ ws) then 0%nat else 1%nat
      end
  end.

(** [rtrim(str, ws)]: [str.erase(str.find_last_not_of(ws) + 1)]. *)
Definition rtrim (s ws : std_string) : std_string :=
  take (find_last_not_of_succ s ws) s.

(** [memchr(buffer, c, n)] over the first [n] bytes held in [buffer]: the
    offset of the first occurrence. *)
Fixpoint memchr (buffer : std_string) (c : ascii) : option nat :=
  match buffer with
  | [] => None
  | b :: rest => if bool_decide (b = c) then Some 0%nat else S <$> memchr rest c
  end.

(** [line[0]]: the first character, the terminating NUL for an empty
    string. *)
Definition front (s : std_string) : ascii := hd NUL s.

(** [s.substr(pos)] for [pos <= s.size()]. *)
Definition substr (s : std_string) (pos : nat) : std_string := drop pos s.

(** [s.find(prefix) == 0]. *)
Fixpoint starts_with (pre s : std_string) : bool :=
  match pre, s with
  | [], _ => true
  | p :: pre', c :: s' => bool_decide (p = c) && starts_with pre' s'
  | _ :: _, [] => false
  end.

(** ** Decimal conversions

    [boost::lexical_cast<std::string>] and [operator<<] of a stream print
    integers in decimal, without padding, with a leading minus sign for
    negative values. *)

Definition dec_of_size (n : nat) : std_string :=
  str (NilZero.string_of_uint (Nat.to_uint n)).

Definition dec_of_long (z : Z) : std_string :=
  str (NilZero.string_of_int (Z.to_int z)).

(** ** Outcomes of a call *)

Inductive exn : Type :=
| connection_error (err : std_string)
| protocol_error (err : std_string)
| key_error (err : std_string)
| value_error (err : std_string)
| runtime_error (what : std_string)
| bad_lexical_cast
| length_error
| bad_alloc.

Inductive outcome (A : Type) : Type :=
| Ok (a : A)
| Throw (e : exn)
| Abort
| Undefined.
Arguments Ok {A} a.
Arguments Throw {A} e.
Arguments Abort {A}.
Arguments Undefined {A}.

(** ** Limits of the platform

    What the platform has to give when the client decodes a reply.
    [new char[size]] provides an array of up to [max_new] bytes and throws
    [std::bad_alloc] for more; no array is larger than [PTRDIFF_MAX] bytes,
    and a small one can always be had.  A [std::vector<std::string>] holds
    at most [vector_max_size] elements ([max_size()], which is below
    [PTRDIFF_MAX] as an element takes more than a byte), and storage can be
    allocated for up to [vector_max_alloc] of them.  The limits are
    parameters: nothing is assumed about them but these bounds. *)
Class Platform : Type := {
  max_new : Z;
  vector_max_size : Z;
  vector_max_alloc : Z;
  max_new_small : 65536 ≤ max_new;
  max_new_bound : max_new ≤ LONG_MAX;
  vector_max_alloc_small : 0 ≤ vector_max_alloc;
  vector_max_alloc_bound : vector_max_alloc ≤ vector_max_size;
  vector_max_size_bound : vector_max_size < LONG_MAX
}.

(** [boost::lexical_cast<int_type>(s)]: an optional sign, then one or more
    decimal digits and nothing else; the value has to fit a [long]. *)
Definition lexical_cast_long (s : std_string) : outcome Z :=
  let '(negative, digits) :=
    match s with
    | c :: rest =>
        if bool_decide (c = "-"%char) then (true, rest)
        else if bool_decide (c = "+"%char) then (false, rest)
        else (false, s)
    | [] => (false, [])
    end in
  match digits with
  | [] => Throw bad_lexical_cast
  | _ :: _ =>
      match NilEmpty.uint_of_string (string_of_list_ascii digits) with
      | None => Throw bad_lexical_cast
      | Some d =>
          let magnitude := Z.of_uint d in
          if negative
          then (if magnitude <=? 2 ^ 63 then Ok (- magnitude) else Throw bad_lexical_cast)
          else (if magnitude <=? LONG_MAX then Ok magnitude else Throw bad_lexical_cast)
      end
  end.

(** ** Command encoder: [class makecmd] *)

Record makecmd : Type := MakeCmd { lines_ : list std_string }.

Definition append (m : makecmd) (param : std_string) : makecmd :=
  MakeCmd (lines_ m ++ [param]).

(** [explicit makecmd(const std::string & cmd_name)] *)
Definition makecmd_new (cmd_name : std_string) : makecmd :=
  append (MakeCmd []) cmd_name.

(** The overloads of [operator<<]: a string is appended as it is, any other
    datum through [lexical_cast<std::string>], a vector of strings element
    by element. *)
Class Insertable (T : Type) := shl : makecmd → T → makecmd.

#[global] Instance shl_string : Insertable std_string :=
  fun m datum => append m datum.
#[global] Instance shl_long : Insertable Z :=
  fun m datum => append m (dec_of_long datum).
#[global] Instance shl_size : Insertable nat :=
  fun m datum => append m (dec_of_size datum).
#[global] Instance shl_vector : Insertable (list std_string) :=
  fun m data => MakeCmd (lines_ m ++ data).

Notation "m << x" := (shl m x) (at level 40, left associativity).

(** [operator std::string () const]. The output stream is the accumulator
    of the loop over the indices [0 .. n-1]. *)
Definition makecmd_to_string (m : makecmd) : std_string :=
  let n := length (lines_ m) in
  let oss := [REDIS_PREFIX_MULTI_BULK_REPLY] ++ dec_of_size n ++ REDIS_LBR in
  foldl (fun oss i =>
           let param := nth i (lines_ m) [] in
           let oss := oss ++ [REDIS_PREFIX_SINGLE_BULK_REPLY]
                          ++ dec_of_size (length param) ++ REDIS_LBR in
           oss ++ param ++ REDIS_LBR)
        oss (seq 0 n).

(** The frame of one argument on the wire: [$<len>\r\n<bytes>\r\n]. *)
Definition bulk_frame (arg : std_string) : std_string :=
  [REDIS_PREFIX_SINGLE_BULK_REPLY] ++ dec_of_size (length arg) ++ REDIS_LBR
    ++ arg ++ REDIS_LBR.

(** The request a caller builds: the command name, then each argument
    inserted in order. *)
Definition command (cmd_name : std_string) (args : list std_string) : makecmd :=
  foldl (fun m a => m << a) (makecmd_new cmd_name) args.

(** ** State transformers with exceptions *)

Definition io (S A : Type) : Type := S → outcome A * S.

Definition ret {S A} (a : A) : io S A := fun s => (Ok a, s).
Definition throw {S A} (e : exn) : io S A := fun s => (Throw e, s).
Definition abort {S A} : io S A := fun s => (Abort, s).
Definition undefined {S A} : io S A := fun s => (Undefined, s).

Definition bind {S A B} (m : io S A) (k : A → io S B) : io S B :=
  fun s =>
    match m s with
    | (Ok a, s') => k a s'
    | (Throw e, s') => (Throw e, s')
    | (Abort, s') => (Abort, s')
    | (Undefined, s') => (Undefined, s')
    end.

Notation "x <- m ;; k" := (bind m (fun x => k))
  (at level 100, m at next level, right associativity).
Notation "m ;;; k" := (bind m (fun _ => k))
  (at level 100, right associativity).

(** A computation that does not touch the state. *)
Definition lift {S A} (r : outcome A) : io S A := fun s => (r, s).

Definition outcome_map {A B} (f : A → B) (r : outcome A) : outcome B :=
  match r with
  | Ok a => Ok (f a)
  | Throw e => Throw e
  | Abort => Abort
  | Undefined => Undefined
  end.

Fixpoint foldM {S A B} (f : B → A → io S B) (l : list A) (b : B) : io S B :=
  match l with
  | [] => ret b
  | a :: l' => b' <- f b a ;; foldM f l' b'
  end.

(** [v[i]] on a vector: undefined outside the bounds. *)
Definition at_ {A} (v : list A) (i : nat) : outcome A :=
  match v !! i with
  | Some x => Ok x
  | None => Undefined
  end.

(** ** A blocking stream socket

    [sk_in] holds the bytes the peer sends before it closes its end, in
    order, as far as they have not been consumed.  The first [sk_avail] of
    them have already arrived in the receive buffer; [sk_arrivals] tells how
    many more arrive before each later call of [recv] (none once the list is
    used up).  Every property below is stated for all values of these two
    fields, that is, for every segmentation and timing of the transport.
    [sk_out] collects what was written; [sk_wr_err] is the message of the
    error that writing fails with, if it fails. *)

Record socket_state : Type := Sock {
  sk_in : std_string;
  sk_avail : nat;
  sk_arrivals : list nat;
  sk_out : std_string;
  sk_wr_err : option std_string
}.

(** [recv(socket, buffer, len, flags)], retried while it is interrupted
    ([EINTR]): blocks until a byte is available or the peer has closed, then
    hands out what the receive buffer holds, at most [len] bytes.  The
    result is the content written to [buffer]; its length is the return
    value, [0] after an orderly shutdown.  With [peek] ([MSG_PEEK]) the
    bytes stay in the receive buffer. *)
Definition recv (len : nat) (peek : bool) (s : socket_state)
  : std_string * socket_state :=
  let arriving := hd 0%nat (sk_arrivals s) in
  let avail := (length (sk_in s) `min` (1 `max` (sk_avail s + arriving)))%nat in
  let n := (len `min` avail)%nat in
  let rest := tail (sk_arrivals s) in
  (take n (sk_in s),
   if peek
   then Sock (sk_in s) avail rest (sk_out s) (sk_wr_err s)
   else Sock (drop n (sk_in s)) (avail - n) rest (sk_out s) (sk_wr_err s)).

Definition connection_was_closed : exn :=
  connection_error (str "connection was closed").

(** The loop of [read_n]: [buffer] holds the [bytes_read] bytes received so
    far.  Each round receives at least one byte, so [n] rounds are enough;
    [fuel] counts them down. *)
Fixpoint read_n_loop (fuel n : nat) (buffer : std_string)
  : io socket_state std_string :=
  if bool_decide (length buffer ≠ n) then
    match fuel with
    | O => undefined
    | S fuel' => fun s =>
        let '(received, s') := recv (n - length buffer) false s in
        if bool_decide (length received = 0%nat)
        then (Throw connection_was_closed, s')
        else read_n_loop fuel' n (buffer ++ received) s'
    end
  else ret buffer.

(** [std::string read_n(int socket, ssize_t n)].  It begins with
    [char * buffer = new char[n + 1]; buffer[n] = '\0';]: for a negative [n]
    the size of the array is negative or the assignment writes in front of
    the array, and for the largest [n] the sum overflows; an array of more
    than [max_new] bytes is refused with [std::bad_alloc] before anything
    is read. *)
Definition read_n {P : Platform} (socket : Z) (n : Z) : io socket_state std_string :=
  if n <? 0 then undefined
  else if LONG_MAX <? n + 1 then undefined
  else if max_new <? n + 1 then throw bad_alloc
  else read_n_loop (Z.to_nat n) (Z.to_nat n) [].

Definition buffer_size : nat := 64.

(** The loop of [read_line].  [total_bytes_read] is a variable of the
    source that the loop body never assigns.  Each round consumes at least
    one byte of the stream or throws, which bounds the number of rounds by
    the length of the stream; [fuel] counts them down. *)
Fixpoint read_line_loop (fuel : nat) (max_size total_bytes_read : Z)
    (found_delimiter : bool) (oss : std_string) : io socket_state std_string :=
  if (total_bytes_read <? max_size) && negb found_delimiter then
    match fuel with
    | O => undefined
    | S fuel' => fun s =>
        let '(buffer, s1) := recv buffer_size true s in
        if bool_decide (length buffer = 0%nat)
        then (Throw connection_was_closed, s1)
        else
          let '(to_read, found_delimiter) :=
            match memchr buffer LF with
            | Some eol => (S eol, true)
            | None => (length buffer, found_delimiter)
            end in
          let oss := oss ++ take to_read buffer in
          let '(_, s2) := recv to_read false s1 in
          read_line_loop fuel' max_size total_bytes_read found_delimiter oss s2
    end
  else ret (rtrim oss REDIS_LBR).

(** [std::string read_line(int socket, ssize_t max_size = 2048)], with its
    two assertions. *)
Definition read_line (socket : Z) (max_size : Z) : io socket_state std_string :=
  if negb (0 <? socket) then abort
  else if negb (0 <? max_size) then abort
  else fun s => read_line_loop (S (length (sk_in s))) max_size 0 false [] s.

Definition default_max_size : Z := 2048.

(** ** Reply decoders of [base_client] *)

Definition missing_value : std_string := str "**nonexistent-key**".

Definition recv_single_line_reply_ (socket : Z) : io socket_state std_string :=
  line <- read_line socket default_max_size ;;
  if bool_decide (line = []) then
    throw (protocol_error (str "empty single line reply"))
  else if starts_with REDIS_PREFIX_STATUS_REPLY_ERROR line then
    let error_msg := substr line (length REDIS_PREFIX_STATUS_REPLY_ERROR) in
    throw (protocol_error
             (if bool_decide (error_msg = []) then str "unknown error" else error_msg))
  else if bool_decide (front line ≠ REDIS_PREFIX_STATUS_REPLY_VALUE) then
    throw (protocol_error (str "unexpected prefix for status reply"))
  else ret (substr line 1).

Definition recv_ok_reply_ (socket : Z) : io socket_state unit :=
  line <- recv_single_line_reply_ socket ;;
  if bool_decide (line ≠ REDIS_STATUS_REPLY_OK)
  then throw (protocol_error (str "expected OK response"))
  else ret tt.

(** [int_type recv_bulk_reply_(int socket, char prefix)]: the header line
    of a bulk or multi-bulk reply. *)
Definition recv_bulk_reply_prefix_ (socket : Z) (prefix : ascii)
  : io socket_state Z :=
  line <- read_line socket default_max_size ;;
  if bool_decide (front line ≠ prefix)
  then throw (protocol_error (str "unexpected prefix for bulk reply"))
  else lift (lexical_cast_long (substr line 1)).

Definition unexpected_length : exn :=
  protocol_error (str "invalid bulk reply data; data of unexpected length").

(** [std::string recv_bulk_reply_(int socket)].  [length + 2] is computed
    in [int_type]; a sum above [LONG_MAX] is a signed overflow.
    [data.erase(data.size() - 2)] keeps all but the last two bytes. *)
Definition recv_bulk_reply_ {P : Platform} (socket : Z) : io socket_state std_string :=
  length_ <- recv_bulk_reply_prefix_ socket REDIS_PREFIX_SINGLE_BULK_REPLY ;;
  if length_ =? -1 then ret missing_value
  else if LONG_MAX <? length_ + 2 then undefined
  else
    let real_length := length_ + 2 in
    data <- read_n socket real_length ;;
    if bool_decide (data = []) then
      throw (protocol_error (str "invalid bulk reply data; empty"))
    else if bool_decide (Z.of_nat (length data) ≠ real_length `mod` 2 ^ 64) then
      throw unexpected_length
    else ret (take (length data - 2) data).

(** The loop [for (i = 0; i < length; ++i) push(recv_bulk_reply_(socket))],
    whose body runs [length] times and does not mention [i]. *)
Fixpoint recv_bulk_replies_ {P : Platform} {C} (push : C → std_string → C) (socket : Z)
    (rounds : nat) (out : C) : io socket_state C :=
  match rounds with
  | O => ret out
  | S rounds' =>
      v <- recv_bulk_reply_ socket ;;
      recv_bulk_replies_ push socket rounds' (push out v)
  end.

Definition no_such_key : exn := key_error (str "no such key").

(** [v.reserve(n)] on a vector of [size] elements: [std::length_error] for
    more than [max_size()] elements; otherwise storage for [n] elements is
    allocated unless the capacity, which is at least [size], is enough
    already (a capacity the vector has was allocated, so it is within
    [vector_max_alloc]). *)
Definition reserve {P : Platform} (size : nat) (n : Z) : outcome unit :=
  if vector_max_size <? n then Throw length_error
  else if (Z.of_nat size <? n) && (vector_max_alloc <? n) then Throw bad_alloc
  else Ok tt.

(** [int_type recv_multi_bulk_reply_(int socket, string_vector & out)].
    The result pairs the return value with the content of [out] on return
    (what [out] holds when an exception leaves the loop is not tracked).
    [out.size() + length] is computed in [size_t], to which [length] is
    converted. *)
Definition recv_multi_bulk_reply_ {P : Platform} (socket : Z) (out : list std_string)
  : io socket_state (Z * list std_string) :=
  length_ <- recv_bulk_reply_prefix_ socket REDIS_PREFIX_MULTI_BULK_REPLY ;;
  if length_ =? -1 then throw no_such_key
  else
    lift (reserve (length out) ((Z.of_nat (length out) + length_) `mod` 2 ^ 64)) ;;;
    out <- recv_bulk_replies_ (fun out v => out ++ [v]) socket (Z.to_nat length_) out ;;
    ret (length_, out).

(** [int_type recv_multi_bulk_reply_(int socket, string_set & out)] *)
Definition recv_multi_bulk_reply_set_ {P : Platform} (socket : Z) (out : gset std_string)
  : io socket_state (Z * gset std_string) :=
  length_ <- recv_bulk_reply_prefix_ socket REDIS_PREFIX_MULTI_BULK_REPLY ;;
  if length_ =? -1 then throw no_such_key
  else
    out <- recv_bulk_replies_ (fun out v => {[ v ]} ∪ out) socket (Z.to_nat length_) out ;;
    ret (length_, out).

Definition recv_int_reply_ (socket : Z) : io socket_state Z :=
  line <- read_line socket default_max_size ;;
  if bool_decide (line = []) then
    throw (protocol_error (str "invalid integer reply; empty"))
  else if bool_decide (front line ≠ REDIS_PREFIX_INT_REPLY) then
    throw (protocol_error (str "unexpected prefix for integer reply"))
  else lift (lexical_cast_long (substr line 1)).

Definition recv_int_ok_reply_ (socket : Z) : io socket_state unit :=
  n <- recv_int_reply_ socket ;;
  if bool_decide (n ≠ 1)
  then throw (protocol_error (str "expecting int reply of 1"))
  else ret tt.

(** ** Connections and the table of descriptors *)

Record connection_data : Type := ConnectionData {
  host : std_string;
  port : Z;
  dbindex : Z;
  socket : Z
}.

(** [base_client<CONSISTENT_HASHER>]: the hash strategy is the template
    argument, a function object called with the key and the connections. *)
Record base_client : Type := BaseClient {
  connections_ : list connection_data;
  hasher_ : std_string → list connection_data → nat
}.

(** [default_hasher], over the string hash [boost::hash<std::string>] of the
    Boost library: [hash(key) % connections.size()]. *)
Definition default_hasher (boost_hash : std_string → Z)
    (key : std_string) (connections : list connection_data) : nat :=
  Z.to_nat (boost_hash key `mod` Z.of_nat (length connections)).

(** [connections_[i].socket] *)
Definition connection_socket (c : base_client) (i : nat) : outcome Z :=
  outcome_map socket (at_ (connections_ c) i).

(** [int get_socket(const string_type & key)] *)
Definition get_socket (c : base_client) (key : std_string) : outcome Z :=
  let con_count := length (connections_ c) in
  if bool_decide (con_count = 1%nat) then connection_socket c 0
  else
    let idx := hasher_ c key (connections_ c) in
    connection_socket c idx.

Definition not_possible_in_cluster_mode : exn :=
  runtime_error (str "not possible in cluster mode").

(** The loop of [get_socket(const string_vector & keys)] from index [i] on,
    [keys] being the keys not yet visited. *)
Fixpoint get_socket_loop (c : base_client) (keys : list std_string) (i : nat)
    (socket : Z) : outcome Z :=
  match keys with
  | [] => Ok socket
  | key :: keys' =>
      match get_socket c key with
      | Ok cur_socket =>
          if bool_decide (0 < i)%nat && bool_decide (socket ≠ cur_socket)
          then Throw not_possible_in_cluster_mode
          else get_socket_loop c keys' (S i) cur_socket
      | failure => failure
      end
  end.

(** [int get_socket(const string_vector & keys)], with its assertion that
    there is a key. *)
Definition get_socket_keys (c : base_client) (keys : list std_string) : outcome Z :=
  if bool_decide (keys = []) then Abort
  else get_socket_loop c keys 0 (-1).

(** Run code that reads a connection on the state of descriptor [fd].  A
    descriptor outside the table is not an open socket: [recv] fails on it,
    and the readers use the negative return value as a byte count. *)
Definition on {A} (fd : Z) (m : io socket_state A) : io (gmap Z socket_state) A :=
  fun n =>
    match n !! fd with
    | Some s => let '(r, s') := m s in (r, <[fd := s']> n)
    | None => (Undefined, n)
    end.

Definition bad_file_descriptor : std_string := str "Bad file descriptor".

(** Modelled from the spec: [anetWrite] of anet.c, which is not among the
    sources.  It writes the whole message to the connection or fails; the
    result is the [strerror] text of the failure, if any (the source
    compares the return value with [-1]).  A failing write transmits
    nothing. *)
Definition anetWrite (fd : Z) (msg : std_string) (n : gmap Z socket_state)
  : option std_string * gmap Z socket_state :=
  match n !! fd with
  | Some s =>
      match sk_wr_err s with
      | None =>
          (None, <[fd := Sock (sk_in s) (sk_avail s) (sk_arrivals s)
                              (sk_out s ++ msg) (sk_wr_err s)]> n)
      | Some err => (Some err, n)
      end
  | None => (Some bad_file_descriptor, n)
  end.

(** [void send_(int socket, const std::string & msg)] *)
Definition send_ (socket : Z) (msg : std_string) : io (gmap Z socket_state) unit :=
  fun n =>
    match anetWrite socket msg n with
    | (Some err, n') => (Throw (connection_error err), n')
    | (None, n') => (Ok tt, n')
    end.

Definition for_each {S A} (l : list A) (body : A → io S unit) : io S unit :=
  foldM (fun _ a => body a) l tt.

Definition feature_not_available : exn :=
  runtime_error (str "feature is not available in cluster mode").
Definition function_not_available : exn :=
  runtime_error (str "function not available in cluster mode").
Definition not_available : exn :=
  runtime_error (str "not available in cluster mode").

(** An error of the router: the request needs more than one connection. *)
Definition cluster_mode_error (e : exn) : Prop :=
  e = feature_not_available ∨ e = function_not_available
  ∨ e = not_available ∨ e = not_possible_in_cluster_mode.

(** ** Whole-client operations *)




(** The values [die()] can return for [boost::uniform_int<> dist(min, max)]:
    the distribution is over the closed range. *)
Definition uniform_int_range (min_ max_ : nat) : list nat :=
  seq min_ (S max_ - min_).

(** [string_type randomkey()], for the value [die] drawn by the generator
    (only used with more than one connection). *)
Definition randomkey {P : Platform} (c : base_client) (die : nat)
  : io (gmap Z socket_state) std_string :=
  socket <- lift (connection_socket c 0) ;;
  socket <- (if bool_decide (1 < length (connections_ c))%nat
             then lift (connection_socket c die)
             else ret socket) ;;
  send_ socket (makecmd_to_string (makecmd_new (str "RANDOMKEY"))) ;;;
  on socket (recv_bulk_reply_ socket).

(** ** Operations on several keys *)

Definition rename (c : base_client) (old_name new_name : std_string)
  : io (gmap Z socket_state) unit :=
  source_socket <- lift (get_socket c old_name) ;;
  destin_socket <- lift (get_socket c new_name) ;;
  if bool_decide (source_socket ≠ destin_socket) then throw feature_not_available
  else
    send_ source_socket
      (makecmd_to_string (makecmd_new (str "RENAME") << old_name << new_name)) ;;;
    on source_socket (recv_ok_reply_ source_socket).

Definition renamenx (c : base_client) (old_name new_name : std_string)
  : io (gmap Z socket_state) bool :=
  source_socket <- lift (get_socket c old_name) ;;
  destin_socket <- lift (get_socket c new_name) ;;
  if bool_decide (source_socket ≠ destin_socket) then throw feature_not_available
  else
    send_ source_socket
      (makecmd_to_string (makecmd_new (str "RENAMENX") << old_name << new_name)) ;;;
    n <- on source_socket (recv_int_reply_ source_socket) ;;
    ret (n =? 1).

Definition smove (c : base_client) (srckey dstkey member : std_string)
  : io (gmap Z socket_state) unit :=
  src_socket <- lift (get_socket c srckey) ;;
  dst_socket <- lift (get_socket c dstkey) ;;
  if bool_decide (dst_socket ≠ src_socket) then throw function_not_available
  else
    send_ src_socket
      (makecmd_to_string (makecmd_new (str "SMOVE") << srckey << dstkey << member)) ;;;
    on src_socket (recv_int_ok_reply_ src_socket).

(** [sinter], [sunion] and [sdiff] differ in the command name only. *)
Definition set_query {P : Platform} (name : string) (c : base_client) (keys : list std_string)
    (out : gset std_string) : io (gmap Z socket_state) (Z * gset std_string) :=
  socket <- lift (get_socket_keys c keys) ;;
  send_ socket (makecmd_to_string (makecmd_new (str name) << keys)) ;;;
  on socket (recv_multi_bulk_reply_set_ socket out).

Definition sinter {P : Platform} := set_query "SINTER".
Definition sunion {P : Platform} := set_query "SUNION".
Definition sdiff {P : Platform} := set_query "SDIFF".

(** [sinterstore], [sunionstore] and [sdiffstore] differ in the command
    name only. *)
Definition set_store (name : string) (c : base_client) (dstkey : std_string)
    (keys : list std_string) : io (gmap Z socket_state) Z :=
  socket <- lift (get_socket c dstkey) ;;
  source_sockets <- lift (get_socket_keys c keys) ;;
  if bool_decide (socket ≠ source_sockets) then throw not_available
  else
    send_ socket (makecmd_to_string (makecmd_new (str name) << dstkey << keys)) ;;;
    on socket (recv_int_reply_ socket).

Definition sinterstore := set_store "SINTERSTORE".
Definition sunionstore := set_store "SUNIONSTORE".
Definition sdiffstore := set_store "SDIFFSTORE".

(** [string_pair blpop(const string_vector & keys, int_type timeout)]:
    [for (i ...) m << keys[i]] inserts the keys one by one.  ([brpop] on a
    vector of keys passes the name of the function [missing_value] to
    [make_pair] and cannot be instantiated; it has no model.) *)
Definition blpop {P : Platform} (c : base_client) (keys : list std_string)
    (timeout : Z) : io (gmap Z socket_state) (std_string * std_string) :=
  socket <- lift (get_socket_keys c keys) ;;
  let m := foldl (fun m key => m << key) (makecmd_new (str "BLPOP")) keys in
  let m := m << timeout in
  send_ socket (makecmd_to_string m) ;;;
  reply <- on socket (recv_multi_bulk_reply_ socket []) ;;
  match reply.2 with
  | [k; v] => ret (k, v)
  | _ => ret ([], missing_value)
  end.

Inductive aggregate_type : Type := aggregate_sum | aggregate_min | aggregate_max.

(** The [switch] over the aggregate has no [break]: every case falls
    through to the ones below it. *)
Definition aggregate_words (aggragate : aggregate_type) : list std_string :=
  match aggragate with
  | aggregate_sum => [str "SUM"; str "MIN"; str "MAX"]
  | aggregate_min => [str "MIN"; str "MAX"]
  | aggregate_max => [str "MAX"]
  end.

(** [zunionstore] and [zinterstore] differ in the command name only. *)
Definition zset_store (name : string) (c : base_client) (dstkey : std_string)
    (keys weights : list std_string) (aggragate : aggregate_type)
  : io (gmap Z socket_state) Z :=
  dst_socket <- lift (get_socket c dstkey) ;;
  socket <- lift (get_socket_keys c keys) ;;
  if bool_decide (socket ≠ dst_socket) then throw feature_not_available
  else
    let m := makecmd_new (str name) << dstkey << length keys << keys in
    m <- (if bool_decide (0 < length weights)%nat
          then if bool_decide (length keys ≠ length weights) then abort
               else ret (m << length weights << weights)
          else ret m) ;;
    let m := m << str "AGGREGATE" in
    let m := foldl (fun m w => m << w) m (aggregate_words aggragate) in
    send_ socket (makecmd_to_string m) ;;;
    on socket (recv_int_reply_ socket).

Definition zunionstore := zset_store "ZUNIONSTORE".
Definition zinterstore := zset_store "ZINTERSTORE".

(** ** [mset]

    [std::map<int, boost::optional<makecmd>> socket_commands]: the entries
    in increasing order of the descriptor. [socket_commands[socket]]
    creates an empty entry when there is none; [update] is applied to the
    entry. *)
Fixpoint upsert (socket : Z) (update : option makecmd → makecmd)
    (socket_commands : list (Z * makecmd)) : list (Z * makecmd) :=
  match socket_commands with
  | [] => [(socket, update None)]
  | (fd, cmd) :: rest =>
      if socket <? fd then (socket, update None) :: socket_commands
      else if socket =? fd then (fd, update (Some cmd)) :: rest
      else (fd, cmd) :: upsert socket update rest
  end.

(** [if(!cmd) cmd = makecmd(name); *cmd << key << value;] *)
Definition add_pair (name : string) (key value : std_string)
    (cmd : option makecmd) : makecmd :=
  default (makecmd_new (str name)) cmd << key << value.

(** The two loops that end [mset]: send every command, then read every
    reply. *)
Definition send_all_recv_ok (socket_commands : list (Z * makecmd))
  : io (gmap Z socket_state) unit :=
  for_each socket_commands (fun sp => send_ sp.1 (makecmd_to_string sp.2)) ;;;
  for_each socket_commands (fun sp => on sp.1 (recv_ok_reply_ sp.1)).

(** [void mset(const string_vector & keys, const string_vector & values)];
    the loop body calls [get_socket(keys)], the overload for a vector. *)
Definition mset (c : base_client) (keys values : list std_string)
  : io (gmap Z socket_state) unit :=
  if bool_decide (length keys ≠ length values) then abort
  else
    socket_commands <-
      foldM (fun socket_commands i =>
               socket <- lift (get_socket_keys c keys) ;;
               key <- lift (at_ keys i) ;;
               value <- lift (at_ values i) ;;
               ret (upsert socket (add_pair "MSET" key value) socket_commands))
            (seq 0 (length keys)) [] ;;
    send_all_recv_ok socket_commands.

(** [void mset(const string_pair_vector & key_value_pairs)] *)
Definition mset_pairs (c : base_client) (key_value_pairs : list (std_string * std_string))
  : io (gmap Z socket_state) unit :=
  socket_commands <-
    foldM (fun socket_commands i =>
             kv <- lift (at_ key_value_pairs i) ;;
             let key := kv.1 in
             let value := kv.2 in
             socket <- lift (get_socket c key) ;;
             ret (upsert socket (add_pair "MSET" key value) socket_commands))
          (seq 0 (length key_value_pairs)) [] ;;
  send_all_recv_ok socket_commands.

(** The variant of [mset] on two vectors that the specification calls the
    corrected one: the [i]-th pair is routed by [get_socket(keys[i])]. *)
Definition mset_routed_by_key (c : base_client) (keys values : list std_string)
  : io (gmap Z socket_state) unit :=
  if bool_decide (length keys ≠ length values) then abort
  else
    socket_commands <-
      foldM (fun socket_commands i =>
               key <- lift (at_ keys i) ;;
               value <- lift (at_ values i) ;;
               socket <- lift (get_socket c key) ;;
               ret (upsert socket (add_pair "MSET" key value) socket_commands))
            (seq 0 (length keys)) [] ;;
    send_all_recv_ok socket_commands.

(** ** The operations that must reach all their keys on one connection *)

Inductive multi_key_op : Type :=
| op_rename (old_name new_name : std_string)
| op_renamenx (old_name new_name : std_string)
| op_smove (srckey dstkey member : std_string)
| op_sinter (keys : list std_string) (out : gset std_string)
| op_sunion (keys : list std_string) (out : gset std_string)
| op_sdiff (keys : list std_string) (out : gset std_string)
| op_sinterstore (dstkey : std_string) (keys : list std_string)
| op_sunionstore (dstkey : std_string) (keys : list std_string)
| op_sdiffstore (dstkey : std_string) (keys : list std_string)
| op_blpop (keys : list std_string) (timeout : Z)
| op_zunionstore (dstkey : std_string) (keys weights : list std_string)
    (aggragate : aggregate_type)
| op_zinterstore (dstkey : std_string) (keys weights : list std_string)
    (aggragate : aggregate_type).

Definition void {S A} (m : io S A) : io S unit := _ <- m ;; ret tt.

(** Calling the operation, its result dropped. *)
Definition run_op {P : Platform} (c : base_client) (o : multi_key_op)
  : io (gmap Z socket_state) unit :=
  match o with
  | op_rename old_name new_name => rename c old_name new_name
  | op_renamenx old_name new_name => void (renamenx c old_name new_name)
  | op_smove srckey dstkey member => smove c srckey dstkey member
  | op_sinter keys out => void (sinter c keys out)
  | op_sunion keys out => void (sunion c keys out)
  | op_sdiff keys out => void (sdiff c keys out)
  | op_sinterstore dstkey keys => void (sinterstore c dstkey keys)
  | op_sunionstore dstkey keys => void (sunionstore c dstkey keys)
  | op_sdiffstore dstkey keys => void (sdiffstore c dstkey keys)
  | op_blpop keys timeout => void (blpop c keys timeout)
  | op_zunionstore dstkey keys weights aggragate =>
      void (zunionstore c dstkey keys weights aggragate)
  | op_zinterstore dstkey keys weights aggragate =>
      void (zinterstore c dstkey keys weights aggragate)
  end.

(** The keys the operation is routed by. *)
Definition op_keys (o : multi_key_op) : list std_string :=
  match o with
  | op_rename old_name new_name | op_renamenx old_name new_name => [old_name; new_name]
  | op_smove srckey dstkey _ => [srckey; dstkey]
  | op_sinter keys _ | op_sunion keys _ | op_sdiff keys _ => keys
  | op_sinterstore dstkey keys | op_sunionstore dstkey keys
  | op_sdiffstore dstkey keys => dstkey :: keys
  | op_blpop keys _ => keys
  | op_zunionstore dstkey keys _ _ | op_zinterstore dstkey keys _ _ => dstkey :: keys
  end.

(** What the source asserts about the arguments. *)
Definition op_asserts (o : multi_key_op) : Prop :=
  match o with
  | op_rename _ _ | op_renamenx _ _ | op_smove _ _ _ => True
  | op_sinter keys _ | op_sunion keys _ | op_sdiff keys _ => keys ≠ []
  | op_sinterstore _ keys | op_sunionstore _ keys | op_sdiffstore _ keys => keys ≠ []
  | op_blpop keys _ => keys ≠ []
  | op_zunionstore _ keys weights _ | op_zinterstore _ keys weights _ =>
      keys ≠ [] ∧ (weights = [] ∨ length keys = length weights)
  end.

(** The words of the request: the command name, then the arguments. *)
Definition op_words (o : multi_key_op) : list std_string :=
  match o with
  | op_rename old_name new_name => [str "RENAME"; old_name; new_name]
  | op_renamenx old_name new_name => [str "RENAMENX"; old_name; new_name]
  | op_smove srckey dstkey member => [str "SMOVE"; srckey; dstkey; member]
  | op_sinter keys _ => str "SINTER" :: keys
  | op_sunion keys _ => str "SUNION" :: keys
  | op_sdiff keys _ => str "SDIFF" :: keys
  | op_sinterstore dstkey keys => str "SINTERSTORE" :: dstkey :: keys
  | op_sunionstore dstkey keys => str "SUNIONSTORE" :: dstkey :: keys
  | op_sdiffstore dstkey keys => str "SDIFFSTORE" :: dstkey :: keys
  | op_blpop keys timeout => str "BLPOP" :: keys ++ [dec_of_long timeout]
  | op_zunionstore dstkey keys weights aggragate =>
      str "ZUNIONSTORE" :: dstkey :: dec_of_size (length keys) :: keys
        ++ match weights with
           | [] => []
           | _ :: _ => dec_of_size (length weights) :: weights
           end
        ++ str "AGGREGATE" :: aggregate_words aggragate
  | op_zinterstore dstkey keys weights aggragate =>
      str "ZINTERSTORE" :: dstkey :: dec_of_size (length keys) :: keys
        ++ match weights with
           | [] => []
           | _ :: _ => dec_of_size (length weights) :: weights
           end
        ++ str "AGGREGATE" :: aggregate_words aggragate
  end.

(** The request format of the wire: [*<argc>\r\n], then one frame per
    word. *)
Definition request_bytes (words : list std_string) : std_string :=
  [REDIS_PREFIX_MULTI_BULK_REPLY] ++ dec_of_size (length words) ++ REDIS_LBR
    ++ concat (bulk_frame <$> words).

(** A reply as the server frames it: a bulk reply carrying [payload], or
    the reply for a missing value. *)
Definition bulk_reply_bytes (payload : option std_string) : std_string :=
  match payload with
  | Some bytes =>
      [REDIS_PREFIX_SINGLE_BULK_REPLY] ++ dec_of_long (Z.of_nat (length bytes))
        ++ REDIS_LBR ++ bytes ++ REDIS_LBR
  | None => [REDIS_PREFIX_SINGLE_BULK_REPLY] ++ dec_of_long (-1) ++ REDIS_LBR
  end.

(** What [recv_bulk_reply_] returns for such a reply. *)
Definition bulk_value (payload : option std_string) : std_string :=
  default missing_value payload.

(** ** The string hash of Boost

    [boost::hash<std::string>] as [hash_range] over the characters with the
    [hash_combine] step
    [seed ^= hash_value(c) + 0x9e3779b9 + (seed << 6) + (seed >> 2)] on a
    64-bit [size_t]; [char] is signed. Used for concrete clients only: the
    properties of the router are proved for every hash. *)

Definition hash_value_char (c : ascii) : Z :=
  let n := Z.of_nat (nat_of_ascii c) in
  if n <? 128 then n else n + 2 ^ 64 - 256.

Definition hash_combine (seed : Z) (c : ascii) : Z :=
  Z.lxor seed
    ((hash_value_char c + 2654435769 + Z.shiftl seed 6 + Z.shiftr seed 2) `mod` 2 ^ 64).

Definition boost_hash_range (s : std_string) : Z := foldl hash_combine 0 s.

(** [typedef base_client<default_hasher> client] *)
Definition client (connections : list connection_data) : base_client :=
  BaseClient connections (default_hasher boost_hash_range).

(** ** Predicates used in the statements *)

(** The part of the connection that reading does not touch. *)
Definition same_output (s s' : socket_state) : Prop :=
  sk_out s' = sk_out s ∧ sk_wr_err s' = sk_wr_err s.

(** The receive buffer never holds more than the stream. *)
Definition buffered (s : socket_state) : Prop :=
  (sk_avail s ≤ length (sk_in s))%nat.

(** [m] only reads: whatever the state, its outcome satisfies [Q] and the
    output side of the connection is as before. *)
Definition ensures {A} (m : io socket_state A) (Q : outcome A → Prop) : Prop :=
  ∀ s, Q (m s).1 ∧ same_output s (m s).2.

(** The outcome is not an exception other than those of [P]. *)
Definition throws_only {A} (P : exn → Prop) (r : outcome A) : Prop :=
  match r with
  | Throw e => P e
  | _ => True
  end.

(** The payload can be received: [read_n] gets the array for it, which
    holds the payload, its two delimiter bytes and a final NUL. *)
Definition payload_fits {P : Platform} (payload : option std_string) : Prop :=
  match payload with
  | Some bytes => Z.of_nat (length bytes) + 3 ≤ max_new
  | None => True
  end.

(** What a call that writes [msg] to descriptor [fd] and then only reads
    from it does to the network [n], ending in the outcome [r] and the
    network [n']: no other descriptor is touched; [msg] is appended to the
    output of [fd], unless writing fails, which is a connection error that
    leaves the network as it was. *)
Definition sent_on {A} (fd : Z) (msg : std_string)
    (n : gmap Z socket_state) (r : outcome A) (n' : gmap Z socket_state) : Prop :=
  (∀ fd', fd' ≠ fd → n' !! fd' = n !! fd')
  ∧ match n !! fd with
    | Some s =>
        match sk_wr_err s with
        | None => ∃ s', n' !! fd = Some s' ∧ sk_out s' = sk_out s ++ msg
        | Some err => n' = n ∧ r = Throw (connection_error err)
        end
    | None => n' = n ∧ r = Throw (connection_error bad_file_descriptor)
    end.

(** [k] reads from descriptor [fd] and does nothing else to the network. *)
Definition reads_from {A} (fd : Z) (k : io (gmap Z socket_state) A) : Prop :=
  ∀ n, (∀ fd', fd' ≠ fd → (k n).2 !! fd' = n !! fd')
       ∧ match n !! fd with
         | Some s => ∃ s', (k n).2 !! fd = Some s' ∧ same_output s s'
         | None => (k n).2 = n
         end.

(** Every key of [keys] is routed to descriptor [fd]. *)
Definition same_shard (c : base_client) (keys : list std_string) (fd : Z) : Prop :=
  ∀ key, key ∈ keys → get_socket c key = Ok fd.

(** Two keys of [keys] are routed to different connections. *)
Definition cross_shard (c : base_client) (keys : list std_string) : Prop :=
  ∃ key1 key2 fd1 fd2,
    key1 ∈ keys ∧ key2 ∈ keys
    ∧ get_socket c key1 = Ok fd1 ∧ get_socket c key2 = Ok fd2 ∧ fd1 ≠ fd2.

(** A constructed client: at least one connection, and a hash strategy
    that returns indices of connections. *)
Definition valid_client (c : base_client) : Prop :=
  connections_ c ≠ []
  ∧ ∀ key, (hasher_ c key (connections_ c) < length (connections_ c))%nat.

(** Either all keys of the operation are on one connection and the request
    went there, or two keys differ and the operation was rejected with the
    network untouched. *)
Definition routed_or_rejected {P : Platform} (c : base_client) (o : multi_key_op)
    (n : gmap Z socket_state) : Prop :=
  (∃ fd, same_shard c (op_keys o) fd
         ∧ sent_on fd (request_bytes (op_words o)) n (run_op c o n).1 (run_op c o n).2)
  ∨ (cross_shard c (op_keys o)
     ∧ ∃ e, cluster_mode_error e ∧ run_op c o n = (Throw e, n)).

(** ** A platform

    The limits of a 64-bit system with 47 bits of address space for a
    process and a library whose strings take 32 bytes. *)
Definition lp64 : Platform :=
  {| max_new := 2 ^ 47;
     vector_max_size := LONG_MAX / 32;
     vector_max_alloc := 2 ^ 42;
     max_new_small := ltac:(by vm_compute);
     max_new_bound := ltac:(by vm_compute);
     vector_max_alloc_small := ltac:(by vm_compute);
     vector_max_alloc_bound := ltac:(by vm_compute);
     vector_max_size_bound := ltac:(by vm_compute) |}.

(** ** A client with two connections

    Descriptors 3 and 4; each connection has the status reply [+OK]
    waiting to be read. *)
Definition two_shards : base_client :=
  client [ConnectionData (str "10.0.0.1") 6379 0 3;
          ConnectionData (str "10.0.0.2") 6379 0 4].

Definition ok_pending : socket_state := Sock (str "+OK" ++ REDIS_LBR) 0 [] [] None.

Definition two_shards_net : gmap Z socket_state :=
  <[3 := ok_pending]> (<[4 := ok_pending]> ∅).

(** ** String utilities of the header *)

(** [REDIS_WHITESPACE]: the characters of [" \f\n\r\t\v"]. *)
Definition REDIS_WHITESPACE : std_string :=
  [" "%char; ascii_of_nat 12; LF; CR; ascii_of_nat 9; ascii_of_nat 11].

(** [getline(ss, item, delim)] on the unread part [ss] of the stream: it
    fails when nothing is left; otherwise [item] is what stands before the
    first [delim], which is consumed with it, or all of the rest when there
    is none. *)
Definition getline (ss : std_string) (delim : ascii)
  : option (std_string * std_string) :=
  if bool_decide (ss = []) then None
  else match memchr ss delim with
       | Some i => Some (take i ss, drop (S i) ss)
       | None => Some (ss, [])
       end.

(** The loop of [split]: every round consumes a character of the stream,
    which bounds the number of rounds by its length; [fuel] counts them
    down. *)
Fixpoint split_loop (fuel : nat) (ss : std_string) (delim : ascii)
    (elems : list std_string) (n : nat) : list std_string * nat :=
  match fuel with
  | O => (elems, n)
  | S fuel' =>
      match getline ss delim with
      | Some (item, ss') => split_loop fuel' ss' delim (elems ++ [item]) (S n)
      | None => (elems, n)
      end
  end.

(** [split(str, delim, elems)]: the content of [elems] on return and the
    return value. *)
Definition split (str : std_string) (delim : ascii) (elems : list std_string)
  : list std_string * nat :=
  split_loop (S (length str)) str delim elems 0.

(** [split_lines(str, elems)]: the content of [elems] on return; the loop
    trims every element of the vector. *)
Definition split_lines (str : std_string) (elems : list std_string)
  : list std_string :=
  (fun it => rtrim it REDIS_WHITESPACE) <$> (split str LF elems).1.

(** The text whose fields are [items], each closed by [delim], followed by
    [last]. *)
Definition delimited (delim : ascii) (items : list std_string) (last : std_string)
  : std_string :=
  concat ((fun item => item ++ [delim]) <$> items) ++ last.

(** The field that [getline] reads from an unterminated rest. *)
Definition unterminated (last : std_string) : list std_string :=
  match last with
  | [] => []
  | _ :: _ => [last]
  end.

(** ** Operations on one key *)

Definition set (c : base_client) (key value : std_string)
  : io (gmap Z socket_state) unit :=
  socket <- lift (get_socket c key) ;;
  send_ socket (makecmd_to_string (makecmd_new (str "SET") << key << value)) ;;;
  on socket (recv_ok_reply_ socket).

Definition get {P : Platform} (c : base_client) (key : std_string)
  : io (gmap Z socket_state) std_string :=
  socket <- lift (get_socket c key) ;;
  send_ socket (makecmd_to_string (makecmd_new (str "GET") << key)) ;;;
  on socket (recv_bulk_reply_ socket).

Definition getset {P : Platform} (c : base_client) (key value : std_string)
  : io (gmap Z socket_state) std_string :=
  socket <- lift (get_socket c key) ;;
  send_ socket (makecmd_to_string (makecmd_new (str "GETSET") << key << value)) ;;;
  on socket (recv_bulk_reply_ socket).

Definition setnx (c : base_client) (key value : std_string)
  : io (gmap Z socket_state) bool :=
  socket <- lift (get_socket c key) ;;
  send_ socket (makecmd_to_string (makecmd_new (str "SETNX") << key << value)) ;;;
  n <- on socket (recv_int_reply_ socket) ;;
  ret (n =? 1).

(** [secs] is an [unsigned int]. *)
Definition setex (c : base_client) (key value : std_string) (secs : nat)
  : io (gmap Z socket_state) unit :=
  socket <- lift (get_socket c key) ;;
  send_ socket
    (makecmd_to_string (makecmd_new (str "SETEX") << key << secs << value)) ;;;
  on socket (recv_ok_reply_ socket).

Definition incr (c : base_client) (key : std_string) : io (gmap Z socket_state) Z :=
  socket <- lift (get_socket c key) ;;
  send_ socket (makecmd_to_string (makecmd_new (str "INCR") << key)) ;;;
  on socket (recv_int_reply_ socket).

Definition incrby (c : base_client) (key : std_string) (by_ : Z)
  : io (gmap Z socket_state) Z :=
  socket <- lift (get_socket c key) ;;
  send_ socket (makecmd_to_string (makecmd_new (str "INCRBY") << key << by_)) ;;;
  on socket (recv_int_reply_ socket).

Definition decr (c : base_client) (key : std_string) : io (gmap Z socket_state) Z :=
  socket <- lift (get_socket c key) ;;
  send_ socket (makecmd_to_string (makecmd_new (str "DECR") << key)) ;;;
  on socket (recv_int_reply_ socket).

Definition decrby (c : base_client) (key : std_string) (by_ : Z)
  : io (gmap Z socket_state) Z :=
  socket <- lift (get_socket c key) ;;
  send_ socket (makecmd_to_string (makecmd_new (str "DECRBY") << key << by_)) ;;;
  on socket (recv_int_reply_ socket).

(** [bool exists(const string_type & key)] *)
Definition exists_ (c : base_client) (key : std_string)
  : io (gmap Z socket_state) bool :=
  socket <- lift (get_socket c key) ;;
  send_ socket (makecmd_to_string (makecmd_new (str "EXISTS") << key)) ;;;
  n <- on socket (recv_int_reply_ socket) ;;
  ret (n =? 1).

Definition del (c : base_client) (key : std_string) : io (gmap Z socket_state) unit :=
  socket <- lift (get_socket c key) ;;
  send_ socket (makecmd_to_string (makecmd_new (str "DEL") << key)) ;;;
  on socket (recv_int_ok_reply_ socket).

Definition llen (c : base_client) (key : std_string) : io (gmap Z socket_state) Z :=
  socket <- lift (get_socket c key) ;;
  send_ socket (makecmd_to_string (makecmd_new (str "LLEN") << key)) ;;;
  on socket (recv_int_reply_ socket).

Definition lrange {P : Platform} (c : base_client) (key : std_string) (start end_ : Z)
    (out : list std_string) : io (gmap Z socket_state) (Z * list std_string) :=
  socket <- lift (get_socket c key) ;;
  send_ socket
    (makecmd_to_string (makecmd_new (str "LRANGE") << key << start << end_)) ;;;
  on socket (recv_multi_bulk_reply_ socket out).

Definition get_list {P : Platform} (c : base_client) (key : std_string) (out : list std_string)
  : io (gmap Z socket_state) (Z * list std_string) :=
  lrange c key 0 (-1) out.

Definition lrem (c : base_client) (key : std_string) (count : Z) (value : std_string)
  : io (gmap Z socket_state) Z :=
  socket <- lift (get_socket c key) ;;
  send_ socket
    (makecmd_to_string (makecmd_new (str "LREM") << key << count << value)) ;;;
  on socket (recv_int_reply_ socket).

Definition failed_to_remove : exn :=
  value_error (str "failed to remove exactly N elements from list").

Definition lrem_exact (c : base_client) (key : std_string) (count : Z)
    (value : std_string) : io (gmap Z socket_state) unit :=
  removed <- lrem c key count value ;;
  if bool_decide (removed ≠ count) then throw failed_to_remove
  else ret tt.

Definition lpop {P : Platform} (c : base_client) (key : std_string)
  : io (gmap Z socket_state) std_string :=
  socket <- lift (get_socket c key) ;;
  send_ socket (makecmd_to_string (makecmd_new (str "LPOP") << key)) ;;;
  on socket (recv_bulk_reply_ socket).

Definition rpop {P : Platform} (c : base_client) (key : std_string)
  : io (gmap Z socket_state) std_string :=
  socket <- lift (get_socket c key) ;;
  send_ socket (makecmd_to_string (makecmd_new (str "RPOP") << key)) ;;;
  on socket (recv_bulk_reply_ socket).

Definition sadd (c : base_client) (key value : std_string)
  : io (gmap Z socket_state) unit :=
  socket <- lift (get_socket c key) ;;
  send_ socket (makecmd_to_string (makecmd_new (str "SADD") << key << value)) ;;;
  on socket (recv_int_ok_reply_ socket).

Definition srem (c : base_client) (key value : std_string)
  : io (gmap Z socket_state) unit :=
  socket <- lift (get_socket c key) ;;
  send_ socket (makecmd_to_string (makecmd_new (str "SREM") << key << value)) ;;;
  on socket (recv_int_ok_reply_ socket).

Definition spop {P : Platform} (c : base_client) (key : std_string)
  : io (gmap Z socket_state) std_string :=
  socket <- lift (get_socket c key) ;;
  send_ socket (makecmd_to_string (makecmd_new (str "SPOP") << key)) ;;;
  on socket (recv_bulk_reply_ socket).

Definition scard (c : base_client) (key : std_string) : io (gmap Z socket_state) Z :=
  socket <- lift (get_socket c key) ;;
  send_ socket (makecmd_to_string (makecmd_new (str "SCARD") << key)) ;;;
  on socket (recv_int_reply_ socket).

Definition sismember (c : base_client) (key value : std_string)
  : io (gmap Z socket_state) bool :=
  socket <- lift (get_socket c key) ;;
  send_ socket (makecmd_to_string (makecmd_new (str "SISMEMBER") << key << value)) ;;;
  n <- on socket (recv_int_reply_ socket) ;;
  ret (n =? 1).

(** [string_type srandmember(const string_type & key)]; the command name
    in the source is [SPOP]. *)
Definition srandmember {P : Platform} (c : base_client) (key : std_string)
  : io (gmap Z socket_state) std_string :=
  socket <- lift (get_socket c key) ;;
  send_ socket (makecmd_to_string (makecmd_new (str "SPOP") << key)) ;;;
  on socket (recv_bulk_reply_ socket).

(** [string_type blpop(const string_type & key, int_type timeout)] and
    [string_type brpop(const string_type & key, int_type timeout)] differ in
    the command name only. *)
Definition blocking_pop_key {P : Platform} (name : string) (c : base_client) (key : std_string)
    (timeout : Z) : io (gmap Z socket_state) std_string :=
  socket <- lift (get_socket c key) ;;
  send_ socket (makecmd_to_string (makecmd_new (str name) << key << timeout)) ;;;
  reply <- on socket (recv_multi_bulk_reply_ socket []) ;;
  match reply.2 with
  | [sv0; sv1] => if bool_decide (key = sv0) then ret sv1 else abort
  | _ => ret missing_value
  end.

Definition blpop_key {P : Platform} := blocking_pop_key "BLPOP".
Definition brpop_key {P : Platform} := blocking_pop_key "BRPOP".

(** The loop [for (i = 0; i < s.size(); i += 2)
    out.push_back(make_pair(s[i], s[i+1]))] of [hgetall] from index [i] on;
    it runs at most [s.size()] rounds, which [fuel] counts down. *)
Fixpoint hgetall_loop (fuel i : nat) (s : list std_string)
    (out : list (std_string * std_string))
  : outcome (list (std_string * std_string)) :=
  if bool_decide (i < length s)%nat then
    match fuel with
    | O => Undefined
    | S fuel' =>
        match at_ s i, at_ s (i + 1) with
        | Ok field, Ok value => hgetall_loop fuel' (i + 2) s (out ++ [(field, value)])
        | _, _ => Undefined
        end
    end
  else Ok out.

(** [void hgetall(const string_type & key, string_pair_vector & out)]: the
    content of [out] on return. *)
Definition hgetall {P : Platform} (c : base_client) (key : std_string)
    (out : list (std_string * std_string))
  : io (gmap Z socket_state) (list (std_string * std_string)) :=
  socket <- lift (get_socket c key) ;;
  send_ socket (makecmd_to_string (makecmd_new (str "HGETALL") << key)) ;;;
  reply <- on socket (recv_multi_bulk_reply_ socket []) ;;
  let s := reply.2 in
  lift (hgetall_loop (length s) 0 s out).

(** ** [mget]

    [struct connection_keys]: the command for a connection and, for each
    of its keys, the position of the key in the vector passed to [mget]. *)
Record connection_keys : Type := ConnectionKeys {
  cmd : option makecmd;
  indices : list nat
}.

(** [socket_commands[socket]] on a [std::map<int, connection_keys>], with
    [update] applied to the entry, which is created empty when there is
    none; the entries are in increasing order of the descriptor. *)
Fixpoint upsert_keys (socket : Z) (update : connection_keys → connection_keys)
    (socket_commands : list (Z * connection_keys)) : list (Z * connection_keys) :=
  match socket_commands with
  | [] => [(socket, update (ConnectionKeys None []))]
  | (fd, con_keys) :: rest =>
      if socket <? fd then (socket, update (ConnectionKeys None [])) :: socket_commands
      else if socket =? fd then (fd, update con_keys) :: rest
      else (fd, con_keys) :: upsert_keys socket update rest
  end.

(** [if(!cmd) cmd = makecmd("MGET"); *cmd << keys[i];
    con_keys.indices.push_back(i);] *)
Definition add_key (key : std_string) (i : nat) (con_keys : connection_keys)
  : connection_keys :=
  ConnectionKeys (Some (default (makecmd_new (str "MGET")) (cmd con_keys) << key))
                 (indices con_keys ++ [i]).

(** [for (i = 0; i < cur_out.size(); i++) out[con_keys.indices[i]] = cur_out[i]],
    over the values [rounds] of [i]. *)
Fixpoint write_back (rounds : list nat) (indices : list nat)
    (cur_out out : list std_string) : outcome (list std_string) :=
  match rounds with
  | [] => Ok out
  | i :: rounds' =>
      match at_ cur_out i, at_ indices i with
      | Ok value, Ok position =>
          if bool_decide (position < length out)%nat
          then write_back rounds' indices cur_out (<[position := value]> out)
          else Undefined
      | _, _ => Undefined
      end
  end.

(** [void mget(const string_vector & keys, string_vector & out)]: the
    content of [out] on return. Dereferencing an empty [cmd] is undefined. *)
Definition mget {P : Platform} (c : base_client) (keys : list std_string)
  : io (gmap Z socket_state) (list std_string) :=
  let out := replicate (length keys) [] in
  socket_commands <-
    foldM (fun socket_commands i =>
             key <- lift (at_ keys i) ;;
             socket <- lift (get_socket c key) ;;
             ret (upsert_keys socket (add_key key i) socket_commands))
          (seq 0 (length keys)) [] ;;
  for_each socket_commands
    (fun sp => match cmd sp.2 with
               | Some m => send_ sp.1 (makecmd_to_string m)
               | None => undefined
               end) ;;;
  foldM (fun out sp =>
           reply <- on sp.1 (recv_multi_bulk_reply_ sp.1 []) ;;
           let cur_out := reply.2 in
           lift (write_back (seq 0 (length cur_out)) (indices sp.2) cur_out out))
        socket_commands out.

(** What the first loop of [mget] builds for keys that are all routed to
    the descriptor [fd]: one entry, with the command for all keys and the
    positions in order. *)
Definition gathered (fd : Z) (keys : list std_string) : list (Z * connection_keys) :=
  match keys with
  | [] => []
  | _ :: _ =>
      [(fd, ConnectionKeys (Some (command (str "MGET") keys)) (seq 0 (length keys)))]
  end.

(** The operations above, with their arguments. *)
Inductive key_op : Type :=
| op_set (key value : std_string)
| op_get (key : std_string)
| op_getset (key value : std_string)
| op_setnx (key value : std_string)
| op_setex (key value : std_string) (secs : nat)
| op_incr (key : std_string)
| op_incrby (key : std_string) (by_ : Z)
| op_decr (key : std_string)
| op_decrby (key : std_string) (by_ : Z)
| op_exists (key : std_string)
| op_del (key : std_string)
| op_llen (key : std_string)
| op_lrange (key : std_string) (start end_ : Z) (out : list std_string)
| op_get_list (key : std_string) (out : list std_string)
| op_lrem (key : std_string) (count : Z) (value : std_string)
| op_lrem_exact (key : std_string) (count : Z) (value : std_string)
| op_lpop (key : std_string)
| op_rpop (key : std_string)
| op_sadd (key value : std_string)
| op_srem (key value : std_string)
| op_spop (key : std_string)
| op_scard (key : std_string)
| op_sismember (key value : std_string)
| op_srandmember (key : std_string)
| op_blpop_key (key : std_string) (timeout : Z)
| op_brpop_key (key : std_string) (timeout : Z)
| op_hgetall (key : std_string) (out : list (std_string * std_string)).

(** Calling the operation, its result dropped. *)
Definition run_key_op {P : Platform} (c : base_client) (o : key_op)
  : io (gmap Z socket_state) unit :=
  match o with
  | op_set key value => set c key value
  | op_get key => void (get c key)
  | op_getset key value => void (getset c key value)
  | op_setnx key value => void (setnx c key value)
  | op_setex key value secs => setex c key value secs
  | op_incr key => void (incr c key)
  | op_incrby key by_ => void (incrby c key by_)
  | op_decr key => void (decr c key)
  | op_decrby key by_ => void (decrby c key by_)
  | op_exists key => void (exists_ c key)
  | op_del key => del c key
  | op_llen key => void (llen c key)
  | op_lrange key start end_ out => void (lrange c key start end_ out)
  | op_get_list key out => void (get_list c key out)
  | op_lrem key count value => void (lrem c key count value)
  | op_lrem_exact key count value => lrem_exact c key count value
  | op_lpop key => void (lpop c key)
  | op_rpop key => void (rpop c key)
  | op_sadd key value => sadd c key value
  | op_srem key value => srem c key value
  | op_spop key => void (spop c key)
  | op_scard key => void (scard c key)
  | op_sismember key value => void (sismember c key value)
  | op_srandmember key => void (srandmember c key)
  | op_blpop_key key timeout => void (blpop_key c key timeout)
  | op_brpop_key key timeout => void (brpop_key c key timeout)
  | op_hgetall key out => void (hgetall c key out)
  end.

(** The key the operation is routed by. *)
Definition key_op_key (o : key_op) : std_string :=
  match o with
  | op_set key _ | op_get key | op_getset key _ | op_setnx key _ | op_setex key _ _
  | op_incr key | op_incrby key _ | op_decr key | op_decrby key _ | op_exists key
  | op_del key | op_llen key | op_lrange key _ _ _ | op_get_list key _
  | op_lrem key _ _ | op_lrem_exact key _ _ | op_lpop key | op_rpop key
  | op_sadd key _ | op_srem key _ | op_spop key | op_scard key | op_sismember key _
  | op_srandmember key | op_blpop_key key _ | op_brpop_key key _
  | op_hgetall key _ => key
  end.

(** The words of the request: the command name, then the arguments. *)
Definition key_op_words (o : key_op) : list std_string :=
  match o with
  | op_set key value => [str "SET"; key; value]
  | op_get key => [str "GET"; key]
  | op_getset key value => [str "GETSET"; key; value]
  | op_setnx key value => [str "SETNX"; key; value]
  | op_setex key value secs => [str "SETEX"; key; dec_of_size secs; value]
  | op_incr key => [str "INCR"; key]
  | op_incrby key by_ => [str "INCRBY"; key; dec_of_long by_]
  | op_decr key => [str "DECR"; key]
  | op_decrby key by_ => [str "DECRBY"; key; dec_of_long by_]
  | op_exists key => [str "EXISTS"; key]
  | op_del key => [str "DEL"; key]
  | op_llen key => [str "LLEN"; key]
  | op_lrange key start end_ _ =>
      [str "LRANGE"; key; dec_of_long start; dec_of_long end_]
  | op_get_list key _ => [str "LRANGE"; key; str "0"; str "-1"]
  | op_lrem key count value | op_lrem_exact key count value =>
      [str "LREM"; key; dec_of_long count; value]
  | op_lpop key => [str "LPOP"; key]
  | op_rpop key => [str "RPOP"; key]
  | op_sadd key value => [str "SADD"; key; value]
  | op_srem key value => [str "SREM"; key; value]
  | op_spop key | op_srandmember key => [str "SPOP"; key]
  | op_scard key => [str "SCARD"; key]
  | op_sismember key value => [str "SISMEMBER"; key; value]
  | op_blpop_key key timeout => [str "BLPOP"; key; dec_of_long timeout]
  | op_brpop_key key timeout => [str "BRPOP"; key; dec_of_long timeout]
  | op_hgetall key _ => [str "HGETALL"; key]
  end.

(** ** Operations on every connection *)

(** [val += ...] on an [int_type]: a sum outside the range of [long] is a
    signed overflow. *)
Definition add_long (a b : Z) : outcome Z :=
  if bool_decide (LONG_MIN ≤ a + b ≤ LONG_MAX) then Ok (a + b) else Undefined.

(** [int_type dbsize()] *)
Definition dbsize (c : base_client) : io (gmap Z socket_state) Z :=
  for_each (connections_ c)
    (fun con => send_ (socket con) (makecmd_to_string (makecmd_new (str "DBSIZE")))) ;;;
  foldM (fun val con =>
           reply <- on (socket con) (recv_int_reply_ (socket con)) ;;
           lift (add_long val reply))
        (connections_ c) 0.

(** [int_type keys(const string_type & pattern, string_vector & out)]: the
    return value and the content of [out] on return. *)
Definition keys {P : Platform} (c : base_client) (pattern : std_string) (out : list std_string)
  : io (gmap Z socket_state) (Z * list std_string) :=
  for_each (connections_ c)
    (fun con => send_ (socket con)
                  (makecmd_to_string (makecmd_new (str "KEYS") << pattern))) ;;;
  foldM (fun acc con =>
           reply <- on (socket con) (recv_multi_bulk_reply_ (socket con) acc.2) ;;
           res <- lift (add_long acc.1 reply.1) ;;
           ret (res, reply.2))
        (connections_ c) (0, out).

(** [try { body } catch (connection_error & e) { }] *)
Definition try_catch_connection_error {S} (body : io S unit) : io S unit :=
  fun s =>
    match body s with
    | (Throw (connection_error _), s') => (Ok tt, s')
    | result => result
    end.

(** [void shutdown(const connection_data & con)] *)
Definition shutdown_con (con : connection_data) : io (gmap Z socket_state) unit :=
  send_ (socket con) (makecmd_to_string (makecmd_new (str "SHUTDOWN"))) ;;;
  try_catch_connection_error (on (socket con) (recv_ok_reply_ (socket con))).

(** [void shutdown()] *)
Definition shutdown (c : base_client) : io (gmap Z socket_state) unit :=
  for_each (connections_ c) shutdown_con.

(** ** [info] *)

Inductive server_role : Type := role_master | role_slave.

Record server_info : Type := ServerInfo {
  version : std_string;
  bgsave_in_progress : bool;
  connected_clients : N;
  connected_slaves : N;
  used_memory : N;
  changes_since_last_save : N;
  last_save_time : N;
  total_connections_received : N;
  total_commands_processed : N;
  uptime_in_seconds : N;
  uptime_in_days : N;
  role : server_role;
  arch_bits : N;
  multiplexing_api : std_string;
  param_map : gmap std_string std_string
}.

Definition unexpected_line_format : exn :=
  protocol_error (str "unexpected line format for info").

Section info.
(** [boost::lexical_cast<unsigned long>] and
    [boost::lexical_cast<unsigned short>] of the Boost library: what they
    accept besides plain decimal numerals depends on its version, so they
    are parameters here. *)
Variable lexical_cast_unsigned_long : std_string → outcome N.
Variable lexical_cast_unsigned_short : std_string → outcome N.

(** The assignments to [out] for one line [key:val]. *)
Definition info_field (key val : std_string) (o : server_info) : outcome server_info :=
  let o := ServerInfo (version o) (bgsave_in_progress o) (connected_clients o)
             (connected_slaves o) (used_memory o) (changes_since_last_save o)
             (last_save_time o) (total_connections_received o)
             (total_commands_processed o) (uptime_in_seconds o) (uptime_in_days o)
             (role o) (arch_bits o) (multiplexing_api o)
             (<[key := val]> (param_map o)) in
  let number := lexical_cast_unsigned_long val in
  if bool_decide (key = str "redis_version") then
    Ok (ServerInfo val (bgsave_in_progress o) (connected_clients o)
          (connected_slaves o) (used_memory o) (changes_since_last_save o)
          (last_save_time o) (total_connections_received o)
          (total_commands_processed o) (uptime_in_seconds o) (uptime_in_days o)
          (role o) (arch_bits o) (multiplexing_api o) (param_map o))
  else if bool_decide (key = str "bgsave_in_progress") then
    outcome_map (fun v =>
      ServerInfo (version o) (v =? 1)%N (connected_clients o)
        (connected_slaves o) (used_memory o) (changes_since_last_save o)
        (last_save_time o) (total_connections_received o)
        (total_commands_processed o) (uptime_in_seconds o) (uptime_in_days o)
        (role o) (arch_bits o) (multiplexing_api o) (param_map o)) number
  else if bool_decide (key = str "connected_clients") then
    outcome_map (fun v =>
      ServerInfo (version o) (bgsave_in_progress o) v
        (connected_slaves o) (used_memory o) (changes_since_last_save o)
        (last_save_time o) (total_connections_received o)
        (total_commands_processed o) (uptime_in_seconds o) (uptime_in_days o)
        (role o) (arch_bits o) (multiplexing_api o) (param_map o)) number
  else if bool_decide (key = str "connected_slaves") then
    outcome_map (fun v =>
      ServerInfo (version o) (bgsave_in_progress o) (connected_clients o)
        v (used_memory o) (changes_since_last_save o)
        (last_save_time o) (total_connections_received o)
        (total_commands_processed o) (uptime_in_seconds o) (uptime_in_days o)
        (role o) (arch_bits o) (multiplexing_api o) (param_map o)) number
  else if bool_decide (key = str "used_memory") then
    outcome_map (fun v =>
      ServerInfo (version o) (bgsave_in_progress o) (connected_clients o)
        (connected_slaves o) v (changes_since_last_save o)
        (last_save_time o) (total_connections_received o)
        (total_commands_processed o) (uptime_in_seconds o) (uptime_in_days o)
        (role o) (arch_bits o) (multiplexing_api o) (param_map o)) number
  else if bool_decide (key = str "changes_since_last_save") then
    outcome_map (fun v =>
      ServerInfo (version o) (bgsave_in_progress o) (connected_clients o)
        (connected_slaves o) (used_memory o) v
        (last_save_time o) (total_connections_received o)
        (total_commands_processed o) (uptime_in_seconds o) (uptime_in_days o)
        (role o) (arch_bits o) (multiplexing_api o) (param_map o)) number
  else if bool_decide (key = str "last_save_time") then
    outcome_map (fun v =>
      ServerInfo (version o) (bgsave_in_progress o) (connected_clients o)
        (connected_slaves o) (used_memory o) (changes_since_last_save o)
        v (total_connections_received o)
        (total_commands_processed o) (uptime_in_seconds o) (uptime_in_days o)
        (role o) (arch_bits o) (multiplexing_api o) (param_map o)) number
  else if bool_decide (key = str "total_connections_received") then
    outcome_map (fun v =>
      ServerInfo (version o) (bgsave_in_progress o) (connected_clients o)
        (connected_slaves o) (used_memory o) (changes_since_last_save o)
        (last_save_time o) v
        (total_commands_processed o) (uptime_in_seconds o) (uptime_in_days o)
        (role o) (arch_bits o) (multiplexing_api o) (param_map o)) number
  else if bool_decide (key = str "total_commands_processed") then
    outcome_map (fun v =>
      ServerInfo (version o) (bgsave_in_progress o) (connected_clients o)
        (connected_slaves o) (used_memory o) (changes_since_last_save o)
        (last_save_time o) (total_connections_received o)
        v (uptime_in_seconds o) (uptime_in_days o)
        (role o) (arch_bits o) (multiplexing_api o) (param_map o)) number
  else if bool_decide (key = str "uptime_in_seconds") then
    outcome_map (fun v =>
      ServerInfo (version o) (bgsave_in_progress o) (connected_clients o)
        (connected_slaves o) (used_memory o) (changes_since_last_save o)
        (last_save_time o) (total_connections_received o)
        (total_commands_processed o) v (uptime_in_days o)
        (role o) (arch_bits o) (multiplexing_api o) (param_map o)) number
  else if bool_decide (key = str "uptime_in_days") then
    outcome_map (fun v =>
      ServerInfo (version o) (bgsave_in_progress o) (connected_clients o)
        (connected_slaves o) (used_memory o) (changes_since_last_save o)
        (last_save_time o) (total_connections_received o)
        (total_commands_processed o) (uptime_in_seconds o) v
        (role o) (arch_bits o) (multiplexing_api o) (param_map o)) number
  else if bool_decide (key = str "role") then
    Ok (ServerInfo (version o) (bgsave_in_progress o) (connected_clients o)
          (connected_slaves o) (used_memory o) (changes_since_last_save o)
          (last_save_time o) (total_connections_received o)
          (total_commands_processed o) (uptime_in_seconds o) (uptime_in_days o)
          (if bool_decide (val = str "master") then role_master else role_slave)
          (arch_bits o) (multiplexing_api o) (param_map o))
  else if bool_decide (key = str "arch_bits") then
    outcome_map (fun v =>
      ServerInfo (version o) (bgsave_in_progress o) (connected_clients o)
        (connected_slaves o) (used_memory o) (changes_since_last_save o)
        (last_save_time o) (total_connections_received o)
        (total_commands_processed o) (uptime_in_seconds o) (uptime_in_days o)
        (role o) v (multiplexing_api o) (param_map o))
      (lexical_cast_unsigned_short val)
  else if bool_decide (key = str "multiplexing_api") then
    Ok (ServerInfo (version o) (bgsave_in_progress o) (connected_clients o)
          (connected_slaves o) (used_memory o) (changes_since_last_save o)
          (last_save_time o) (total_connections_received o)
          (total_commands_processed o) (uptime_in_seconds o) (uptime_in_days o)
          (role o) (arch_bits o) val (param_map o))
  else Ok o.

(** The body of the loop over the lines. *)
Definition info_line (o : server_info) (line : std_string) : outcome server_info :=
  let line_parts := (split line ":"%char []).1 in
  if bool_decide (length line_parts ≠ 2%nat) then Throw unexpected_line_format
  else
    match at_ line_parts 0, at_ line_parts 1 with
    | Ok key, Ok val => info_field key val o
    | _, _ => Undefined
    end.

Fixpoint info_lines (lines : list std_string) (o : server_info) : outcome server_info :=
  match lines with
  | [] => Ok o
  | line :: lines' =>
      match info_line o line with
      | Ok o' => info_lines lines' o'
      | failure => failure
      end
  end.

(** [void info(server_info & out)]: the content of [out] on return. *)
Definition info {P : Platform} (c : base_client) (out : server_info)
  : io (gmap Z socket_state) server_info :=
  if bool_decide (1 < length (connections_ c))%nat
  then throw not_possible_in_cluster_mode
  else
    socket <- lift (connection_socket c 0) ;;
    send_ socket (makecmd_to_string (makecmd_new (str "INFO"))) ;;;
    response <- on socket (recv_bulk_reply_ socket) ;;
    if bool_decide (response = []) then throw (protocol_error (str "empty"))
    else
      let lines := split_lines response [] in
      if bool_decide (lines = [])
      then throw (protocol_error (str "empty line for info"))
      else lift (info_lines lines out).
End info.

(** ** [shared_int] *)

Definition not_of_integer_type : exn :=
  value_error (str "value is not of integer type").

(** [static client::int_type to_int_type(const client::string_type & val)] *)
Definition to_int_type (val : std_string) : outcome Z :=
  match lexical_cast_long val with
  | Throw bad_lexical_cast => Throw not_of_integer_type
  | result => result
  end.

(** [operator client::int_type() const] of the shared integer stored under
    [key]. *)
Definition shared_int_value {P : Platform} (c : base_client) (key : std_string)
  : io (gmap Z socket_state) Z :=
  val <- get c key ;;
  lift (to_int_type val).

(** ** Replies as the server frames them *)

Definition int_reply_bytes (z : Z) : std_string :=
  [REDIS_PREFIX_INT_REPLY] ++ dec_of_long z ++ REDIS_LBR.

Definition multi_bulk_reply_bytes (items : list (option std_string)) : std_string :=
  [REDIS_PREFIX_MULTI_BULK_REPLY] ++ dec_of_long (Z.of_nat (length items))
    ++ REDIS_LBR ++ concat (bulk_reply_bytes <$> items).

(** The connection [fd] of the network is open for writing, with [input]
    as the bytes its peer sends from now on. *)
Definition awaiting (n : gmap Z socket_state) (fd : Z) (input : std_string) : Prop :=
  ∃ s, n !! fd = Some s ∧ sk_wr_err s = None ∧ sk_in s = input.

(** The items of the reply to [HGETALL] for a hash with these fields and
    values: field, value, field, value, and so on. *)
Definition hash_items (pairs : list (std_string * std_string)) : list std_string :=
  concat ((fun pair => [pair.1; pair.2]) <$> pairs).

(** The connection after [msg] has been written to it. *)
Definition written (s : socket_state) (msg : std_string) : socket_state :=
  Sock (sk_in s) (sk_avail s) (sk_arrivals s) (sk_out s ++ msg) (sk_wr_err s).

(** Between the networks [n] and [n'], the connection [fd] has got [msg]
    appended to its output and has [rest] left to read. *)
Definition served (fd : Z) (msg rest : std_string)
    (n n' : gmap Z socket_state) : Prop :=
  ∃ s s', n !! fd = Some s ∧ n' !! fd = Some s'
          ∧ sk_out s' = sk_out s ++ msg ∧ sk_wr_err s' = sk_wr_err s
          ∧ sk_in s' = rest.

(** What a call that sent [msg] on [fd] and consumed the reply did to the
    network: [fd] is served, and no other descriptor is touched. *)
Definition exchanged (fd : Z) (msg rest : std_string)
    (n n' : gmap Z socket_state) : Prop :=
  (∀ fd', fd' ≠ fd → n' !! fd' = n !! fd') ∧ served fd msg rest n n'.

(** The network of [two_shards] with the answers to [DBSIZE] waiting: 7
    keys on descriptor 3 and 35 on descriptor 4. *)
Definition two_shards_counts (fd : Z) : Z := if fd =? 3 then 7 else 35.

Definition two_shards_counting : gmap Z socket_state :=
  <[3 := Sock (int_reply_bytes 7) 0 [] [] None]>
    (<[4 := Sock (int_reply_bytes 35) 0 [] [] None]> ∅).


(** * Properties *)

(** ** The command encoder *)

Section encoder.
Implicit Types (m : makecmd) (words args : list std_string).

Lemma lines_insert_all m args :
  lines_ (foldl (fun m a => m << a) m args) = lines_ m ++ args.
Proof.
  revert m. induction args as [|a args IH]; intros m; simpl.
  - by rewrite app_nil_r.
  - rewrite IH. simpl. by rewrite <- app_assoc.
Qed.

Lemma lines_command cmd_name args :
  lines_ (command cmd_name args) = cmd_name :: args.
Proof. unfold command. by rewrite lines_insert_all. Qed.

(** The loop over the indices emits the frames of the words in order. *)
Lemma frames_loop (done_ words : list std_string) (oss : std_string) :
  foldl (fun oss i =>
           let param := nth i (done_ ++ words) [] in
           let oss := oss ++ [REDIS_PREFIX_SINGLE_BULK_REPLY]
                          ++ dec_of_size (length param) ++ REDIS_LBR in
           oss ++ param ++ REDIS_LBR)
        oss (seq (length done_) (length words))
  = oss ++ concat (bulk_frame <$> words).
Proof.
  revert done_ oss. induction words as [|w words IH]; intros done_ oss.
  - simpl. by rewrite app_nil_r.
  - cbn [length seq foldl].
    replace (done_ ++ w :: words) with ((done_ ++ [w]) ++ words)
      by (by rewrite <- app_assoc).
    replace (S (length done_)) with (length (done_ ++ [w]))
      by (rewrite length_app; simpl; lia).
    rewrite IH.
    replace (nth (length done_) ((done_ ++ [w]) ++ words) []) with w.
    + cbn [fmap list_fmap concat]. unfold bulk_frame.
      by rewrite <- !app_assoc.
    + rewrite <- app_assoc. simpl.
      rewrite app_nth2 by lia. by rewrite Nat.sub_diag.
Qed.

Lemma makecmd_to_string_frames m :
  makecmd_to_string m = request_bytes (lines_ m).
Proof.
  unfold makecmd_to_string, request_bytes.
  rewrite (frames_loop [] (lines_ m)). by rewrite <- !app_assoc.
Qed.
End encoder.

(** C1. For every command name and ordered argument list the encoder emits
    the argument count (the command name counted as the first argument) as
    [*<argc>\r\n] and then, word by word in order, [$<len>\r\n<bytes>\r\n]
    with [len] the exact number of bytes of the word. [SET foo bar] is
    encoded as [*3\r\n$3\r\nSET\r\n$3\r\nfoo\r\n$3\r\nbar\r\n], and a word
    holding a carriage return and a line feed is copied unchanged, framed
    by its length. *)
Theorem makecmd_wire_format :
  (∀ (cmd_name : std_string) (args : list std_string),
     makecmd_to_string (command cmd_name args)
     = [REDIS_PREFIX_MULTI_BULK_REPLY] ++ dec_of_size (S (length args)) ++ REDIS_LBR
         ++ concat ((fun arg => [REDIS_PREFIX_SINGLE_BULK_REPLY]
                                  ++ dec_of_size (length arg) ++ REDIS_LBR
                                  ++ arg ++ REDIS_LBR) <$> cmd_name :: args))
  ∧ makecmd_to_string (makecmd_new (str "SET") << str "foo" << str "bar")
    = str "*3" ++ REDIS_LBR ++ str "$3" ++ REDIS_LBR ++ str "SET" ++ REDIS_LBR
        ++ str "$3" ++ REDIS_LBR ++ str "foo" ++ REDIS_LBR
        ++ str "$3" ++ REDIS_LBR ++ str "bar" ++ REDIS_LBR
  ∧ makecmd_to_string (makecmd_new (str "SET") << str "k" << [CR; LF; NUL; LF])
    = str "*3" ++ REDIS_LBR ++ str "$3" ++ REDIS_LBR ++ str "SET" ++ REDIS_LBR
        ++ str "$1" ++ REDIS_LBR ++ str "k" ++ REDIS_LBR
        ++ str "$4" ++ REDIS_LBR ++ [CR; LF; NUL; LF] ++ REDIS_LBR.
Proof.
  split; [|split; reflexivity].
  intros cmd_name args.
  rewrite makecmd_to_string_frames, lines_command. reflexivity.
Qed.

(** ** Strings *)

Section strings.
Implicit Types (s t ws : std_string) (c : ascii).

Lemma memchr_None s c : memchr s c = None ↔ c ∉ s.
Proof.
  induction s as [|b s IH]; simpl.
  - split; [intros _; apply not_elem_of_nil | done].
  - case_bool_decide as Hb.
    + subst b. split; [done | intros []; left].
    + rewrite fmap_None, IH, not_elem_of_cons.
      split; [intros ?; split; [congruence | done] | by intros [_ ?]].
Qed.

Lemma memchr_app_found s t c :
  c ∉ s → memchr (s ++ c :: t) c = Some (length s).
Proof.
  induction s as [|b s IH]; simpl; intros Hs.
  - by rewrite bool_decide_true.
  - apply not_elem_of_cons in Hs as [Hb Hs].
    rewrite bool_decide_false by done. by rewrite IH.
Qed.

Lemma find_last_not_of_succ_le s ws : (find_last_not_of_succ s ws ≤ length s)%nat.
Proof.
  induction s as [|c s IH]; simpl; [lia|].
  destruct (find_last_not_of_succ s ws); [case_bool_decide|]; lia.
Qed.

(** Stripping is blind to characters of [ws] at the end. *)
Lemma find_last_not_of_succ_app_ws s t ws :
  Forall (.∈ ws) t → find_last_not_of_succ (s ++ t) ws = find_last_not_of_succ s ws.
Proof.
  intros Ht. induction s as [|c s IH]; simpl.
  - induction Ht as [|c t Hc Ht IH]; simpl; [done|].
    rewrite IH. by rewrite bool_decide_true.
  - by rewrite IH.
Qed.

Lemma rtrim_app_ws s t ws : Forall (.∈ ws) t → rtrim (s ++ t) ws = rtrim s ws.
Proof.
  intros Ht. unfold rtrim. rewrite find_last_not_of_succ_app_ws by done.
  apply take_app_le, find_last_not_of_succ_le.
Qed.

Lemma find_last_not_of_succ_snoc s c ws :
  c ∉ ws → find_last_not_of_succ (s ++ [c]) ws = S (length s).
Proof.
  intros Hc. induction s as [|b s IH]; simpl.
  - by rewrite bool_decide_false.
  - by rewrite IH.
Qed.

(** A string that ends outside [ws] is left as it is. *)
Lemma rtrim_snoc s c ws : c ∉ ws → rtrim (s ++ [c]) ws = s ++ [c].
Proof.
  intros Hc. unfold rtrim. rewrite find_last_not_of_succ_snoc by done.
  apply take_ge. rewrite length_app. simpl. lia.
Qed.

(** What [rtrim] computes: the string is the result followed by
    characters of [ws] only, and the result does not end in [ws]. *)
Lemma rtrim_spec s ws :
  ∃ t, s = rtrim s ws ++ t ∧ Forall (.∈ ws) t
       ∧ ∀ r c, rtrim s ws = r ++ [c] → c ∉ ws.
Proof.
  induction s as [|b s (t & Hs & Ht & Hlast)] using rev_ind.
  - exists []. repeat split; [done|]. intros [|] ?; discriminate.
  - destruct (decide (b ∈ ws)) as [Hb|Hb].
    + rewrite rtrim_app_ws by (by constructor).
      exists (t ++ [b]). split; [|split; [|done]].
      * rewrite app_assoc. by rewrite <- Hs.
      * apply Forall_app. split; [done | by constructor].
    + rewrite rtrim_snoc by done. exists []. split; [by rewrite app_nil_r|].
      split; [done|]. intros r c Hr. by apply app_inj_tail in Hr as [_ <-].
Qed.

Lemma rtrim_nil ws : rtrim [] ws = [].
Proof. done. Qed.
End strings.

(** ** The transport *)

Section transport.
Implicit Types (s : socket_state) (len k : nat).

Lemma same_output_refl s : same_output s s.
Proof. done. Qed.

Lemma same_output_trans s1 s2 s3 :
  same_output s1 s2 → same_output s2 s3 → same_output s1 s3.
Proof. intros [] []. split; congruence. Qed.

(** Peeking hands out a prefix of the stream, empty only at its end,
    and leaves the stream where it is. *)
Lemma recv_peek len s :
  ∃ n s', recv len true s = (take n (sk_in s), s')
          ∧ sk_in s' = sk_in s
          ∧ (n ≤ sk_avail s')%nat ∧ (n ≤ length (sk_in s))%nat
          ∧ buffered s'
          ∧ ((0 < len)%nat → sk_in s ≠ [] → (0 < n)%nat)
          ∧ same_output s s'.
Proof.
  unfold recv, buffered. eexists _, _. split; [done|]. simpl.
  repeat split; try lia.
  intros Hlen Hin. destruct (sk_in s); [done|]. cbn [length]. lia.
Qed.

(** Bytes known to be in the receive buffer are consumed in one call. *)
Lemma recv_consume k s :
  (k ≤ sk_avail s)%nat → buffered s →
  ∃ s', recv k false s = (take k (sk_in s), s')
        ∧ sk_in s' = drop k (sk_in s)
        ∧ same_output s s'.
Proof.
  unfold recv, buffered. intros Hk Hs. eexists.
  split; [simpl; replace (k `min` _)%nat with k by lia; reflexivity | done].
Qed.

(** A plain [recv] hands out a prefix of the stream and removes it; the
    prefix is empty only if nothing was asked for or the stream is at
    its end. *)
Lemma recv_plain len s :
  ∃ n s', recv len false s = (take n (sk_in s), s')
          ∧ sk_in s' = drop n (sk_in s)
          ∧ (n ≤ len)%nat ∧ (n ≤ length (sk_in s))%nat
          ∧ ((0 < len)%nat → sk_in s ≠ [] → (0 < n)%nat)
          ∧ same_output s s'.
Proof.
  unfold recv. eexists _, _. split; [done|]. simpl.
  repeat split; try lia.
  intros Hlen Hin. destruct (sk_in s); [done|]. cbn [length]. lia.
Qed.
End transport.

(** ** The exact reader *)

Section exact_reader.
Context {P : Platform}.
Implicit Types (s : socket_state) (buffer : std_string).

Lemma read_n_loop_S fuel n buffer s :
  read_n_loop (S fuel) n buffer s
  = if bool_decide (length buffer ≠ n)
    then let '(received, s') := recv (n - length buffer) false s in
         if bool_decide (length received = 0%nat)
         then (Throw connection_was_closed, s')
         else read_n_loop fuel n (buffer ++ received) s'
    else (Ok buffer, s).
Proof. simpl. by case_bool_decide. Qed.

Lemma read_n_loop_spec fuel n buffer s :
  (length buffer ≤ n)%nat → (n - length buffer ≤ fuel)%nat →
  ∃ s', same_output s s' ∧
    if decide (n - length buffer ≤ length (sk_in s))%nat
    then read_n_loop fuel n buffer s
         = (Ok (buffer ++ take (n - length buffer) (sk_in s)), s')
         ∧ sk_in s' = drop (n - length buffer) (sk_in s)
    else read_n_loop fuel n buffer s = (Throw connection_was_closed, s')
         ∧ sk_in s' = [].
Proof.
  revert buffer s. induction fuel as [|fuel IH]; intros buffer s Hle Hfuel.
  - assert (length buffer = n) as Hn by lia.
    exists s. split; [done|]. rewrite decide_True by lia.
    simpl. rewrite bool_decide_false by (intros ?; done).
    replace (n - length buffer)%nat with 0%nat by lia.
    by rewrite take_0, drop_0, app_nil_r.
  - rewrite read_n_loop_S. case_bool_decide as Hn.
    + destruct (recv_plain (n - length buffer) s)
        as (k & s1 & Hrecv & Hin1 & Hk & Hk' & Hpos & Hout1).
      rewrite Hrecv. rewrite length_take_le by done.
      case_bool_decide as Hk0.
      * subst k. exists s1. split; [done|].
        assert (sk_in s = []) as Hnil.
        { destruct (sk_in s) eqn:E; [done|]. exfalso.
          assert (0 < 0)%nat; [apply Hpos; [lia | done] | lia]. }
        rewrite Hnil. simpl. rewrite decide_False by lia.
        split; [done|]. by rewrite Hin1, Hnil.
      * destruct (IH (buffer ++ take k (sk_in s)) s1) as (s' & Hout & Hres).
        { rewrite length_app, length_take_le by done. lia. }
        { rewrite length_app, length_take_le by done. lia. }
        exists s'. split; [by eapply same_output_trans|].
        rewrite length_app, length_take_le in Hres by done.
        rewrite Hin1, length_drop in Hres.
        destruct (decide (n - length buffer ≤ length (sk_in s))%nat).
        -- rewrite decide_True in Hres by lia.
           destruct Hres as [-> ->]. split.
           ++ f_equal. f_equal. rewrite <- app_assoc. f_equal.
              rewrite take_take_drop. f_equal. lia.
           ++ rewrite drop_drop. f_equal. lia.
        -- rewrite decide_False in Hres by lia. done.
    + exists s. split; [done|]. rewrite decide_True by lia.
      replace (n - length buffer)%nat with 0%nat by lia.
      by rewrite take_0, drop_0, app_nil_r.
Qed.

(** The checks in front of the loop of [read_n]. *)
Lemma read_n_allocated socket n s :
  0 ≤ n → n + 1 ≤ max_new →
  read_n socket n s = read_n_loop (Z.to_nat n) (Z.to_nat n) [] s.
Proof.
  intros Hn Hnew. pose proof max_new_bound. unfold read_n.
  destruct (Z.ltb_spec n 0) as [|_]; [lia|].
  destruct (Z.ltb_spec LONG_MAX (n + 1)) as [|_]; [lia|].
  by destruct (Z.ltb_spec max_new (n + 1)) as [|_]; [lia|].
Qed.

(** [read_n] returns exactly the next [n] bytes and removes them from
    the stream. *)
Lemma read_n_ok socket n s :
  0 ≤ n → n + 1 ≤ max_new → (Z.to_nat n ≤ length (sk_in s))%nat →
  ∃ s', read_n socket n s = (Ok (take (Z.to_nat n) (sk_in s)), s')
        ∧ sk_in s' = drop (Z.to_nat n) (sk_in s)
        ∧ same_output s s'.
Proof.
  intros Hn Hnew Hlen. rewrite read_n_allocated by done.
  destruct (read_n_loop_spec (Z.to_nat n) (Z.to_nat n) [] s) as (s' & Hout & Hres);
    [simpl; lia..|].
  simpl in Hres. rewrite Nat.sub_0_r in Hres.
  rewrite decide_True in Hres by done. destruct Hres as [Hres Hin]. eauto.
Qed.

(** It fails with a connection error when the peer closes before [n]
    bytes were delivered. *)
Lemma read_n_closed socket n s :
  0 ≤ n → n + 1 ≤ max_new → (length (sk_in s) < Z.to_nat n)%nat →
  ∃ s', read_n socket n s = (Throw connection_was_closed, s')
        ∧ sk_in s' = []
        ∧ same_output s s'.
Proof.
  intros Hn Hnew Hlen. rewrite read_n_allocated by done.
  destruct (read_n_loop_spec (Z.to_nat n) (Z.to_nat n) [] s) as (s' & Hout & Hres);
    [simpl; lia..|].
  simpl in Hres. rewrite Nat.sub_0_r in Hres.
  rewrite decide_False in Hres by lia. destruct Hres as [Hres Hin]. eauto.
Qed.

(** An array that the platform does not provide: [std::bad_alloc] leaves
    [read_n] before anything is read. *)
Lemma read_n_refused socket n s :
  0 ≤ n → n < LONG_MAX → max_new < n + 1 →
  read_n socket n s = (Throw bad_alloc, s).
Proof.
  intros Hn Hmax Hnew. unfold read_n.
  destruct (Z.ltb_spec n 0) as [|_]; [lia|].
  destruct (Z.ltb_spec LONG_MAX (n + 1)) as [|_]; [lia|].
  by destruct (Z.ltb_spec max_new (n + 1)) as [_|]; [|lia].
Qed.

(** The exact reader always returns: the rounds its loop is given are
    enough for every stream. *)
Lemma read_n_returns socket n s :
  0 ≤ n → n < LONG_MAX →
  ∃ s', (∃ data, read_n socket n s = (Ok data, s'))
        ∨ read_n socket n s = (Throw connection_was_closed, s')
        ∨ read_n socket n s = (Throw bad_alloc, s').
Proof.
  intros Hn Hmax. destruct (decide (n + 1 ≤ max_new)) as [Hnew|Hnew].
  - destruct (decide (Z.to_nat n ≤ length (sk_in s))%nat).
    + destruct (read_n_ok socket n s) as (s' & ? & _); eauto.
    + destruct (read_n_closed socket n s) as (s' & ? & _); [done | done | lia | eauto].
  - exists s. right. right. apply read_n_refused; lia.
Qed.

(** Whatever [read_n] returns has the length that was asked for. *)
Lemma read_n_length socket n s data s' :
  read_n socket n s = (Ok data, s') → Z.of_nat (length data) = n.
Proof.
  unfold read_n. destruct (Z.ltb_spec n 0) as [|Hn]; [done|].
  destruct (Z.ltb_spec LONG_MAX (n + 1)) as [|_]; [done|].
  destruct (Z.ltb_spec max_new (n + 1)) as [|_]; [done|].
  intros Hrun.
  destruct (read_n_loop_spec (Z.to_nat n) (Z.to_nat n) [] s) as (s1 & _ & Hres);
    [simpl; lia..|].
  simpl in Hres. rewrite Nat.sub_0_r in Hres.
  destruct (decide _) as [Hle|]; destruct Hres as [Hres _];
    rewrite Hres in Hrun; [|done].
  injection Hrun as <- _. rewrite length_take_le by done. lia.
Qed.
End exact_reader.

(** ** The line reader *)

Section line_reader.
Implicit Types (s : socket_state) (oss pre post : std_string).

Lemma LF_in_LBR : LF ∈ REDIS_LBR.
Proof. right. left. Qed.

Lemma take_past_middle {A} (l k : list A) x :
  take (S (length l)) (l ++ x :: k) = l ++ [x].
Proof. induction l as [|y l IH]; simpl; [by rewrite take_0 | by rewrite IH]. Qed.

Lemma drop_past_middle {A} (l k : list A) x :
  drop (S (length l)) (l ++ x :: k) = k.
Proof. induction l as [|y l IH]; simpl; [by rewrite drop_0 | by rewrite IH]. Qed.

(** Every stream either holds a terminator or does not. *)
Lemma split_at_LF (l : std_string) :
  LF ∉ l ∨ ∃ pre post, l = pre ++ LF :: post ∧ LF ∉ pre.
Proof.
  induction l as [|c l [Hno|(pre & post & -> & Hpre)]].
  - left. apply not_elem_of_nil.
  - destruct (decide (c = LF)) as [->|Hc].
    + right. exists [], l. split; [done | apply not_elem_of_nil].
    + left. by apply not_elem_of_cons.
  - destruct (decide (c = LF)) as [->|Hc].
    + right. exists [], (pre ++ LF :: post). split; [done | apply not_elem_of_nil].
    + right. exists (c :: pre), post. split; [done | by apply not_elem_of_cons].
Qed.
Lemma read_line_loop_S fuel max_size total found oss s :
  read_line_loop (S fuel) max_size total found oss s
  = if (total <? max_size) && negb found
    then let '(buffer, s1) := recv buffer_size true s in
         if bool_decide (length buffer = 0%nat)
         then (Throw connection_was_closed, s1)
         else
           let '(to_read, found') :=
             match memchr buffer LF with
             | Some eol => (S eol, true)
             | None => (length buffer, found)
             end in
           let '(_, s2) := recv to_read false s1 in
           read_line_loop fuel max_size total found' (oss ++ take to_read buffer) s2
    else (Ok (rtrim oss REDIS_LBR), s).
Proof. simpl. by destruct (_ && _). Qed.

Lemma read_line_loop_done fuel max_size total oss s :
  read_line_loop fuel max_size total true oss s = (Ok (rtrim oss REDIS_LBR), s).
Proof. destruct fuel; simpl; by rewrite andb_false_r. Qed.

(** With a terminator in the stream the loop returns everything up to the
    terminator, stripped, and leaves the stream right behind it. *)
Lemma read_line_loop_found fuel max_size oss pre post s :
  0 < max_size → LF ∉ pre → sk_in s = pre ++ LF :: post →
  (length pre < fuel)%nat →
  ∃ s', read_line_loop fuel max_size 0 false oss s
        = (Ok (rtrim (oss ++ pre ++ [LF]) REDIS_LBR), s')
        ∧ sk_in s' = post ∧ same_output s s'.
Proof.
  intros Hmax. revert oss pre s.
  induction fuel as [|fuel IH]; intros oss pre s Hpre Hin Hfuel; [lia|].
  rewrite read_line_loop_S.
  destruct (Z.ltb_spec 0 max_size) as [_|]; [|lia]. cbn [andb negb].
  destruct (recv_peek buffer_size s)
    as (n & s1 & -> & Hin1 & Havail & Hlen & Hbuf & Hpos & Hout1).
  assert (0 < n)%nat as Hn.
  { apply Hpos; [unfold buffer_size; lia|]. rewrite Hin. by destruct pre. }
  rewrite length_take_le by done.
  rewrite bool_decide_false by lia.
  destruct (decide (n ≤ length pre)%nat) as [Hshort|Hlong].
  - (* the window ends before the terminator *)
    rewrite Hin, take_app_le by done.
    assert (memchr (take n pre) LF = None) as ->.
    { apply memchr_None. intros Hel. apply Hpre.
      by eapply subseteq_take. }
    rewrite ?length_take_le by done.
    destruct (recv_consume n s1) as (s2 & -> & Hin2 & Hout2); [done..|].
    destruct (IH (oss ++ take n (take n pre)) (drop n pre) s2)
      as (s' & -> & Hin' & Hout').
    + intros Hel. apply Hpre. by eapply subseteq_drop.
    + rewrite Hin2, Hin1, Hin. by rewrite drop_app_le.
    + rewrite length_drop. lia.
    + exists s'. split; [|split; [done|]].
      * do 2 f_equal. rewrite take_take, Nat.min_id, <- !app_assoc.
        f_equal. by rewrite (app_assoc (take n pre)), take_drop.
      * eauto using same_output_trans.
  - (* the terminator lies in the window *)
    assert (take n (sk_in s) = pre ++ LF :: take (n - S (length pre)) post) as ->.
    { rewrite Hin, take_app, take_ge by lia. f_equal.
      replace (n - length pre)%nat with (S (n - S (length pre))) by lia. done. }
    rewrite memchr_app_found by done.
    destruct (recv_consume (S (length pre)) s1) as (s2 & -> & Hin2 & Hout2);
      [lia | done |].
    rewrite read_line_loop_done. exists s2. split; [|split].
    + do 4 f_equal. apply take_past_middle.
    + rewrite Hin2, Hin1, Hin. apply drop_past_middle.
    + eauto using same_output_trans.
Qed.

(** The line reader on a stream that holds a terminator. *)
Lemma read_line_found socket max_size pre post s :
  0 < socket → 0 < max_size → LF ∉ pre → sk_in s = pre ++ LF :: post →
  ∃ s', read_line socket max_size s = (Ok (rtrim pre REDIS_LBR), s')
        ∧ sk_in s' = post ∧ same_output s s'.
Proof.
  intros Hsock Hmax Hpre Hin. unfold read_line.
  destruct (Z.ltb_spec 0 socket) as [_|]; [|lia].
  destruct (Z.ltb_spec 0 max_size) as [_|]; [|lia]. cbn [negb].
  destruct (read_line_loop_found (S (length (sk_in s))) max_size [] pre post s)
    as (s' & Hrun & Hin' & Hout); [done..| |].
  { rewrite Hin, length_app. simpl. lia. }
  exists s'. split; [|done]. rewrite Hrun. do 2 f_equal.
  simpl. apply rtrim_app_ws. constructor; [apply LF_in_LBR | constructor].
Qed.

(** Without a terminator the loop reads to the end of the stream and
    fails when the peer closes. *)
Lemma read_line_loop_closed fuel max_size oss s :
  0 < max_size → LF ∉ sk_in s → (length (sk_in s) < fuel)%nat →
  ∃ s', read_line_loop fuel max_size 0 false oss s = (Throw connection_was_closed, s')
        ∧ sk_in s' = [] ∧ same_output s s'.
Proof.
  intros Hmax. revert oss s.
  induction fuel as [|fuel IH]; intros oss s Hno Hfuel; [lia|].
  rewrite read_line_loop_S.
  destruct (Z.ltb_spec 0 max_size) as [_|]; [|lia]. cbn [andb negb].
  destruct (recv_peek buffer_size s)
    as (n & s1 & -> & Hin1 & Havail & Hlen & Hbuf & Hpos & Hout1).
  rewrite length_take_le by done.
  case_bool_decide as Hn.
  - exists s1. split; [done|]. split; [|done]. rewrite Hin1.
    destruct (sk_in s) eqn:E; [done|]. exfalso.
    assert (0 < n)%nat; [apply Hpos; [unfold buffer_size; lia | done] | lia].
  - assert (memchr (take n (sk_in s)) LF = None) as ->.
    { apply memchr_None. intros Hel. apply Hno.
      by eapply subseteq_take. }
    rewrite ?length_take_le by done.
    destruct (recv_consume n s1) as (s2 & -> & Hin2 & Hout2); [done..|].
    destruct (IH (oss ++ take n (take n (sk_in s))) s2) as (s' & -> & Hin' & Hout').
    + rewrite Hin2, Hin1. intros Hel. apply Hno. by eapply subseteq_drop.
    + rewrite Hin2, Hin1, length_drop. lia.
    + exists s'. eauto using same_output_trans.
Qed.

Lemma read_line_closed socket max_size s :
  0 < socket → 0 < max_size → LF ∉ sk_in s →
  ∃ s', read_line socket max_size s = (Throw connection_was_closed, s')
        ∧ sk_in s' = [] ∧ same_output s s'.
Proof.
  intros Hsock Hmax Hno. unfold read_line.
  destruct (Z.ltb_spec 0 socket) as [_|]; [|lia].
  destruct (Z.ltb_spec 0 max_size) as [_|]; [|lia]. cbn [negb].
  apply read_line_loop_closed; [done..|lia].
Qed.

(** The line reader always returns: the rounds its loop is given are
    enough for every stream. *)
Lemma read_line_returns socket max_size s :
  0 < socket → 0 < max_size →
  ∃ s', (∃ line, read_line socket max_size s = (Ok line, s'))
        ∨ read_line socket max_size s = (Throw connection_was_closed, s').
Proof.
  intros Hsock Hmax.
  destruct (split_at_LF (sk_in s)) as [Hno|(pre & post & Hin & Hpre)].
  - destruct (read_line_closed socket max_size s) as (s' & ? & _); eauto.
  - destruct (read_line_found socket max_size pre post s) as (s' & ? & _); eauto.
Qed.

(** The byte budget has no influence on the loop. *)
Lemma read_line_loop_budget fuel max_size max_size' found oss s :
  0 < max_size → 0 < max_size' →
  read_line_loop fuel max_size 0 found oss s
  = read_line_loop fuel max_size' 0 found oss s.
Proof.
  intros Hmax Hmax'. revert found oss s.
  induction fuel as [|fuel IH]; intros found oss s.
  - simpl. destruct (Z.ltb_spec 0 max_size) as [_|]; [|lia].
    by destruct (Z.ltb_spec 0 max_size') as [_|]; [|lia].
  - rewrite !read_line_loop_S.
    destruct (Z.ltb_spec 0 max_size) as [_|]; [|lia].
    destruct (Z.ltb_spec 0 max_size') as [_|]; [|lia].
    destruct (_ && _); [|done].
    destruct (recv buffer_size true s) as [buffer s1].
    case_bool_decide; [done|].
    destruct (memchr buffer LF); destruct (recv _ false s1); apply IH.
Qed.

Lemma read_line_budget socket max_size max_size' s :
  0 < max_size → 0 < max_size' →
  read_line socket max_size s = read_line socket max_size' s.
Proof.
  intros Hmax Hmax'. unfold read_line.
  destruct (0 <? socket); [|done]. cbn [negb].
  destruct (Z.ltb_spec 0 max_size) as [_|]; [|lia].
  destruct (Z.ltb_spec 0 max_size') as [_|]; [|lia]. cbn [negb].
  by apply read_line_loop_budget.
Qed.

End line_reader.

(** ** Sequencing *)

Section sequencing.
Context {S A B : Type}.
Implicit Types (m : io S A) (k : A → io S B).

Lemma bind_ok m k s a s' : m s = (Ok a, s') → bind m k s = k a s'.
Proof. unfold bind. by intros ->. Qed.

Lemma bind_throw m k s e s' : m s = (Throw e, s') → bind m k s = (Throw e, s').
Proof. unfold bind. by intros ->. Qed.

Lemma bind_abort m k s s' : m s = (Abort, s') → bind m k s = (Abort, s').
Proof. unfold bind. by intros ->. Qed.

Lemma bind_undefined m k s s' :
  m s = (Undefined, s') → bind m k s = (Undefined, s').
Proof. unfold bind. by intros ->. Qed.
End sequencing.

Section ensures.
Context {A B : Type}.
Implicit Types (m : io socket_state A) (k : A → io socket_state B).

Lemma ensures_bind m k (Q : outcome A → Prop) (R : outcome B → Prop) :
  ensures m Q →
  (∀ a, Q (Ok a) → ensures (k a) R) →
  (∀ e, Q (Throw e) → R (Throw e)) →
  (Q Abort → R Abort) → (Q Undefined → R Undefined) →
  ensures (bind m k) R.
Proof.
  intros Hm Hk He Ha Hu s. unfold bind.
  destruct (Hm s) as [HQ Hout]. destruct (m s) as [[a|e| |] s1]; simpl in *;
    [|by auto..].
  destruct (Hk a HQ s1) as [HR Hout']. eauto using same_output_trans.
Qed.

Lemma ensures_weaken m (Q Q' : outcome A → Prop) :
  ensures m Q → (∀ r, Q r → Q' r) → ensures m Q'.
Proof. intros Hm HQ s. destruct (Hm s). auto. Qed.

Lemma ensures_ret (a : A) (Q : outcome A → Prop) : Q (Ok a) → ensures (ret a) Q.
Proof. by intros HQ s. Qed.

Lemma ensures_throw e (Q : outcome A → Prop) :
  Q (Throw e) → ensures (throw e) Q.
Proof. by intros HQ s. Qed.

Lemma ensures_lift (r : outcome A) (Q : outcome A → Prop) :
  Q r → ensures (lift r) Q.
Proof. by intros HQ s. Qed.

Lemma ensures_undefined (Q : outcome A → Prop) :
  Q Undefined → ensures undefined Q.
Proof. by intros HQ s. Qed.
End ensures.

(** The line reader never fails in another way than by reporting the
    closed connection (or by its assertions). *)
Lemma read_line_ensures socket max_size :
  ensures (read_line socket max_size) (throws_only (.= connection_was_closed)).
Proof.
  intros s. unfold read_line.
  destruct (Z.ltb_spec 0 socket) as [Hsock|]; [|done].
  destruct (Z.ltb_spec 0 max_size) as [Hmax|]; [|done]. cbn [negb].
  change (throws_only (.= connection_was_closed)
            (read_line_loop (S (length (sk_in s))) max_size 0 false [] s).1
          ∧ same_output s
              (read_line_loop (S (length (sk_in s))) max_size 0 false [] s).2).
  destruct (split_at_LF (sk_in s)) as [Hno|(pre & post & Hin & Hpre)].
  - destruct (read_line_loop_closed (S (length (sk_in s))) max_size [] s)
      as (s' & -> & _ & Hout); [done..|lia|done].
  - destruct (read_line_loop_found (S (length (sk_in s))) max_size [] pre post s)
      as (s' & -> & _ & Hout); [done..| |done].
    rewrite Hin, length_app. simpl. lia.
Qed.

(** Nor does the exact reader once it has its array, and what it returns
    has the length that was asked for. *)
Lemma read_n_ensures {P : Platform} socket n :
  ensures (read_n socket n)
    (fun r => match r with
              | Ok data => Z.of_nat (length data) = n
              | Throw e => e = connection_was_closed ∨ e = bad_alloc
              | _ => True
              end).
Proof.
  intros s. unfold read_n. destruct (Z.ltb_spec n 0) as [|Hn]; [done|].
  destruct (Z.ltb_spec LONG_MAX (n + 1)) as [|_]; [done|].
  destruct (Z.ltb_spec max_new (n + 1)) as [|_]; [split; [by right | done]|].
  destruct (read_n_loop_spec (Z.to_nat n) (Z.to_nat n) [] s) as (s1 & Hout & Hres);
    [simpl; lia..|].
  simpl in Hres. rewrite Nat.sub_0_r in Hres.
  destruct (decide _) as [Hle|]; destruct Hres as [-> _]; simpl;
    [|split; [by left | done]].
  split; [|done]. rewrite length_take_le by done. lia.
Qed.

(** ** Decimal numerals *)

Section decimal.
Lemma uint_digits_plain (d : Decimal.uint) :
  Forall (.∉ REDIS_LBR ++ [LF]) (str (NilEmpty.string_of_uint d)).
Proof.
  induction d; simpl; constructor; try done; by compute_done.
Qed.

Lemma dec_of_long_plain z (c : ascii) : c ∈ dec_of_long z → c ≠ CR ∧ c ≠ LF.
Proof.
  intros Hc.
  assert (Forall (.∉ REDIS_LBR ++ [LF]) (dec_of_long z)) as Hall.
  { unfold dec_of_long. destruct (Z.to_int z) as [d|d]; simpl.
    - destruct d; try apply (uint_digits_plain (Decimal.D0 Decimal.Nil));
        apply uint_digits_plain.
    - constructor; [by compute_done|].
      destruct d; try apply (uint_digits_plain (Decimal.D0 Decimal.Nil));
        apply uint_digits_plain. }
  rewrite Forall_forall in Hall. specialize (Hall c Hc).
  split; intros ->; apply Hall; by compute_done.
Qed.

Lemma lexical_cast_long_digits (d : Decimal.uint) :
  d ≠ Decimal.Nil → Z.of_uint d ≤ LONG_MAX →
  lexical_cast_long (str (NilEmpty.string_of_uint d)) = Ok (Z.of_uint d).
Proof.
  intros Hd Hmax. unfold lexical_cast_long.
  pose proof (NilEmpty.usu d) as Husu.
  destruct d; [done|..]; simpl in *;
    rewrite string_of_list_ascii_of_string;
    simpl; rewrite Husu;
    match goal with
    | |- context [?a <=? ?b] => destruct (Z.leb_spec a b); [done | lia]
    end.
Qed.

Lemma lexical_cast_long_negative_digits (d : Decimal.uint) :
  d ≠ Decimal.Nil → Z.of_uint d ≤ 2 ^ 63 →
  lexical_cast_long ("-"%char :: str (NilEmpty.string_of_uint d))
  = Ok (- Z.of_uint d).
Proof.
  intros Hd Hmax. unfold lexical_cast_long.
  pose proof (NilEmpty.usu d) as Husu.
  rewrite bool_decide_true by done.
  destruct d; [done|..]; simpl in *;
    rewrite string_of_list_ascii_of_string;
    simpl; rewrite Husu;
    match goal with
    | |- context [?a <=? ?b] => destruct (Z.leb_spec a b); [done | lia]
    end.
Qed.

(** Parsing what was printed gives the number back. *)
Lemma lexical_cast_long_dec z :
  LONG_MIN ≤ z ≤ LONG_MAX → lexical_cast_long (dec_of_long z) = Ok z.
Proof.
  unfold LONG_MIN. intros Hz. destruct z as [|p|p].
  - reflexivity.
  - unfold dec_of_long. simpl.
    pose proof (DecimalPos.Unsigned.to_uint_nonnil p) as Hnil.
    pose proof (DecimalPos.Unsigned.of_to p) as Hof.
    assert (Z.of_uint (Pos.to_uint p) = Z.pos p) as Hval
      by (unfold Z.of_uint; by rewrite Hof).
    replace (NilZero.string_of_uint (Pos.to_uint p))
      with (NilEmpty.string_of_uint (Pos.to_uint p))
      by (by destruct (Pos.to_uint p)).
    rewrite lexical_cast_long_digits; [by rewrite Hval | done | lia].
  - unfold dec_of_long. simpl.
    pose proof (DecimalPos.Unsigned.to_uint_nonnil p) as Hnil.
    pose proof (DecimalPos.Unsigned.of_to p) as Hof.
    assert (Z.of_uint (Pos.to_uint p) = Z.pos p) as Hval
      by (unfold Z.of_uint; by rewrite Hof).
    replace (NilZero.string_of_uint (Pos.to_uint p))
      with (NilEmpty.string_of_uint (Pos.to_uint p))
      by (by destruct (Pos.to_uint p)).
    rewrite lexical_cast_long_negative_digits; [by rewrite Hval | done | lia].
Qed.

Lemma lexical_cast_long_throws s e :
  lexical_cast_long s = Throw e → e = bad_lexical_cast.
Proof.
  unfold lexical_cast_long.
  repeat (case_match; try congruence).
Qed.

Lemma lexical_cast_long_range s z :
  lexical_cast_long s = Ok z → LONG_MIN ≤ z ≤ LONG_MAX.
Proof.
  unfold lexical_cast_long, LONG_MIN, LONG_MAX.
  assert (∀ d, 0 ≤ Z.of_uint d) as Hpos by (intros d; unfold Z.of_uint; lia).
  repeat (case_match; try congruence); intros [= <-];
    match goal with
    | H : (Z.of_uint ?d <=? _) = true |- _ =>
        apply Z.leb_le in H; specialize (Hpos d); lia
    end.
Qed.
End decimal.

(** ** Reply decoders *)

Section decoders.
Context {P : Platform}.
Implicit Types (s : socket_state) (rest : std_string) (socket : Z).

Lemma rtrim_plain (l ws : std_string) : Forall (.∉ ws) l → rtrim l ws = l.
Proof.
  destruct l as [|c l _] using rev_ind; [done|].
  intros [_ Hc]%Forall_app. apply rtrim_snoc. by inversion Hc.
Qed.

Lemma not_in_LBR (c : ascii) : c ≠ CR → c ≠ LF → c ∉ REDIS_LBR.
Proof.
  intros Hcr Hlf. unfold REDIS_LBR.
  rewrite !not_elem_of_cons. split_and!; [done.. | apply not_elem_of_nil].
Qed.

(** The line that carries [prefix] and the decimal numeral of [z]. *)
Lemma numeral_line socket prefix z rest s :
  0 < socket → prefix ≠ CR → prefix ≠ LF →
  sk_in s = [prefix] ++ dec_of_long z ++ REDIS_LBR ++ rest →
  ∃ s', read_line socket default_max_size s = (Ok ([prefix] ++ dec_of_long z), s')
        ∧ sk_in s' = rest ∧ same_output s s'.
Proof.
  intros Hsock Hcr Hlf Hin.
  destruct (read_line_found socket default_max_size
              ([prefix] ++ dec_of_long z ++ [CR]) rest s)
    as (s' & Hline & Hin' & Hout); [done | done | | |].
  - rewrite !elem_of_app, !list_elem_of_singleton.
    intros [?|[Hd|?]]; [done | | done].
    by apply dec_of_long_plain in Hd as [_ ?].
  - rewrite Hin. by rewrite <- !app_assoc.
  - exists s'. split; [|done]. rewrite Hline. do 2 f_equal.
    rewrite app_assoc, rtrim_app_ws by (constructor; [by left | constructor]).
    apply rtrim_plain, Forall_app. split.
    + constructor; [by apply not_in_LBR | constructor].
    + apply Forall_forall. intros c [? ?]%dec_of_long_plain.
      by apply not_in_LBR.
Qed.

(** The header of a bulk or multi-bulk reply. *)
Lemma recv_bulk_reply_prefix_dec socket prefix z rest s :
  0 < socket → prefix ≠ CR → prefix ≠ LF → LONG_MIN ≤ z ≤ LONG_MAX →
  sk_in s = [prefix] ++ dec_of_long z ++ REDIS_LBR ++ rest →
  ∃ s', recv_bulk_reply_prefix_ socket prefix s = (Ok z, s')
        ∧ sk_in s' = rest ∧ same_output s s'.
Proof.
  intros Hsock Hcr Hlf Hz Hin.
  destruct (numeral_line socket prefix z rest s) as (s' & Hline & Hin' & Hout);
    [done..|].
  exists s'. split; [|done]. unfold recv_bulk_reply_prefix_.
  rewrite (bind_ok _ _ _ _ _ Hline). simpl.
  rewrite bool_decide_false by (intros Hne; by apply Hne).
  unfold lift. by rewrite lexical_cast_long_dec.
Qed.

Lemma recv_bulk_reply_prefix_ensures socket prefix :
  ensures (recv_bulk_reply_prefix_ socket prefix)
    (fun r => match r with
              | Ok z => LONG_MIN ≤ z ≤ LONG_MAX
              | Throw e => e ≠ unexpected_length
              | _ => True
              end).
Proof.
  unfold recv_bulk_reply_prefix_.
  eapply ensures_bind; [apply read_line_ensures | | | done | done].
  - intros line _. case_bool_decide.
    + by apply ensures_throw.
    + apply ensures_lift. destruct (lexical_cast_long _) as [z|e| |] eqn:E; [| |done..].
      * by eapply lexical_cast_long_range.
      * by apply lexical_cast_long_throws in E as ->.
  - by intros e ->.
Qed.

(** The length check of the bulk decoder never fails. *)
Lemma recv_bulk_reply_ensures socket :
  ensures (recv_bulk_reply_ socket) (throws_only (.≠ unexpected_length)).
Proof.
  unfold recv_bulk_reply_.
  eapply ensures_bind;
    [apply recv_bulk_reply_prefix_ensures | | by intros e | done | done].
  intros length_ Hrange. simpl in Hrange.
  destruct (length_ =? -1); [by apply ensures_ret|].
  destruct (Z.ltb_spec LONG_MAX (length_ + 2)) as [|Hmax];
    [by apply ensures_undefined|].
  eapply ensures_bind; [apply read_n_ensures | | by intros e [-> | ->] | done | done].
  intros data Hlen. simpl in Hlen.
  case_bool_decide; [by apply ensures_throw|].
  rewrite bool_decide_false; [by apply ensures_ret|].
  intros Hne. apply Hne. rewrite Hlen.
  symmetry. apply Z.mod_small. unfold LONG_MAX in Hmax. lia.
Qed.

(** A length of [-1] stands for the missing value. *)
Lemma recv_bulk_reply_missing socket rest s :
  0 < socket →
  sk_in s = [REDIS_PREFIX_SINGLE_BULK_REPLY] ++ dec_of_long (-1) ++ REDIS_LBR ++ rest →
  ∃ s', recv_bulk_reply_ socket s = (Ok missing_value, s')
        ∧ sk_in s' = rest ∧ same_output s s'.
Proof.
  intros Hsock Hin.
  destruct (recv_bulk_reply_prefix_dec socket REDIS_PREFIX_SINGLE_BULK_REPLY (-1) rest s)
    as (s' & Hhdr & Hin' & Hout); [done..|].
  exists s'. split; [|done]. unfold recv_bulk_reply_.
  by rewrite (bind_ok _ _ _ _ _ Hhdr).
Qed.

(** A length [n >= 0]: the next [n + 2] bytes leave the stream, the first
    [n] of them are the result. *)
Lemma recv_bulk_reply_payload socket (n : Z) rest s :
  0 < socket → 0 ≤ n → n + 3 ≤ max_new →
  sk_in s = [REDIS_PREFIX_SINGLE_BULK_REPLY] ++ dec_of_long n ++ REDIS_LBR ++ rest →
  (Z.to_nat n + 2 ≤ length rest)%nat →
  ∃ s', recv_bulk_reply_ socket s = (Ok (take (Z.to_nat n) rest), s')
        ∧ sk_in s' = drop (Z.to_nat n + 2) rest ∧ same_output s s'.
Proof.
  intros Hsock Hn Hnew Hin Hlen. pose proof max_new_bound as Hbound.
  destruct (recv_bulk_reply_prefix_dec socket REDIS_PREFIX_SINGLE_BULK_REPLY n rest s)
    as (s1 & Hhdr & Hin1 & Hout1); [done.. | unfold LONG_MIN; lia | done |].
  unfold recv_bulk_reply_. rewrite (bind_ok _ _ _ _ _ Hhdr).
  destruct (Z.eqb_spec n (-1)) as [|_]; [lia|].
  destruct (Z.ltb_spec LONG_MAX (n + 2)) as [|_]; [lia|].
  destruct (read_n_ok socket (n + 2) s1) as (s' & Hread & Hin' & Hout'); [lia | lia | |].
  { rewrite Hin1. lia. }
  rewrite (bind_ok _ _ _ _ _ Hread). rewrite Hin1 in *.
  replace (Z.to_nat (n + 2)) with (Z.to_nat n + 2)%nat in * by lia.
  exists s'. split; [|eauto using same_output_trans].
  assert (length (take (Z.to_nat n + 2) rest) = (Z.to_nat n + 2)%nat) as Hl
    by (by rewrite length_take_le).
  rewrite bool_decide_false by (intros E; rewrite E in Hl; simpl in Hl; lia).
  rewrite bool_decide_false.
  - unfold ret. do 2 f_equal. rewrite Hl, take_take. f_equal. lia.
  - intros Hne. apply Hne. rewrite Hl, Z.mod_small; unfold LONG_MAX in *; lia.
Qed.

(** The peer closing before [n + 2] bytes were delivered is reported as
    a connection error. *)
Lemma recv_bulk_reply_short socket (n : Z) rest s :
  0 < socket → 0 ≤ n → n + 3 ≤ max_new →
  sk_in s = [REDIS_PREFIX_SINGLE_BULK_REPLY] ++ dec_of_long n ++ REDIS_LBR ++ rest →
  (length rest < Z.to_nat n + 2)%nat →
  ∃ s', recv_bulk_reply_ socket s = (Throw connection_was_closed, s')
        ∧ sk_in s' = [] ∧ same_output s s'.
Proof.
  intros Hsock Hn Hnew Hin Hlen. pose proof max_new_bound as Hbound.
  destruct (recv_bulk_reply_prefix_dec socket REDIS_PREFIX_SINGLE_BULK_REPLY n rest s)
    as (s1 & Hhdr & Hin1 & Hout1); [done.. | unfold LONG_MIN; lia | done |].
  unfold recv_bulk_reply_. rewrite (bind_ok _ _ _ _ _ Hhdr).
  destruct (Z.eqb_spec n (-1)) as [|_]; [lia|].
  destruct (Z.ltb_spec LONG_MAX (n + 2)) as [|_]; [lia|].
  destruct (read_n_closed socket (n + 2) s1) as (s' & Hread & Hin' & Hout');
    [lia | lia | |].
  { rewrite Hin1. lia. }
  rewrite (bind_throw _ _ _ _ _ Hread).
  exists s'. eauto using same_output_trans.
Qed.

(** A declared length whose array the platform does not provide:
    [std::bad_alloc] leaves the decoder when the header has been read,
    and nothing behind the header is consumed. *)
Lemma recv_bulk_reply_refused socket (n : Z) rest s :
  0 < socket → 0 ≤ n → n + 2 < LONG_MAX → max_new < n + 3 →
  sk_in s = [REDIS_PREFIX_SINGLE_BULK_REPLY] ++ dec_of_long n ++ REDIS_LBR ++ rest →
  ∃ s', recv_bulk_reply_ socket s = (Throw bad_alloc, s')
        ∧ sk_in s' = rest ∧ same_output s s'.
Proof.
  intros Hsock Hn Hmax Hnew Hin.
  destruct (recv_bulk_reply_prefix_dec socket REDIS_PREFIX_SINGLE_BULK_REPLY n rest s)
    as (s1 & Hhdr & Hin1 & Hout1); [done.. | unfold LONG_MIN; lia | done |].
  unfold recv_bulk_reply_. rewrite (bind_ok _ _ _ _ _ Hhdr).
  destruct (Z.eqb_spec n (-1)) as [|_]; [lia|].
  destruct (Z.ltb_spec LONG_MAX (n + 2)) as [|_]; [lia|].
  rewrite (bind_throw _ _ s1 bad_alloc s1) by (apply read_n_refused; lia).
  by exists s1.
Qed.

(** The largest declared length: [length + 2] is the largest [long], and
    [n + 1] in [read_n] overflows. *)
Lemma recv_bulk_reply_overflow socket rest s :
  0 < socket →
  sk_in s = [REDIS_PREFIX_SINGLE_BULK_REPLY] ++ dec_of_long (LONG_MAX - 2)
              ++ REDIS_LBR ++ rest →
  ∃ s', recv_bulk_reply_ socket s = (Undefined, s').
Proof.
  intros Hsock Hin.
  destruct (recv_bulk_reply_prefix_dec socket REDIS_PREFIX_SINGLE_BULK_REPLY
              (LONG_MAX - 2) rest s)
    as (s1 & Hhdr & Hin1 & Hout1); [done..|].
  unfold recv_bulk_reply_. rewrite (bind_ok _ _ _ _ _ Hhdr).
  exists s1. unfold bind, read_n.
  change (LONG_MAX - 2 =? -1) with false.
  change (LONG_MAX <? LONG_MAX - 2 + 2) with false.
  change (LONG_MAX - 2 + 2 <? 0) with false.
  by change (LONG_MAX <? LONG_MAX - 2 + 2 + 1) with true.
Qed.
End decoders.

(** C2, as amended. The header [$<N>\r\n] of a bulk reply is decoded as
    follows. [N = -1] yields the missing-value sentinel and is no error.
    For [0 <= N] the exact reader first gets an array of [N + 3] bytes. If
    the platform provides it, exactly [N + 2] bytes are taken from the
    stream, the last two are dropped and the first [N] are returned; if
    the peer closes before [N + 2] bytes were delivered, the error is a
    connection error, not a protocol error. If the platform does not
    provide the array, [std::bad_alloc] leaves the decoder when the header
    has been read and nothing behind the header is consumed; for the
    largest [N] whose [N + 2] is a [long] the size of the array overflows.
    The decoder's own comparison of the declared with the read length
    never fails, whatever the stream, because the exact reader returns the
    requested number of bytes or throws. *)
Theorem recv_bulk_reply_decoding {P : Platform} (socket : Z) (s : socket_state)
    (N : Z) (rest : std_string) :
  0 < socket →
  sk_in s = [REDIS_PREFIX_SINGLE_BULK_REPLY] ++ dec_of_long N ++ REDIS_LBR ++ rest →
  (N = -1 →
     ∃ s', recv_bulk_reply_ socket s = (Ok missing_value, s') ∧ sk_in s' = rest)
  ∧ (0 ≤ N → N + 3 ≤ max_new → (Z.to_nat N + 2 ≤ length rest)%nat →
     ∃ s', recv_bulk_reply_ socket s = (Ok (take (Z.to_nat N) rest), s')
           ∧ length (take (Z.to_nat N) rest) = Z.to_nat N
           ∧ sk_in s' = drop (Z.to_nat N + 2) rest)
  ∧ (0 ≤ N → N + 3 ≤ max_new → (length rest < Z.to_nat N + 2)%nat →
     ∃ s', recv_bulk_reply_ socket s = (Throw connection_was_closed, s'))
  ∧ (0 ≤ N → N + 2 < LONG_MAX → max_new < N + 3 →
     ∃ s', recv_bulk_reply_ socket s = (Throw bad_alloc, s') ∧ sk_in s' = rest)
  ∧ (N = LONG_MAX - 2 → ∃ s', recv_bulk_reply_ socket s = (Undefined, s'))
  ∧ (∀ s0, (recv_bulk_reply_ socket s0).1 ≠ Throw unexpected_length).
Proof.
  intros Hsock Hin. split_and!.
  - intros ->. destruct (recv_bulk_reply_missing socket rest s) as (s' & ? & ? & _);
      eauto.
  - intros HN Hnew Hlen.
    destruct (recv_bulk_reply_payload socket N rest s) as (s' & ? & ? & _);
      [done..|].
    exists s'. split_and!; [done | | done]. rewrite length_take_le; lia.
  - intros HN Hnew Hlen.
    destruct (recv_bulk_reply_short socket N rest s) as (s' & ? & _); eauto.
  - intros HN Hmax Hnew.
    destruct (recv_bulk_reply_refused socket N rest s) as (s' & ? & ? & _); eauto.
  - intros ->. by apply (recv_bulk_reply_overflow socket rest).
  - intros s0 Hthrow. destruct (recv_bulk_reply_ensures socket s0) as [Hno _].
    rewrite Hthrow in Hno. by apply Hno.
Qed.

Lemma recv_bulk_reply_decoding_witness :
  let P := lp64 in
  let s := Sock (str "$3" ++ REDIS_LBR ++ str "foo" ++ REDIS_LBR ++ str "+OK" ++ REDIS_LBR)
                0 [2; 0; 1]%nat [] None in
  ∃ s', recv_bulk_reply_ 3 s = (Ok (str "foo"), s')
        ∧ sk_in s' = str "+OK" ++ REDIS_LBR.
Proof.
  intros P s.
  destruct (recv_bulk_reply_decoding 3 s 3
              (str "foo" ++ REDIS_LBR ++ str "+OK" ++ REDIS_LBR))
    as (_ & Hpayload & _); [lia | reflexivity |].
  destruct Hpayload as (s' & Hrun & _ & Hin); [lia | by vm_compute | simpl; lia |].
  exists s'. split; [exact Hrun | exact Hin].
Defined.

(** A bulk reply that declares five bytes and delivers two before the peer
    closes: the decoder raises a connection error, no protocol error. *)
Lemma bulk_reply_short_read_is_connection_error :
  let P := lp64 in
  (recv_bulk_reply_ 3 (Sock (str "$5" ++ REDIS_LBR ++ str "ab") 0 [] [] None)).1
  = Throw (connection_error (str "connection was closed"))
  ∧ ¬ ∃ err,
        (recv_bulk_reply_ 3 (Sock (str "$5" ++ REDIS_LBR ++ str "ab") 0 [] [] None)).1
        = Throw (protocol_error err).
Proof.
  intros P. split; [reflexivity|]. intros [err Herr]. vm_compute in Herr. discriminate.
Qed.

Section multi_bulk.
Context {P : Platform}.
Implicit Types (s : socket_state) (items : list (option std_string)).

(** One well-framed bulk reply at the head of the stream. *)
Lemma recv_bulk_reply_item socket payload rest s :
  0 < socket → payload_fits payload →
  sk_in s = bulk_reply_bytes payload ++ rest →
  ∃ s', recv_bulk_reply_ socket s = (Ok (bulk_value payload), s')
        ∧ sk_in s' = rest ∧ same_output s s'.
Proof.
  intros Hsock Hfits Hin.
  destruct payload as [bytes|]; unfold bulk_reply_bytes in Hin;
    unfold payload_fits in Hfits; unfold bulk_value; cbn [default from_option id].
  - destruct (recv_bulk_reply_payload socket (Z.of_nat (length bytes))
                (bytes ++ REDIS_LBR ++ rest) s) as (s' & Hrun & Hin' & Hout).
    + done.
    + lia.
    + done.
    + rewrite Hin. by rewrite <- !app_assoc.
    + rewrite !length_app. cbn [length REDIS_LBR]. lia.
    + rewrite Nat2Z.id in *. exists s'. split_and!; [|  |done].
      * by rewrite take_app_length in Hrun.
      * rewrite Hin'. by rewrite drop_app_add'.
  - apply recv_bulk_reply_missing; [done|]. rewrite Hin. by rewrite <- !app_assoc.
Qed.

(** The loop decodes the replies one after the other and hands each to
    [push]. *)
Lemma recv_bulk_replies_items {C} (push : C → std_string → C)
    socket items rest (out : C) s :
  0 < socket → Forall payload_fits items →
  sk_in s = concat (bulk_reply_bytes <$> items) ++ rest →
  ∃ s', recv_bulk_replies_ push socket (length items) out s
        = (Ok (foldl push out (bulk_value <$> items)), s')
        ∧ sk_in s' = rest ∧ same_output s s'.
Proof.
  intros Hsock Hfits. revert out s.
  induction Hfits as [|payload items Hfit Hfits IH]; intros out s Hin.
  - exists s. by split_and!.
  - cbn [fmap list_fmap concat] in Hin. rewrite <- app_assoc in Hin.
    destruct (recv_bulk_reply_item socket payload _ s Hsock Hfit Hin)
      as (s1 & Hrun & Hin1 & Hout1).
    destruct (IH (push out (bulk_value payload)) s1 Hin1) as (s' & Hrest & Hin' & Hout').
    exists s'. split_and!; [|done|eauto using same_output_trans].
    cbn [length recv_bulk_replies_]. by rewrite (bind_ok _ _ _ _ _ Hrun).
Qed.

Lemma foldl_snoc_all {A} (l k : list A) :
  foldl (fun out v => out ++ [v]) l k = l ++ k.
Proof.
  revert l. induction k as [|x k IH]; intros l; simpl.
  - by rewrite app_nil_r.
  - rewrite IH. by rewrite <- app_assoc.
Qed.

Lemma foldl_insert_all (X : gset std_string) (k : list std_string) :
  foldl (fun out v => {[ v ]} ∪ out) X k = list_to_set k ∪ X.
Proof.
  revert X. induction k as [|x k IH]; intros X; simpl.
  - by rewrite (left_id_L ∅ (∪)).
  - rewrite IH. by rewrite (assoc_L (∪)), (comm_L (∪) (list_to_set k) {[x]}).
Qed.
(** [out.reserve(out.size() + length)]: the sum is formed in [size_t]. *)
Lemma reserve_room size count :
  0 ≤ count → Z.of_nat size + count ≤ vector_max_alloc →
  reserve size ((Z.of_nat size + count) `mod` 2 ^ 64) = Ok tt.
Proof.
  intros Hcount Hroom.
  pose proof vector_max_alloc_bound. pose proof vector_max_size_bound.
  assert (LONG_MAX < 2 ^ 64) by done.
  rewrite Z.mod_small by lia. unfold reserve.
  destruct (Z.ltb_spec vector_max_size (Z.of_nat size + count)); [lia|].
  destruct (Z.ltb_spec vector_max_alloc (Z.of_nat size + count)); [lia|].
  by rewrite andb_false_r.
Qed.

Lemma reserve_nothing size :
  Z.of_nat size ≤ vector_max_size →
  reserve size ((Z.of_nat size + 0) `mod` 2 ^ 64) = Ok tt.
Proof.
  intros Hsize. pose proof vector_max_size_bound.
  assert (LONG_MAX < 2 ^ 64) by done.
  rewrite Z.mod_small by lia. unfold reserve. rewrite Z.add_0_r.
  destruct (Z.ltb_spec vector_max_size (Z.of_nat size)); [lia|].
  by rewrite Z.ltb_irrefl.
Qed.

Lemma reserve_beyond size count :
  LONG_MIN ≤ count ≤ LONG_MAX → Z.of_nat size ≤ vector_max_size →
  vector_max_size < Z.of_nat size + count ∨ Z.of_nat size + count < 0 →
  reserve size ((Z.of_nat size + count) `mod` 2 ^ 64) = Throw length_error.
Proof.
  intros Hcount Hsize Hbeyond. pose proof vector_max_size_bound.
  assert (LONG_MAX = 2 ^ 63 - 1 ∧ LONG_MIN = - 2 ^ 63 ∧ 2 ^ 64 = 2 * 2 ^ 63)
    as (HM & Hm & Hw) by done.
  assert (vector_max_size < (Z.of_nat size + count) `mod` 2 ^ 64) as Hlt.
  { destruct Hbeyond.
    - rewrite Z.mod_small; lia.
    - replace (Z.of_nat size + count)
        with (Z.of_nat size + count + 2 ^ 64 + (-1) * 2 ^ 64) by lia.
      rewrite Z.mod_add by lia. rewrite Z.mod_small; lia. }
  unfold reserve. by destruct (Z.ltb_spec vector_max_size
                                 ((Z.of_nat size + count) `mod` 2 ^ 64)); [|lia].
Qed.

Lemma reserve_refused size count :
  0 < count → vector_max_alloc < Z.of_nat size + count ≤ vector_max_size →
  reserve size ((Z.of_nat size + count) `mod` 2 ^ 64) = Throw bad_alloc.
Proof.
  intros Hcount Hroom. pose proof vector_max_size_bound.
  assert (LONG_MAX < 2 ^ 64) by done.
  rewrite Z.mod_small by lia. unfold reserve.
  destruct (Z.ltb_spec vector_max_size (Z.of_nat size + count)); [lia|].
  destruct (Z.ltb_spec vector_max_alloc (Z.of_nat size + count)); [|lia].
  by destruct (Z.ltb_spec (Z.of_nat size) (Z.of_nat size + count)); [|lia].
Qed.

(** The vector decoder on a header whose count cannot be reserved. *)
Lemma recv_multi_bulk_reply_no_room socket count rest out e s :
  0 < socket → LONG_MIN ≤ count ≤ LONG_MAX → count ≠ -1 →
  reserve (length out) ((Z.of_nat (length out) + count) `mod` 2 ^ 64) = Throw e →
  sk_in s = [REDIS_PREFIX_MULTI_BULK_REPLY] ++ dec_of_long count ++ REDIS_LBR ++ rest →
  ∃ s', recv_multi_bulk_reply_ socket out s = (Throw e, s')
        ∧ sk_in s' = rest ∧ same_output s s'.
Proof.
  intros Hsock Hcount Hne Hreserve Hin.
  destruct (recv_bulk_reply_prefix_dec socket REDIS_PREFIX_MULTI_BULK_REPLY count rest s)
    as (s' & Hhdr & Hin' & Hout'); [done..|].
  exists s'. split; [|done]. unfold recv_multi_bulk_reply_.
  rewrite (bind_ok _ _ _ _ _ Hhdr).
  destruct (Z.eqb_spec count (-1)); [done|]. by rewrite Hreserve.
Qed.

(** The vector decoder on a header whose count can be reserved, followed
    by that many well-framed bulk replies. *)
Lemma recv_multi_bulk_reply_room socket items rest out s :
  0 < socket → Forall payload_fits items →
  reserve (length out) ((Z.of_nat (length out) + Z.of_nat (length items)) `mod` 2 ^ 64)
  = Ok tt →
  Z.of_nat (length items) ≤ LONG_MAX →
  sk_in s = [REDIS_PREFIX_MULTI_BULK_REPLY] ++ dec_of_long (Z.of_nat (length items))
              ++ REDIS_LBR ++ concat (bulk_reply_bytes <$> items) ++ rest →
  ∃ s', recv_multi_bulk_reply_ socket out s
        = (Ok (Z.of_nat (length items), out ++ (bulk_value <$> items)), s')
        ∧ sk_in s' = rest ∧ same_output s s'.
Proof.
  intros Hsock Hfits Hreserve Hcount Hin.
  destruct (recv_bulk_reply_prefix_dec socket REDIS_PREFIX_MULTI_BULK_REPLY
              (Z.of_nat (length items)) (concat (bulk_reply_bytes <$> items) ++ rest) s)
    as (s1 & Hhdr & Hin1 & Hout1); [done.. | unfold LONG_MIN; lia | done |].
  destruct (recv_bulk_replies_items (fun out v => out ++ [v]) socket items rest out s1)
    as (s' & Hloop & Hin' & Hout'); [done..|].
  exists s'. split_and!; [|done|by eapply same_output_trans].
  unfold recv_multi_bulk_reply_. rewrite (bind_ok _ _ _ _ _ Hhdr).
  destruct (Z.eqb_spec (Z.of_nat (length items)) (-1)); [lia|].
  rewrite Hreserve. unfold lift at 1. unfold bind at 1. rewrite Nat2Z.id.
  rewrite (bind_ok _ _ _ _ _ Hloop). by rewrite foldl_snoc_all.
Qed.

(** The set decoder makes no reservation. *)
Lemma recv_multi_bulk_reply_set_items (socket : Z) items (rest : std_string)
    (out : gset std_string) s :
  0 < socket → Forall payload_fits items → Z.of_nat (length items) ≤ LONG_MAX →
  sk_in s = [REDIS_PREFIX_MULTI_BULK_REPLY] ++ dec_of_long (Z.of_nat (length items))
              ++ REDIS_LBR ++ concat (bulk_reply_bytes <$> items) ++ rest →
  ∃ s', recv_multi_bulk_reply_set_ socket out s
        = (Ok (Z.of_nat (length items), list_to_set (bulk_value <$> items) ∪ out), s')
        ∧ sk_in s' = rest ∧ same_output s s'.
Proof.
  intros Hsock Hfits Hcount Hin.
  destruct (recv_bulk_reply_prefix_dec socket REDIS_PREFIX_MULTI_BULK_REPLY
              (Z.of_nat (length items)) (concat (bulk_reply_bytes <$> items) ++ rest) s)
    as (s1 & Hhdr & Hin1 & Hout1); [done.. | unfold LONG_MIN; lia | done |].
  destruct (recv_bulk_replies_items (fun out v => {[ v ]} ∪ out) socket items rest out s1)
    as (s' & Hloop & Hin' & Hout'); [done..|].
  exists s'. split_and!; [|done|by eapply same_output_trans].
  unfold recv_multi_bulk_reply_set_. rewrite (bind_ok _ _ _ _ _ Hhdr).
  destruct (Z.eqb_spec (Z.of_nat (length items)) (-1)); [lia|].
  rewrite Nat2Z.id. rewrite (bind_ok _ _ _ _ _ Hloop). by rewrite foldl_insert_all.
Qed.

End multi_bulk.

(** C3, as amended. A declared count of [-1] raises the key-not-found error
    [key_error] in both decoders, when the header has been read. For every
    other declared count the vector decoder first reserves room for that
    many further elements. A count of [0] leaves the output as it is. A
    count [M] whose room the platform provides, followed by [M] well-framed
    bulk replies, makes the decoder perform [M] bulk decodes: it returns
    [M], leaves the stream right after the [M]-th reply, and has appended
    the [M] values in order. A count that leads beyond the largest size of
    a vector, or below zero, raises [std::length_error], and a count whose
    room the platform does not provide raises [std::bad_alloc]; either
    leaves the decoder when the header has been read and before any
    element is decoded. The set decoder reserves nothing: on every count
    [M >= 0] followed by [M] well-framed bulk replies it returns [M] and
    has inserted the [M] values into the output set. *)
Theorem recv_multi_bulk_reply_decoding {P : Platform} (socket : Z) (s : socket_state)
    (count : Z) (items : list (option std_string)) (rest : std_string)
    (out : list std_string) (out_set : gset std_string) :
  0 < socket → Z.of_nat (length out) ≤ vector_max_size →
  (sk_in s = [REDIS_PREFIX_MULTI_BULK_REPLY] ++ dec_of_long (-1) ++ REDIS_LBR ++ rest →
     (∃ s', recv_multi_bulk_reply_ socket out s = (Throw (key_error (str "no such key")), s')
            ∧ sk_in s' = rest)
     ∧ (∃ s', recv_multi_bulk_reply_set_ socket out_set s
              = (Throw (key_error (str "no such key")), s')
              ∧ sk_in s' = rest))
  ∧ (sk_in s = [REDIS_PREFIX_MULTI_BULK_REPLY] ++ dec_of_long 0 ++ REDIS_LBR ++ rest →
     (∃ s', recv_multi_bulk_reply_ socket [] s = (Ok (0, []), s') ∧ sk_in s' = rest)
     ∧ (∃ s', recv_multi_bulk_reply_ socket out s = (Ok (0, out), s') ∧ sk_in s' = rest)
     ∧ (∃ s', recv_multi_bulk_reply_set_ socket out_set s = (Ok (0, out_set), s')
              ∧ sk_in s' = rest))
  ∧ (Forall payload_fits items →
     sk_in s = [REDIS_PREFIX_MULTI_BULK_REPLY] ++ dec_of_long (Z.of_nat (length items))
                 ++ REDIS_LBR ++ concat (bulk_reply_bytes <$> items) ++ rest →
     (Z.of_nat (length out) + Z.of_nat (length items) ≤ vector_max_alloc →
      ∃ s', recv_multi_bulk_reply_ socket out s
            = (Ok (Z.of_nat (length items), out ++ (bulk_value <$> items)), s')
            ∧ sk_in s' = rest)
     ∧ (Z.of_nat (length items) ≤ LONG_MAX →
        ∃ s', recv_multi_bulk_reply_set_ socket out_set s
              = (Ok (Z.of_nat (length items),
                     list_to_set (bulk_value <$> items) ∪ out_set), s')
              ∧ sk_in s' = rest))
  ∧ (LONG_MIN ≤ count ≤ LONG_MAX → count ≠ -1 →
     sk_in s = [REDIS_PREFIX_MULTI_BULK_REPLY] ++ dec_of_long count ++ REDIS_LBR ++ rest →
     (vector_max_size < Z.of_nat (length out) + count
      ∨ Z.of_nat (length out) + count < 0 →
      ∃ s', recv_multi_bulk_reply_ socket out s = (Throw length_error, s')
            ∧ sk_in s' = rest)
     ∧ (0 < count →
        vector_max_alloc < Z.of_nat (length out) + count ≤ vector_max_size →
        ∃ s', recv_multi_bulk_reply_ socket out s = (Throw bad_alloc, s')
              ∧ sk_in s' = rest)).
Proof.
  intros Hsock Hsize. split_and!.
  - intros Hin.
    destruct (recv_bulk_reply_prefix_dec socket REDIS_PREFIX_MULTI_BULK_REPLY (-1) rest s)
      as (s' & Hhdr & Hin' & _); [done..|].
    split; exists s'; (split; [|done]).
    + unfold recv_multi_bulk_reply_. by rewrite (bind_ok _ _ _ _ _ Hhdr).
    + unfold recv_multi_bulk_reply_set_. by rewrite (bind_ok _ _ _ _ _ Hhdr).
  - intros Hin. split_and!.
    + destruct (recv_multi_bulk_reply_room socket [] rest [] s) as (s' & ? & ? & _);
        [done | done | | done | done | by exists s'].
      apply (reserve_room 0 0); [done|]. apply vector_max_alloc_small.
    + destruct (recv_multi_bulk_reply_room socket [] rest out s) as (s' & Hrun & ? & _);
        [done | done | | done | done |].
      * by apply reserve_nothing.
      * exists s'. by rewrite app_nil_r in Hrun.
    + destruct (recv_multi_bulk_reply_set_items socket [] rest out_set s)
        as (s' & Hrun & ? & _); [done..|].
      exists s'. split; [|done]. rewrite Hrun. cbn [length fmap list_fmap list_to_set].
      by rewrite (left_id_L ∅ (∪)).
  - intros Hfits Hin. split.
    + intros Hroom. pose proof vector_max_alloc_bound. pose proof vector_max_size_bound.
      destruct (recv_multi_bulk_reply_room socket items rest out s) as (s' & ? & ? & _);
        [done | done | | lia | done | by exists s'].
      apply reserve_room; lia.
    + intros Hcount.
      destruct (recv_multi_bulk_reply_set_items socket items rest out_set s)
        as (s' & ? & ? & _); [done..|]. by exists s'.
  - intros Hcount Hne Hin. split.
    + intros Hbeyond.
      destruct (recv_multi_bulk_reply_no_room socket count rest out length_error s)
        as (s' & ? & ? & _); [done.. | | done | by exists s'].
      by apply reserve_beyond.
    + intros Hpos Hroom.
      destruct (recv_multi_bulk_reply_no_room socket count rest out bad_alloc s)
        as (s' & ? & ? & _); [done.. | | done | by exists s'].
      by apply reserve_refused.
Qed.

Lemma recv_multi_bulk_reply_decoding_witness :
  let P := lp64 in
  let s := Sock (str "*2" ++ REDIS_LBR ++ str "$1" ++ REDIS_LBR ++ str "a" ++ REDIS_LBR
                   ++ str "$1" ++ REDIS_LBR ++ str "b" ++ REDIS_LBR ++ str ":1" ++ REDIS_LBR)
                0 [1; 3]%nat [] None in
  ∃ s', recv_multi_bulk_reply_ 3 [] s = (Ok (2, [str "a"; str "b"]), s')
        ∧ sk_in s' = str ":1" ++ REDIS_LBR.
Proof.
  intros P s.
  destruct (recv_multi_bulk_reply_decoding 3 s 2 [Some (str "a"); Some (str "b")]
              (str ":1" ++ REDIS_LBR) [] ∅) as (_ & _ & Hitems & _);
    [lia | by vm_compute |].
  destruct Hitems as [Hvector _].
  - apply Forall_cons_2; [by vm_compute|].
    apply Forall_cons_2; [by vm_compute | apply Forall_nil_2].
  - reflexivity.
  - apply Hvector. by vm_compute.
Defined.

(** A multi-bulk header that declares the largest count a [long] holds:
    the vector decoder performs no bulk decode and returns no count, it
    raises [std::length_error] from the reservation. *)
Lemma multi_bulk_count_beyond_max_size :
  let P := lp64 in
  (recv_multi_bulk_reply_ 3 []
     (Sock (str "*9223372036854775807" ++ REDIS_LBR) 0 [] [] None)).1
  = Throw length_error
  ∧ ¬ ∃ out,
        (recv_multi_bulk_reply_ 3 []
           (Sock (str "*9223372036854775807" ++ REDIS_LBR) 0 [] [] None)).1
        = Ok (9223372036854775807, out).
Proof.
  intros P. split; [reflexivity|]. intros [out Hout]. vm_compute in Hout. discriminate.
Qed.

(** C4. The integer decoder on [:42\r\n] returns [42], and on an empty line
    it raises a protocol error. On [:abc\r\n] the conversion of the text
    after the prefix fails with the exception of the conversion library,
    which the decoder lets through: the error raised is no protocol
    error. This holds for every segmentation of the transport. *)
Theorem recv_int_reply_decoding (avail : nat) (arrivals : list nat)
    (out : std_string) (wr_err : option std_string) (rest : std_string) :
  (recv_int_reply_ 3 (Sock (str ":42" ++ REDIS_LBR ++ rest) avail arrivals out wr_err)).1
  = Ok 42
  ∧ (recv_int_reply_ 3 (Sock (REDIS_LBR ++ rest) avail arrivals out wr_err)).1
    = Throw (protocol_error (str "invalid integer reply; empty"))
  ∧ (recv_int_reply_ 3 (Sock (str ":abc" ++ REDIS_LBR ++ rest) avail arrivals out wr_err)).1
    = Throw bad_lexical_cast
  ∧ ¬ ∃ err,
        (recv_int_reply_ 3 (Sock (str ":abc" ++ REDIS_LBR ++ rest) avail arrivals out wr_err)).1
        = Throw (protocol_error err).
Proof.
  assert (∀ content,
            LF ∉ content →
            ∃ s', read_line 3 default_max_size
                    (Sock (content ++ REDIS_LBR ++ rest) avail arrivals out wr_err)
                  = (Ok (rtrim (content ++ [CR]) REDIS_LBR), s')) as Hline.
  { intros content Hno.
    destruct (read_line_found 3 default_max_size (content ++ [CR]) rest
                (Sock (content ++ REDIS_LBR ++ rest) avail arrivals out wr_err))
      as (s' & Hrun & _); [done | done | | | by exists s'].
    - rewrite elem_of_app, list_elem_of_singleton. by intros [?|?].
    - simpl. by rewrite <- app_assoc. }
  assert ((recv_int_reply_ 3
             (Sock (str ":abc" ++ REDIS_LBR ++ rest) avail arrivals out wr_err)).1
          = Throw bad_lexical_cast) as Habc.
  { destruct (Hline (str ":abc")) as (s' & Hrun); [by compute_done|].
    unfold recv_int_reply_. by rewrite (bind_ok _ _ _ _ _ Hrun). }
  split_and!.
  - destruct (Hline (str ":42")) as (s' & Hrun); [by compute_done|].
    unfold recv_int_reply_. by rewrite (bind_ok _ _ _ _ _ Hrun).
  - destruct (Hline []) as (s' & Hrun); [apply not_elem_of_nil|].
    unfold recv_int_reply_. by rewrite (bind_ok _ _ _ _ _ Hrun).
  - done.
  - intros [err Herr]. rewrite Habc in Herr. discriminate.
Qed.

(** C5. The line reader called with the default budget of 2048 bytes on a
    line of 2100 characters: whatever the segmentation of the transport,
    it consumes the whole line and returns its 2100 characters, not a blank
    string; the stream is left right behind the terminator. *)
Theorem read_line_over_budget (avail : nat) (arrivals : list nat)
    (out : std_string) (wr_err : option std_string) (rest : std_string) :
  ∃ s', read_line 3 2048
          (Sock (replicate 2100 "a"%char ++ REDIS_LBR ++ rest) avail arrivals out wr_err)
        = (Ok (replicate 2100 "a"%char), s')
        ∧ replicate 2100 "a"%char ≠ ([] : std_string)
        ∧ sk_in s' = rest.
Proof.
  destruct (read_line_found 3 2048 (replicate 2100 "a"%char ++ [CR]) rest
              (Sock (replicate 2100 "a"%char ++ REDIS_LBR ++ rest) avail arrivals out wr_err))
    as (s' & Hrun & Hin & _); [done | done | | |].
  - rewrite elem_of_app, list_elem_of_singleton, elem_of_replicate.
    by intros [[? _]|?].
  - simpl sk_in. by rewrite <- app_assoc.
  - exists s'. split_and!; [|done|done].
    rewrite rtrim_app_ws in Hrun by (constructor; [by left | constructor]).
    rewrite rtrim_plain in Hrun; [done|].
    apply Forall_replicate. by compute_done.
Qed.

(** The three cases of the line reader, for every stream and
    segmentation: a closed connection without terminator is a connection
    error; otherwise the line up to the terminator is returned without its
    trailing carriage returns and line feeds and nothing behind the
    terminator is consumed; the budget does not change the result. *)
Lemma read_line_cases socket max_size s :
  0 < socket → 0 < max_size →
  (LF ∉ sk_in s →
     ∃ s', read_line socket max_size s
           = (Throw (connection_error (str "connection was closed")), s'))
  ∧ (∀ pre post, sk_in s = pre ++ LF :: post → LF ∉ pre →
       ∃ s' stripped,
         read_line socket max_size s = (Ok (rtrim pre REDIS_LBR), s')
         ∧ sk_in s' = post
         ∧ pre = rtrim pre REDIS_LBR ++ stripped
         ∧ Forall (fun c => c = CR ∨ c = LF) stripped
         ∧ ∀ r c, rtrim pre REDIS_LBR = r ++ [c] → c ≠ CR ∧ c ≠ LF)
  ∧ (∀ max_size', 0 < max_size' →
       read_line socket max_size' s = read_line socket max_size s).
Proof.
  intros Hsock Hmax. split_and!.
  - intros Hno. destruct (read_line_closed socket max_size s) as (s' & ? & _); eauto.
  - intros pre post Hin Hpre.
    destruct (read_line_found socket max_size pre post s) as (s' & Hrun & Hin' & _);
      [done..|].
    destruct (rtrim_spec pre REDIS_LBR) as (t & Ht & Hws & Hlast).
    exists s', t. split_and!; [done..| |].
    + eapply Forall_impl; [exact Hws|]. intros c. unfold REDIS_LBR.
      rewrite !elem_of_cons, elem_of_nil. tauto.
    + intros r c Hr. specialize (Hlast r c Hr). unfold REDIS_LBR in Hlast.
      rewrite !not_elem_of_cons in Hlast. tauto.
  - intros max_size' Hmax'. by apply read_line_budget.
Qed.

(** ** The router *)

Section router.
Implicit Types (c : base_client) (key : std_string) (keys : list std_string).

Lemma get_socket_single con hasher key :
  get_socket (BaseClient [con] hasher) key = Ok (socket con).
Proof. done. Qed.

Lemma get_socket_hashed connections hasher key :
  length connections ≠ 1%nat →
  get_socket (BaseClient connections hasher) key
  = connection_socket (BaseClient connections hasher) (hasher key connections).
Proof. intros Hn. unfold get_socket. simpl. by rewrite bool_decide_false. Qed.

Lemma default_hasher_in_bounds boost_hash key connections :
  connections ≠ [] →
  (default_hasher boost_hash key connections < length connections)%nat.
Proof.
  intros Hne. unfold default_hasher.
  assert (0 < Z.of_nat (length connections)) as Hpos
    by (destruct connections; [done | simpl; lia]).
  pose proof (Z.mod_pos_bound (boost_hash key) _ Hpos). lia.
Qed.
End router.

(** C6. With exactly one connection every key is routed to that connection,
    whatever the hash strategy. With another number of connections the
    connection is the one at the index the hash strategy returns, which for
    the default strategy is [hash(key) mod connection_count], an index
    within bounds. Routing does not depend on the state of the network: the
    same key is routed to the same connection in every state. *)
Theorem get_socket_routing :
  (∀ con hasher key, get_socket (BaseClient [con] hasher) key = Ok (socket con))
  ∧ (∀ connections hasher key,
       (1 < length connections)%nat →
       get_socket (BaseClient connections hasher) key
       = outcome_map socket (at_ connections (hasher key connections)))
  ∧ (∀ connections boost_hash key,
       (1 < length connections)%nat →
       ∃ con,
         connections !! Z.to_nat (boost_hash key `mod` Z.of_nat (length connections))
         = Some con
         ∧ get_socket (BaseClient connections (default_hasher boost_hash)) key
           = Ok (socket con))
  ∧ (∀ c key (n1 n2 : gmap Z socket_state),
       (lift (get_socket c key) n1).1 = (lift (get_socket c key) n2).1
       ∧ (lift (get_socket c key) n1).2 = n1).
Proof.
  split_and!.
  - apply get_socket_single.
  - intros connections hasher key Hn. rewrite get_socket_hashed by lia. done.
  - intros connections boost_hash key Hn.
    rewrite get_socket_hashed by lia.
    assert (connections ≠ []) as Hne by (destruct connections; [simpl in Hn; lia | done]).
    pose proof (default_hasher_in_bounds boost_hash key connections Hne) as Hlt.
    apply lookup_lt_is_Some_2 in Hlt as [con Hcon]. exists con. split; [done|].
    unfold connection_socket, at_. simpl. by rewrite Hcon.
  - done.
Qed.

Lemma get_socket_routing_witness :
  get_socket two_shards (str "foo")
  = outcome_map socket
      (at_ (connections_ two_shards)
           (hasher_ two_shards (str "foo") (connections_ two_shards))).
Proof.
  destruct get_socket_routing as (_ & Hhashed & _).
  apply (Hhashed (connections_ two_shards) (hasher_ two_shards) (str "foo")).
  simpl. lia.
Defined.

(** ** [randomkey] *)

(** C10. The generator of [randomkey] is set up for the closed range from
    [0] to the number of connections, so that this number itself is among
    the values it can draw; with that draw the index is outside the vector
    of connections. For the client with two connections the draw [2] makes
    [randomkey] index the vector out of bounds before anything is sent. *)
Theorem randomkey_draw_out_of_bounds {P : Platform} :
  (∀ c, length (connections_ c) ∈ uniform_int_range 0 (length (connections_ c))
        ∧ connections_ c !! length (connections_ c) = None)
  ∧ (∀ c (n : gmap Z socket_state),
       (1 < length (connections_ c))%nat →
       randomkey c (length (connections_ c)) n = (Undefined, n))
  ∧ 2%nat ∈ uniform_int_range 0 (length (connections_ two_shards))
  ∧ ∀ n : gmap Z socket_state, randomkey two_shards 2 n = (Undefined, n).
Proof.
  assert (∀ c (n : gmap Z socket_state),
            (1 < length (connections_ c))%nat →
            randomkey c (length (connections_ c)) n = (Undefined, n)) as Hgen.
  { intros c n Hn. unfold randomkey.
    assert (connection_socket c (length (connections_ c)) = Undefined) as Hdie.
    { unfold connection_socket, at_. by rewrite lookup_ge_None_2. }
    destruct (lookup_lt_is_Some_2 (connections_ c) 0) as [con0 Hcon0]; [lia|].
    assert (connection_socket c 0 = Ok (socket con0)) as Hfirst.
    { unfold connection_socket, at_. by rewrite Hcon0. }
    rewrite Hfirst, Hdie, bool_decide_true by done. done. }
  split_and!.
  - intros c. split.
    + unfold uniform_int_range. apply elem_of_seq. lia.
    + by apply lookup_ge_None_2.
  - done.
  - by compute_done.
  - intros n. apply (Hgen two_shards n). simpl. lia.
Qed.

Lemma randomkey_draw_out_of_bounds_witness :
  let P := lp64 in
  randomkey two_shards (length (connections_ two_shards)) two_shards_net
  = (Undefined, two_shards_net).
Proof.
  intros P. destruct randomkey_draw_out_of_bounds as (_ & Hgen & _).
  apply (Hgen two_shards two_shards_net). simpl. lia.
Defined.

(** ** Operations on the network *)

Section network.
Context {P : Platform}.
Implicit Types (n : gmap Z socket_state) (fd : Z) (msg : std_string).

Lemma bind_assoc {S A B C} (m : io S A) (f : A → io S B) (g : B → io S C) s :
  bind (bind m f) g s = bind m (fun a => bind (f a) g) s.
Proof. unfold bind. by destruct (m s) as [[] ?]. Qed.

Lemma ensures_any {A} (m : io socket_state A) Q :
  ensures m Q → ensures m (fun _ => True).
Proof. intros Hm. by eapply ensures_weaken. Qed.

Lemma ensures_bind_any {A B} (m : io socket_state A) (k : A → io socket_state B) Q :
  ensures m Q → (∀ a, ensures (k a) (fun _ => True)) →
  ensures (bind m k) (fun _ => True).
Proof. intros Hm Hk. eapply ensures_bind; eauto. Qed.

Lemma recv_single_line_reply_reads socket :
  ensures (recv_single_line_reply_ socket) (fun _ => True).
Proof.
  unfold recv_single_line_reply_.
  eapply ensures_bind_any; [apply read_line_ensures|]. intros line.
  case_bool_decide; [by apply ensures_throw|].
  destruct (starts_with _ _); [by apply ensures_throw|].
  case_bool_decide; [by apply ensures_throw | by apply ensures_ret].
Qed.

Lemma recv_ok_reply_reads socket : ensures (recv_ok_reply_ socket) (fun _ => True).
Proof.
  unfold recv_ok_reply_.
  eapply ensures_bind_any; [apply recv_single_line_reply_reads|]. intros line.
  case_bool_decide; [by apply ensures_throw | by apply ensures_ret].
Qed.

Lemma recv_int_reply_reads socket : ensures (recv_int_reply_ socket) (fun _ => True).
Proof.
  unfold recv_int_reply_.
  eapply ensures_bind_any; [apply read_line_ensures|]. intros line.
  case_bool_decide; [by apply ensures_throw|].
  case_bool_decide; [by apply ensures_throw | by apply ensures_lift].
Qed.

Lemma recv_int_ok_reply_reads socket :
  ensures (recv_int_ok_reply_ socket) (fun _ => True).
Proof.
  unfold recv_int_ok_reply_.
  eapply ensures_bind_any; [apply recv_int_reply_reads|]. intros v.
  case_bool_decide; [by apply ensures_throw | by apply ensures_ret].
Qed.

Lemma recv_bulk_replies_reads {C} (push : C → std_string → C) socket rounds out :
  ensures (recv_bulk_replies_ push socket rounds out) (fun _ => True).
Proof.
  revert out. induction rounds as [|rounds IH]; intros out; simpl.
  - by apply ensures_ret.
  - eapply ensures_bind_any; [apply recv_bulk_reply_ensures|]. intros v. apply IH.
Qed.

Lemma recv_multi_bulk_reply_reads socket out :
  ensures (recv_multi_bulk_reply_ socket out) (fun _ => True).
Proof.
  unfold recv_multi_bulk_reply_.
  eapply ensures_bind_any; [apply recv_bulk_reply_prefix_ensures|]. intros len.
  destruct (len =? -1); [by apply ensures_throw|].
  eapply ensures_bind_any; [by apply (ensures_lift _ (fun _ => True))|]. intros _.
  eapply ensures_bind_any; [apply recv_bulk_replies_reads|]. intros v.
  by apply ensures_ret.
Qed.

Lemma recv_multi_bulk_reply_set_reads socket out :
  ensures (recv_multi_bulk_reply_set_ socket out) (fun _ => True).
Proof.
  unfold recv_multi_bulk_reply_set_.
  eapply ensures_bind_any; [apply recv_bulk_reply_prefix_ensures|]. intros len.
  destruct (len =? -1); [by apply ensures_throw|].
  eapply ensures_bind_any; [apply recv_bulk_replies_reads|]. intros v.
  by apply ensures_ret.
Qed.

Lemma on_reads_from {A} fd (m : io socket_state A) Q :
  ensures m Q → reads_from fd (on fd m).
Proof.
  intros Hm n. unfold on. destruct (n !! fd) as [s|] eqn:E.
  - destruct (Hm s) as [_ Hout]. destruct (m s) as [r s']. simpl in *. split.
    + intros fd' Hne. by rewrite lookup_insert_ne.
    + exists s'. by rewrite lookup_insert_eq.
  - done.
Qed.

Lemma reads_from_ret {A} fd (a : A) : reads_from fd (ret a).
Proof. intros n. simpl. split; [done|]. destruct (n !! fd); eauto using same_output_refl. Qed.

Lemma reads_from_bind {A B} fd (m : io _ A) (k : A → io _ B) :
  reads_from fd m → (∀ a, reads_from fd (k a)) → reads_from fd (bind m k).
Proof.
  intros Hm Hk n. unfold bind. destruct (Hm n) as [Hother Hfd].
  destruct (m n) as [[a|e| |] n1]; simpl in *; [|done..].
  destruct (Hk a n1) as [Hother' Hfd']. split.
  - intros fd' Hne. by rewrite Hother', Hother.
  - destruct (n !! fd) as [s|] eqn:E.
    + destruct Hfd as (s1 & Hs1 & Hout1). rewrite Hs1 in Hfd'.
      destruct Hfd' as (s' & Hs' & Hout'). eauto using same_output_trans.
    + subst n1. by rewrite E in Hfd'.
Qed.
End network.

(** ** Routing of several keys *)

Section shards.
Implicit Types (c : base_client) (keys : list std_string)
  (n : gmap Z socket_state) (fd : Z).

Lemma valid_client_routable c key :
  valid_client c → ∃ fd, get_socket c key = Ok fd.
Proof.
  intros [Hne Hidx]. unfold get_socket, connection_socket, at_.
  case_bool_decide as Hone.
  - destruct (connections_ c) as [|con ?]; [done|]. simpl. eauto.
  - destruct (lookup_lt_is_Some_2 _ _ (Hidx key)) as [con ->]. simpl. eauto.
Qed.

Lemma same_shard_not_cross c keys fd : same_shard c keys fd → ¬ cross_shard c keys.
Proof.
  intros Hsame (k1 & k2 & fd1 & fd2 & Hk1 & Hk2 & H1 & H2 & Hne).
  rewrite (Hsame k1 Hk1) in H1. rewrite (Hsame k2 Hk2) in H2. congruence.
Qed.

Lemma same_shard_unique c keys fd fd' :
  keys ≠ [] → same_shard c keys fd → same_shard c keys fd' → fd = fd'.
Proof.
  destruct keys as [|key keys]; [done|]. intros _ H1 H2.
  specialize (H1 key (list_elem_of_here _ _)).
  specialize (H2 key (list_elem_of_here _ _)). congruence.
Qed.

Lemma cross_shard_mono c keys keys' :
  keys ⊆ keys' → cross_shard c keys → cross_shard c keys'.
Proof.
  intros Hsub (k1 & k2 & fd1 & fd2 & Hk1 & Hk2 & H). exists k1, k2, fd1, fd2. auto.
Qed.

(** The loop over the keys: either every key is routed to the descriptor
    that is returned, or the loop throws and two keys differ. *)
Lemma get_socket_loop_spec c keys i sock :
  (∀ key, key ∈ keys → ∃ fd, get_socket c key = Ok fd) →
  (∃ fd, get_socket_loop c keys i sock = Ok fd ∧ same_shard c keys fd
         ∧ (keys = [] ∨ (0 < i)%nat → fd = sock))
  ∨ (get_socket_loop c keys i sock = Throw not_possible_in_cluster_mode
     ∧ (cross_shard c keys
        ∨ ((0 < i)%nat ∧ ∃ key fd, key ∈ keys ∧ get_socket c key = Ok fd ∧ fd ≠ sock))).
Proof.
  revert i sock. induction keys as [|key keys IH]; intros i sock Hroutable.
  - left. exists sock. split_and!; [done | by intros ? ?%elem_of_nil | done].
  - destruct (Hroutable key) as [cur Hcur]; [left|]. simpl. rewrite Hcur.
    destruct (bool_decide (0 < i)%nat && bool_decide (sock ≠ cur)) eqn:Hcheck.
    + apply andb_true_iff in Hcheck as [Hi%bool_decide_eq_true Hne%bool_decide_eq_true].
      right. split; [done|]. right. split; [done|]. exists key, cur.
      split_and!; [left | done | done].
    + destruct (IH (S i) cur) as [(fd & -> & Hsame & Hfd)|[-> Hcross]].
      { intros k Hk. apply Hroutable. by right. }
      * assert (fd = cur) as -> by (apply Hfd; right; lia).
        left. exists cur. split_and!; [done | |].
        -- intros k [->|Hk]%elem_of_cons; [done | by apply Hsame].
        -- intros [|Hi]; [done|].
           apply andb_false_iff in Hcheck as [Hc|Hc]; apply bool_decide_eq_false in Hc;
             [lia|]. by destruct (decide (sock = cur)).
      * right. split; [done|]. left.
        destruct Hcross as [Hcross|(_ & k & fd & Hk & Hfd & Hne)].
        -- eapply cross_shard_mono; [|done]. by apply list_subseteq_cons.
        -- exists key, k, cur, fd. split_and!; [left | by right | done..].
Qed.

Lemma get_socket_keys_spec c keys :
  keys ≠ [] → (∀ key, key ∈ keys → ∃ fd, get_socket c key = Ok fd) →
  (∃ fd, get_socket_keys c keys = Ok fd ∧ same_shard c keys fd)
  ∨ (get_socket_keys c keys = Throw not_possible_in_cluster_mode ∧ cross_shard c keys).
Proof.
  intros Hne Hroutable. unfold get_socket_keys. rewrite bool_decide_false by done.
  destruct (get_socket_loop_spec c keys 0 (-1) Hroutable)
    as [(fd & ? & ? & _)|[? [?|[? _]]]]; [eauto | eauto | lia].
Qed.

Lemma send_then_read {A} fd msg (k : io (gmap Z socket_state) A) n :
  reads_from fd k →
  sent_on fd msg n ((send_ fd msg ;;; k) n).1 ((send_ fd msg ;;; k) n).2.
Proof.
  intros Hk. unfold sent_on, bind, send_, anetWrite.
  destruct (n !! fd) as [s|] eqn:E; [|done].
  destruct (sk_wr_err s) as [err|] eqn:Ew; [done|].
  destruct (Hk (<[fd:=Sock (sk_in s) (sk_avail s) (sk_arrivals s) (sk_out s ++ msg) None]> n))
    as [Hother Hfd].
  rewrite lookup_insert_eq in Hfd. destruct Hfd as (s' & Hs' & [Hout _]). split.
  - intros fd' Hne. rewrite Hother by done. by rewrite lookup_insert_ne.
  - exists s'. split; [done|]. by rewrite Hout.
Qed.

Lemma sent_on_void {A} fd msg n (m : io (gmap Z socket_state) A) :
  sent_on fd msg n (m n).1 (m n).2 → sent_on fd msg n (void m n).1 (void m n).2.
Proof.
  unfold sent_on, void, bind.
  destruct (m n) as [[a|e| |] n']; simpl;
    intros [Hother Hfd]; (split; [done|]);
    (destruct (n !! fd) as [s|]; [destruct (sk_wr_err s)|]); try done;
    destruct Hfd as [-> Heq]; (discriminate Heq || (injection Heq as ->; done)).
Qed.

Lemma void_throw {A} (m : io (gmap Z socket_state) A) n e n' :
  m n = (Throw e, n') → void m n = (Throw e, n').
Proof. unfold void. apply bind_throw. Qed.

(** The three ways in which the operations route their keys. *)
Lemma keys_shape {A} c keys (body : Z → io (gmap Z socket_state) A) msg n :
  keys ≠ [] → valid_client c →
  (∀ fd, sent_on fd msg n (body fd n).1 (body fd n).2) →
  (∃ fd, same_shard c keys fd
         ∧ sent_on fd msg n
             ((socket <- lift (get_socket_keys c keys) ;; body socket) n).1
             ((socket <- lift (get_socket_keys c keys) ;; body socket) n).2)
  ∨ (cross_shard c keys
     ∧ (socket <- lift (get_socket_keys c keys) ;; body socket) n
       = (Throw not_possible_in_cluster_mode, n)).
Proof.
  intros Hne Hvalid Hbody.
  destruct (get_socket_keys_spec c keys Hne) as [(fd & Hfd & Hsame)|[Hthrow Hcross]].
  { intros key _. by apply valid_client_routable. }
  - left. exists fd. split; [done|]. unfold bind, lift. rewrite Hfd. apply Hbody.
  - right. split; [done|]. unfold bind, lift. by rewrite Hthrow.
Qed.

Lemma pair_shape {A} c key1 key2 e (differ : Z → Z → bool)
    (body : Z → io (gmap Z socket_state) A) msg n :
  valid_client c →
  (∀ a b, differ a b = bool_decide (a ≠ b)) →
  (∀ fd, sent_on fd msg n (body fd n).1 (body fd n).2) →
  let m := (socket1 <- lift (get_socket c key1) ;;
            socket2 <- lift (get_socket c key2) ;;
            if differ socket1 socket2 then throw e else body socket1) in
  (∃ fd, same_shard c [key1; key2] fd ∧ sent_on fd msg n (m n).1 (m n).2)
  ∨ (cross_shard c [key1; key2] ∧ m n = (Throw e, n)).
Proof.
  intros Hvalid Hdiffer Hbody m. subst m.
  destruct (valid_client_routable c key1 Hvalid) as [fd1 H1].
  destruct (valid_client_routable c key2 Hvalid) as [fd2 H2].
  unfold bind, lift. rewrite H1, H2, Hdiffer. case_bool_decide as Hne.
  - right. split; [|done]. exists key1, key2, fd1, fd2.
    split_and!; [left | right; left | done..].
  - left. exists fd1. split; [|apply Hbody].
    assert (fd2 = fd1) as -> by (by destruct (decide (fd1 = fd2))).
    intros k [->|[->|[]%elem_of_nil]%elem_of_cons]%elem_of_cons; done.
Qed.

Lemma store_shape {A} c dstkey keys e (differ : Z → Z → bool)
    (body : Z → Z → io (gmap Z socket_state) A) msg n :
  keys ≠ [] → valid_client c →
  (∀ a b, differ a b = bool_decide (a ≠ b)) →
  (∀ fd, sent_on fd msg n (body fd fd n).1 (body fd fd n).2) →
  let m := (socket <- lift (get_socket c dstkey) ;;
            source_sockets <- lift (get_socket_keys c keys) ;;
            if differ socket source_sockets then throw e
            else body socket source_sockets) in
  (∃ fd, same_shard c (dstkey :: keys) fd ∧ sent_on fd msg n (m n).1 (m n).2)
  ∨ (cross_shard c (dstkey :: keys)
     ∧ (m n = (Throw e, n) ∨ m n = (Throw not_possible_in_cluster_mode, n))).
Proof.
  intros Hne Hvalid Hdiffer Hbody m. subst m.
  destruct (valid_client_routable c dstkey Hvalid) as [fd1 H1].
  destruct (get_socket_keys_spec c keys Hne) as [(fd & Hfd & Hsame)|[Hthrow Hcross]].
  { intros key _. by apply valid_client_routable. }
  - unfold bind, lift. rewrite H1, Hfd, Hdiffer. case_bool_decide as Hdiff.
    + right. split; [|by left]. destruct keys as [|key keys]; [done|].
      exists dstkey, key, fd1, fd. split_and!; [left | right; left | done | | done].
      apply Hsame. left.
    + assert (fd = fd1) as -> by (by destruct (decide (fd1 = fd))).
      left. exists fd1. split; [|apply Hbody].
      intros k [->|Hk]%elem_of_cons; [done | by apply Hsame].
  - right. split.
    + eapply cross_shard_mono; [|done]. by apply list_subseteq_cons.
    + right. unfold bind, lift. by rewrite H1, Hthrow.
Qed.
End shards.

(** ** Operations on several keys *)

Section multi_key.
Context {P : Platform}.
Implicit Types (c : base_client) (keys : list std_string)
  (n : gmap Z socket_state) (o : multi_key_op).

Lemma routed_or_rejected_void {A} c (m : io (gmap Z socket_state) A) keys msg n
    (E : exn → Prop) :
  (∃ fd, same_shard c keys fd ∧ sent_on fd msg n (m n).1 (m n).2)
  ∨ (cross_shard c keys ∧ ∃ e, E e ∧ m n = (Throw e, n)) →
  (∃ fd, same_shard c keys fd ∧ sent_on fd msg n (void m n).1 (void m n).2)
  ∨ (cross_shard c keys ∧ ∃ e, E e ∧ void m n = (Throw e, n)).
Proof.
  intros [(fd & ? & ?)|(? & e & ? & ?)]; [left | right].
  - exists fd. eauto using sent_on_void.
  - eauto using void_throw.
Qed.

Lemma request_sent {A} fd (m : makecmd) words
    (k : io (gmap Z socket_state) A) n :
  lines_ m = words → reads_from fd k →
  sent_on fd (request_bytes words) n
    ((send_ fd (makecmd_to_string m) ;;; k) n).1
    ((send_ fd (makecmd_to_string m) ;;; k) n).2.
Proof.
  intros <- Hk. rewrite makecmd_to_string_frames. by apply send_then_read.
Qed.

Lemma differ_refl : ∀ a b : Z, bool_decide (a ≠ b) = bool_decide (a ≠ b).
Proof. done. Qed.

Lemma differ_sym : ∀ a b : Z, bool_decide (b ≠ a) = bool_decide (a ≠ b).
Proof. intros a b. apply bool_decide_ext. split; intros ? ?; by subst. Qed.

Local Ltac reads :=
  repeat first
    [ apply reads_from_ret
    | eapply on_reads_from;
      first [ apply recv_ok_reply_reads | apply recv_int_reply_reads
            | apply recv_int_ok_reply_reads | apply recv_multi_bulk_reply_reads
            | apply recv_multi_bulk_reply_set_reads ]
    | apply reads_from_bind; [|intros ?]
    | case_match ].

Lemma rename_routing c old_name new_name n :
  valid_client c → routed_or_rejected c (op_rename old_name new_name) n.
Proof.
  intros Hvalid.
  set (body := fun source_socket : Z =>
         send_ source_socket
           (makecmd_to_string (makecmd_new (str "RENAME") << old_name << new_name)) ;;;
         on source_socket (recv_ok_reply_ source_socket)).
  assert (∀ fd, sent_on fd (request_bytes (op_words (op_rename old_name new_name))) n
                  (body fd n).1 (body fd n).2) as Hbody
    by (intros fd; apply request_sent; [done | reads]).
  destruct (pair_shape c old_name new_name feature_not_available _ body _ n
              Hvalid differ_refl Hbody) as [?|[? ?]]; [by left | right].
  split; [done|]. exists feature_not_available. split; [by left | done].
Qed.

Lemma renamenx_routing c old_name new_name n :
  valid_client c → routed_or_rejected c (op_renamenx old_name new_name) n.
Proof.
  intros Hvalid.
  apply (routed_or_rejected_void c (renamenx c old_name new_name) _ _ n cluster_mode_error).
  set (body := fun source_socket : Z =>
         send_ source_socket
           (makecmd_to_string (makecmd_new (str "RENAMENX") << old_name << new_name)) ;;;
         v <- on source_socket (recv_int_reply_ source_socket) ;;
         ret (v =? 1)).
  assert (∀ fd, sent_on fd (request_bytes (op_words (op_renamenx old_name new_name))) n
                  (body fd n).1 (body fd n).2) as Hbody
    by (intros fd; apply request_sent; [done | reads]).
  destruct (pair_shape c old_name new_name feature_not_available _ body _ n
              Hvalid differ_refl Hbody) as [?|[? ?]]; [by left | right].
  split; [done|]. exists feature_not_available. split; [by left | done].
Qed.

Lemma smove_routing c srckey dstkey member n :
  valid_client c → routed_or_rejected c (op_smove srckey dstkey member) n.
Proof.
  intros Hvalid.
  set (body := fun src_socket : Z =>
         send_ src_socket
           (makecmd_to_string (makecmd_new (str "SMOVE") << srckey << dstkey << member)) ;;;
         on src_socket (recv_int_ok_reply_ src_socket)).
  assert (∀ fd, sent_on fd (request_bytes (op_words (op_smove srckey dstkey member))) n
                  (body fd n).1 (body fd n).2) as Hbody
    by (intros fd; apply request_sent; [done | reads]).
  destruct (pair_shape c srckey dstkey function_not_available
              (fun a b => bool_decide (b ≠ a)) body _ n
              Hvalid differ_sym Hbody) as [?|[? ?]]; [by left | right].
  split; [done|]. exists function_not_available. split; [by right; left | done].
Qed.

Lemma set_query_routing (name : string) c keys out n :
  keys ≠ [] → valid_client c →
  (∃ fd, same_shard c keys fd
         ∧ sent_on fd (request_bytes (str name :: keys)) n
             (void (set_query name c keys out) n).1
             (void (set_query name c keys out) n).2)
  ∨ (cross_shard c keys
     ∧ ∃ e, cluster_mode_error e ∧ void (set_query name c keys out) n = (Throw e, n)).
Proof.
  intros Hne Hvalid. apply routed_or_rejected_void.
  set (body := fun socket : Z =>
         send_ socket (makecmd_to_string (makecmd_new (str name) << keys)) ;;;
         on socket (recv_multi_bulk_reply_set_ socket out)).
  assert (∀ fd, sent_on fd (request_bytes (str name :: keys)) n
                  (body fd n).1 (body fd n).2) as Hbody
    by (intros fd; apply request_sent; [done | reads]).
  destruct (keys_shape c keys body _ n Hne Hvalid Hbody) as [?|[? ?]];
    [by left | right].
  split; [done|]. exists not_possible_in_cluster_mode.
  split; [by do 3 right | done].
Qed.

Lemma set_store_routing (name : string) c dstkey keys n :
  keys ≠ [] → valid_client c →
  (∃ fd, same_shard c (dstkey :: keys) fd
         ∧ sent_on fd (request_bytes (str name :: dstkey :: keys)) n
             (void (set_store name c dstkey keys) n).1
             (void (set_store name c dstkey keys) n).2)
  ∨ (cross_shard c (dstkey :: keys)
     ∧ ∃ e, cluster_mode_error e ∧ void (set_store name c dstkey keys) n = (Throw e, n)).
Proof.
  intros Hne Hvalid. apply routed_or_rejected_void.
  set (body := fun socket _ : Z =>
         send_ socket (makecmd_to_string (makecmd_new (str name) << dstkey << keys)) ;;;
         on socket (recv_int_reply_ socket)).
  assert (∀ fd, sent_on fd (request_bytes (str name :: dstkey :: keys)) n
                  (body fd fd n).1 (body fd fd n).2) as Hbody
    by (intros fd; apply request_sent; [done | reads]).
  destruct (store_shape c dstkey keys not_available _ body _ n Hne Hvalid
              differ_refl Hbody) as [?|[? [?|?]]]; [by left | right..].
  - split; [done|]. exists not_available. split; [by right; right; left | done].
  - split; [done|]. exists not_possible_in_cluster_mode.
    split; [by do 3 right | done].
Qed.

Lemma blpop_routing c keys timeout n :
  keys ≠ [] → valid_client c →
  (∃ fd, same_shard c keys fd
         ∧ sent_on fd (request_bytes (str "BLPOP" :: keys ++ [dec_of_long timeout])) n
             (void (blpop c keys timeout) n).1
             (void (blpop c keys timeout) n).2)
  ∨ (cross_shard c keys
     ∧ ∃ e, cluster_mode_error e
            ∧ void (blpop c keys timeout) n = (Throw e, n)).
Proof.
  intros Hne Hvalid. apply routed_or_rejected_void.
  set (body := fun socket : Z =>
         send_ socket
           (makecmd_to_string
              (foldl (fun m key => m << key) (makecmd_new (str "BLPOP")) keys
               << timeout)) ;;;
         reply <- on socket (recv_multi_bulk_reply_ socket []) ;;
         match reply.2 with
         | [k; v] => ret (k, v)
         | _ => ret ([], missing_value)
         end).
  assert (∀ fd, sent_on fd (request_bytes (str "BLPOP" :: keys ++ [dec_of_long timeout])) n
                  (body fd n).1 (body fd n).2) as Hbody.
  { intros fd. apply request_sent; [|reads].
    cbn [shl shl_long append lines_]. by rewrite lines_insert_all. }
  destruct (keys_shape c keys body _ n Hne Hvalid Hbody) as [?|[? ?]];
    [by left | right].
  split; [done|]. exists not_possible_in_cluster_mode.
  split; [by do 3 right | done].
Qed.
End multi_key.

Section multi_key_ops.
Context {P : Platform}.
Implicit Types (c : base_client) (keys : list std_string)
  (n : gmap Z socket_state) (o : multi_key_op).

Lemma zset_store_routing (name : string) c dstkey keys weights aggragate n :
  keys ≠ [] → weights = [] ∨ length keys = length weights → valid_client c →
  (∃ fd, same_shard c (dstkey :: keys) fd
         ∧ sent_on fd
             (request_bytes
                (str name :: dstkey :: dec_of_size (length keys) :: keys
                   ++ match weights with
                      | [] => []
                      | _ :: _ => dec_of_size (length weights) :: weights
                      end
                   ++ str "AGGREGATE" :: aggregate_words aggragate)) n
             (void (zset_store name c dstkey keys weights aggragate) n).1
             (void (zset_store name c dstkey keys weights aggragate) n).2)
  ∨ (cross_shard c (dstkey :: keys)
     ∧ ∃ e, cluster_mode_error e
            ∧ void (zset_store name c dstkey keys weights aggragate) n = (Throw e, n)).
Proof.
  intros Hne Hweights Hvalid. apply routed_or_rejected_void.
  set (body := fun _ socket : Z =>
         let m := makecmd_new (str name) << dstkey << length keys << keys in
         m <- (if bool_decide (0 < length weights)%nat
               then if bool_decide (length keys ≠ length weights) then abort
                    else ret (m << length weights << weights)
               else ret m) ;;
         let m := m << str "AGGREGATE" in
         let m := foldl (fun m w => m << w) m (aggregate_words aggragate) in
         send_ socket (makecmd_to_string m) ;;;
         on socket (recv_int_reply_ socket)).
  assert (∀ fd, sent_on fd
                  (request_bytes
                     (str name :: dstkey :: dec_of_size (length keys) :: keys
                        ++ match weights with
                           | [] => []
                           | _ :: _ => dec_of_size (length weights) :: weights
                           end
                        ++ str "AGGREGATE" :: aggregate_words aggragate)) n
                  (body fd fd n).1 (body fd fd n).2) as Hbody.
  { intros fd. subst body. cbv beta zeta.
    destruct weights as [|w weights].
    - rewrite bool_decide_false by (simpl; lia).
      apply request_sent; [|eapply on_reads_from, recv_int_reply_reads].
      rewrite lines_insert_all. simpl. by rewrite <- ?app_assoc.
    - rewrite bool_decide_true by (simpl; lia).
      destruct Hweights as [|Hlen]; [done|].
      rewrite bool_decide_false by (by intros ?).
      apply request_sent; [|eapply on_reads_from, recv_int_reply_reads].
      rewrite lines_insert_all. simpl. rewrite <- ?app_assoc. simpl.
      by rewrite <- ?app_assoc. }
  destruct (store_shape c dstkey keys feature_not_available
              (fun a b => bool_decide (b ≠ a)) body _ n Hne Hvalid
              differ_sym Hbody) as [?|[? [?|?]]]; [by left | right..].
  - split; [done|]. exists feature_not_available. split; [by left | done].
  - split; [done|]. exists not_possible_in_cluster_mode.
    split; [by do 3 right | done].
Qed.

Lemma op_routing c o n :
  valid_client c → op_asserts o → routed_or_rejected c o n.
Proof.
  intros Hvalid Hasserts. destruct o; simpl in Hasserts.
  - by apply rename_routing.
  - by apply renamenx_routing.
  - by apply smove_routing.
  - by apply (set_query_routing "SINTER").
  - by apply (set_query_routing "SUNION").
  - by apply (set_query_routing "SDIFF").
  - by apply (set_store_routing "SINTERSTORE").
  - by apply (set_store_routing "SUNIONSTORE").
  - by apply (set_store_routing "SDIFFSTORE").
  - by apply blpop_routing.
  - destruct Hasserts. by apply (zset_store_routing "ZUNIONSTORE").
  - destruct Hasserts. by apply (zset_store_routing "ZINTERSTORE").
Qed.

Lemma op_keys_nonempty o : op_asserts o → op_keys o ≠ [].
Proof. destruct o; simpl; try done; by intros []. Qed.
End multi_key_ops.

(** C7, as amended. For the operations that route several keys ([rename],
    [renamenx], [smove], the set queries [sinter], [sunion], [sdiff], the
    set stores [sinterstore], [sunionstore], [sdiffstore], [blpop] on a key
    vector, and the sorted-set stores [zunionstore], [zinterstore]), called
    on a constructed client with arguments that pass the assertions of the
    source (a key vector that is not empty; for the sorted-set stores a
    weight vector that is empty or as long as the key vector): if two of the keys
    are routed to different connections, the call throws the error of the
    router for requests that do not fit the cluster mode, and the network
    is exactly as before, so nothing was sent or read on any connection.
    If all keys are routed to one connection, the request, in the wire
    format, is appended to the output of that connection and no other
    connection is touched (or, if writing fails, the connection error
    leaves the network as it was). *)
Theorem multi_key_routing {P : Platform} (c : base_client) (o : multi_key_op)
    (n : gmap Z socket_state) :
  valid_client c → op_asserts o →
  (cross_shard c (op_keys o) →
     ∃ e, cluster_mode_error e ∧ run_op c o n = (Throw e, n))
  ∧ (∀ fd, same_shard c (op_keys o) fd →
       sent_on fd (request_bytes (op_words o)) n (run_op c o n).1 (run_op c o n).2).
Proof.
  intros Hvalid Hasserts.
  destruct (op_routing c o n Hvalid Hasserts) as [(fd & Hsame & Hsent)|[Hcross Hthrow]].
  - split.
    + intros Hcross. by destruct (same_shard_not_cross c _ fd Hsame).
    + intros fd' Hsame'.
      by rewrite (same_shard_unique c _ fd' fd (op_keys_nonempty o Hasserts) Hsame' Hsame).
  - split; [done|]. intros fd Hsame. by destruct (same_shard_not_cross c _ fd Hsame).
Qed.

Lemma multi_key_routing_witness :
  let P := lp64 in
  ∃ e, cluster_mode_error e
       ∧ run_op two_shards (op_rename (str "a") (str "b")) two_shards_net
         = (Throw e, two_shards_net).
Proof.
  intros P.
  destruct (multi_key_routing two_shards (op_rename (str "a") (str "b")) two_shards_net)
    as [Hrejected _].
  - split; [done|]. intros key. by apply default_hasher_in_bounds.
  - exact I.
  - apply Hrejected. exists (str "a"), (str "b"), 3, 4.
    split_and!; [left | right; left | reflexivity | reflexivity | done].
Defined.

(** ** Whole-client operations *)

Section whole_client.
Implicit Types (c : base_client) (n : gmap Z socket_state) (s : socket_state).


End whole_client.



(** [mset] on a vector of pairs is an operation on several keys that is
    not rejected when its keys are on different connections: it sends one
    request to each connection. *)
Lemma mset_pairs_fans_out :
  get_socket two_shards (str "a") = Ok 3
  ∧ get_socket two_shards (str "b") = Ok 4
  ∧ mset_pairs two_shards [(str "a", str "1"); (str "b", str "2")] two_shards_net
    = (Ok tt,
       <[3 := Sock [] 0 [] (request_bytes [str "MSET"; str "a"; str "1"]) None]>
         (<[4 := Sock [] 0 [] (request_bytes [str "MSET"; str "b"; str "2"]) None]> ∅)).
Proof. split_and!; by vm_compute. Qed.

(** ** [mset] on two vectors *)

Section mset.
Implicit Types (c : base_client) (keys values : list std_string)
  (n : gmap Z socket_state).

Lemma foldM_ext {S A B} (f g : B → A → io S B) (l : list A) (b : B) (s : S) :
  (∀ b a s, a ∈ l → f b a s = g b a s) → foldM f l b s = foldM g l b s.
Proof.
  revert b s. induction l as [|a l IH]; intros b s Hfg; [done|].
  simpl. unfold bind. rewrite Hfg by left.
  destruct (g b a s) as [[b'| | |] s']; [|done..].
  apply IH. intros ? ? ? ?. apply Hfg. by right.
Qed.

(** Keys on different connections: [mset] throws in the first round of
    its loop, before anything is sent. *)
Lemma mset_cross_shard c keys values n :
  valid_client c → length keys = length values → cross_shard c keys →
  mset c keys values n = (Throw not_possible_in_cluster_mode, n).
Proof.
  intros Hvalid Hlen Hcross. unfold mset.
  rewrite bool_decide_false by (by intros ?).
  assert (keys ≠ []) as Hne.
  { intros ->. destruct Hcross as (? & _ & _ & _ & []%elem_of_nil & _). }
  destruct (get_socket_keys_spec c keys Hne) as [(fd & _ & Hsame)|[Hthrow _]].
  { intros key _. by apply valid_client_routable. }
  { by destruct (same_shard_not_cross c keys fd Hsame). }
  destruct keys as [|key keys]; [done|].
  cbn [length seq foldM]. unfold bind at 1 2 3, lift at 1. by rewrite Hthrow.
Qed.

(** Keys on one connection: [mset] does what the variant that routes
    every pair by its own key does. *)
Lemma mset_same_shard c keys values n fd :
  same_shard c keys fd →
  mset c keys values n = mset_routed_by_key c keys values n.
Proof.
  intros Hsame. unfold mset, mset_routed_by_key.
  case_bool_decide as Hlen; [done|].
  destruct (decide (keys = [])) as [->|Hne]; [done|].
  destruct (get_socket_keys_spec c keys Hne) as [(fd' & Hfd & Hsame')|[_ Hcross]].
  { intros key Hkey. exists fd. by apply Hsame. }
  2: { by destruct (same_shard_not_cross c keys fd Hsame). }
  rewrite (same_shard_unique c keys fd' fd Hne Hsame' Hsame) in Hfd.
  unfold bind at 1 5.
  rewrite (foldM_ext _
             (fun socket_commands i =>
                key <- lift (at_ keys i) ;;
                value <- lift (at_ values i) ;;
                socket <- lift (get_socket c key) ;;
                ret (upsert socket (add_pair "MSET" key value) socket_commands))); [done|].
  intros sc i s Hi%elem_of_seq. unfold bind, lift, at_. rewrite Hfd.
  destruct (lookup_lt_is_Some_2 keys i) as [key Hkey]; [lia|].
  destruct (lookup_lt_is_Some_2 values i) as [value Hvalue]; [lia|].
  rewrite Hkey, Hvalue.
  by rewrite (Hsame key) by (by eapply list_elem_of_lookup_2).
Qed.
End mset.

(** C9. On the client with two connections the keys [a] and [b] are routed
    to different connections. [mset] on the vectors [a, b] and [1, 2]
    throws the error of the router and leaves the network as it was, while
    the variant that routes the [i]-th pair by [keys[i]], like [mset] on a
    vector of pairs, sends [MSET a 1] to the one connection and [MSET b 2]
    to the other and returns: the two do not behave alike. *)
Theorem mset_rejects_cross_shard_keys :
  get_socket two_shards (str "a") = Ok 3
  ∧ get_socket two_shards (str "b") = Ok 4
  ∧ mset two_shards [str "a"; str "b"] [str "1"; str "2"] two_shards_net
    = (Throw (runtime_error (str "not possible in cluster mode")), two_shards_net)
  ∧ mset_routed_by_key two_shards [str "a"; str "b"] [str "1"; str "2"] two_shards_net
    = (Ok tt,
       <[3 := Sock [] 0 [] (request_bytes [str "MSET"; str "a"; str "1"]) None]>
         (<[4 := Sock [] 0 [] (request_bytes [str "MSET"; str "b"; str "2"]) None]> ∅))
  ∧ mset_pairs two_shards [(str "a", str "1"); (str "b", str "2")] two_shards_net
    = mset_routed_by_key two_shards [str "a"; str "b"] [str "1"; str "2"] two_shards_net
  ∧ mset two_shards [str "a"; str "b"] [str "1"; str "2"] two_shards_net
    ≠ mset_routed_by_key two_shards [str "a"; str "b"] [str "1"; str "2"] two_shards_net.
Proof.
  assert (mset two_shards [str "a"; str "b"] [str "1"; str "2"] two_shards_net
          = (Throw (runtime_error (str "not possible in cluster mode")), two_shards_net))
    as Hmset by (by vm_compute).
  assert (mset_routed_by_key two_shards [str "a"; str "b"] [str "1"; str "2"] two_shards_net
          = (Ok tt,
             <[3 := Sock [] 0 [] (request_bytes [str "MSET"; str "a"; str "1"]) None]>
               (<[4 := Sock [] 0 [] (request_bytes [str "MSET"; str "b"; str "2"]) None]> ∅)))
    as Hrouted by (by vm_compute).
  split_and!; [by vm_compute | by vm_compute | done | done | by vm_compute |].
  rewrite Hmset, Hrouted. discriminate.
Qed.

(** ** The codec, end to end *)

Lemma to_lu_of_nat n :
  DecimalNat.Unsigned.to_lu n = DecimalPos.Unsigned.to_lu (N.of_nat n).
Proof.
  induction n as [|n IH]; [done|].
  rewrite Nat2N.inj_succ, DecimalPos.Unsigned.to_lu_succ, <- IH. done.
Qed.

Lemma to_uint_of_nat n : Nat.to_uint n = N.to_uint (N.of_nat n).
Proof.
  rewrite DecimalNat.Unsigned.to_uint_alt, to_lu_of_nat.
  by destruct (N.of_nat n).
Qed.

(** A size and the same number as a [long] print alike. *)
Lemma dec_of_size_long n : dec_of_size n = dec_of_long (Z.of_nat n).
Proof.
  unfold dec_of_size, dec_of_long. rewrite to_uint_of_nat.
  by destruct n.
Qed.

Lemma bulk_frame_reply arg : bulk_frame arg = bulk_reply_bytes (Some arg).
Proof. unfold bulk_frame, bulk_reply_bytes. by rewrite dec_of_size_long. Qed.

Lemma request_bytes_reply words :
  request_bytes words = multi_bulk_reply_bytes (Some <$> words).
Proof.
  unfold request_bytes, multi_bulk_reply_bytes.
  rewrite length_fmap, dec_of_size_long, <- list_fmap_compose.
  do 4 f_equal. apply list_fmap_ext. intros _ w _. apply bulk_frame_reply.
Qed.

(** A multi-bulk reply of the server is decoded to its items. *)
Lemma recv_multi_bulk_reply_items {P : Platform} socket items rest out s :
  0 < socket → Z.of_nat (length out) + Z.of_nat (length items) ≤ vector_max_alloc →
  Forall payload_fits items →
  sk_in s = multi_bulk_reply_bytes items ++ rest →
  ∃ s', recv_multi_bulk_reply_ socket out s
        = (Ok (Z.of_nat (length items), out ++ (bulk_value <$> items)), s')
        ∧ sk_in s' = rest ∧ same_output s s'.
Proof.
  intros Hsock Hroom Hfit Hin.
  pose proof vector_max_alloc_bound. pose proof vector_max_size_bound.
  apply recv_multi_bulk_reply_room; [done | done | | lia |].
  - apply reserve_room; lia.
  - rewrite Hin. unfold multi_bulk_reply_bytes. by rewrite <- !(assoc_L (++)).
Qed.

(** X1. What the encoder writes for a request is a multi-bulk message that
    the decoder of multi-bulk replies reads back, when the platform
    provides the room the decoder asks for (the output vector can take the
    words, and the array for each word, its two delimiter bytes and a
    final NUL can be allocated): the decoder returns the number of words
    and appends the command name and the arguments, byte for byte and in
    order, and stops right behind the request. *)
Theorem request_round_trip {P : Platform} (socket : Z) (s : socket_state)
    (cmd_name : std_string) (args out : list std_string) (rest : std_string) :
  0 < socket →
  Z.of_nat (length out) + Z.of_nat (S (length args)) ≤ vector_max_alloc →
  Forall (fun word => Z.of_nat (length word) + 3 ≤ max_new) (cmd_name :: args) →
  sk_in s = makecmd_to_string (command cmd_name args) ++ rest →
  ∃ s', recv_multi_bulk_reply_ socket out s
        = (Ok (Z.of_nat (S (length args)), out ++ cmd_name :: args), s')
        ∧ sk_in s' = rest.
Proof.
  intros Hsock Hlen Hfit Hin.
  rewrite makecmd_to_string_frames, lines_command, request_bytes_reply in Hin.
  destruct (recv_multi_bulk_reply_items socket (Some <$> cmd_name :: args) rest out s)
    as (s' & Hrun & Hin' & _).
  - done.
  - by rewrite length_fmap.
  - apply Forall_fmap. eapply Forall_impl; [exact Hfit|]. by intros w Hw.
  - done.
  - exists s'. rewrite length_fmap, <- list_fmap_compose in Hrun.
    rewrite (list_fmap_ext _ id (cmd_name :: args)) in Hrun by done.
    by rewrite list_fmap_id in Hrun.
Qed.

Lemma request_round_trip_witness :
  let P := lp64 in
  ∃ s', recv_multi_bulk_reply_ 3 []
          (Sock (makecmd_to_string (command (str "SET") [str "k"; [CR; LF; NUL]])
                   ++ str "+OK") 0 [5; 1]%nat [] None)
        = (Ok (3, [str "SET"; str "k"; [CR; LF; NUL]]), s')
        ∧ sk_in s' = str "+OK".
Proof.
  intros P.
  apply (request_round_trip 3 _ (str "SET") [str "k"; [CR; LF; NUL]] [] (str "+OK")).
  - done.
  - compute_done.
  - repeat (apply Forall_cons_2; [compute_done|]). apply Forall_nil_2.
  - done.
Defined.

(** *** Status replies *)

Lemma starts_with_app pre t : starts_with pre (pre ++ t) = true.
Proof.
  induction pre as [|p pre IH]; [done|]. cbn [starts_with app].
  by rewrite bool_decide_eq_true_2, IH.
Qed.

Lemma starts_with_prefix pre s : starts_with pre s = true → ∃ t, s = pre ++ t.
Proof.
  revert s. induction pre as [|p pre IH]; intros s H; [by exists s|].
  destruct s as [|c s]; [done|]. cbn [starts_with] in H.
  apply andb_prop in H as [Hc Hs]. apply bool_decide_eq_true_1 in Hc as ->.
  destruct (IH _ Hs) as [t ->]. by exists t.
Qed.

(** The line of a reply whose text holds no line break. *)
Lemma reply_line socket text rest s :
  0 < socket → Forall (.∉ REDIS_LBR) text → sk_in s = text ++ REDIS_LBR ++ rest →
  ∃ s', read_line socket default_max_size s = (Ok text, s')
        ∧ sk_in s' = rest ∧ same_output s s'.
Proof.
  intros Hsock Htext Hin.
  destruct (read_line_found socket default_max_size (text ++ [CR]) rest s)
    as (s' & Hrun & Hin' & Hout'); [done | done | | | ].
  - intros [H|H]%elem_of_app.
    + rewrite Forall_forall in Htext. apply (Htext _ H), LF_in_LBR.
    + by apply list_elem_of_singleton in H.
  - rewrite Hin. unfold REDIS_LBR. by rewrite <- (assoc_L (++)).
  - exists s'. split; [|done]. rewrite Hrun. do 2 f_equal.
    rewrite rtrim_app_ws; [by apply rtrim_plain|].
    apply Forall_cons_2; [|apply Forall_nil_2]. unfold REDIS_LBR. set_solver.
Qed.

Lemma recv_single_line_reply_text socket text rest s :
  0 < socket → Forall (.∉ REDIS_LBR) text → sk_in s = text ++ REDIS_LBR ++ rest →
  ∃ s', sk_in s' = rest ∧ same_output s s'
        ∧ recv_single_line_reply_ socket s
          = ((if bool_decide (text = []) then
                Throw (protocol_error (str "empty single line reply"))
              else if starts_with REDIS_PREFIX_STATUS_REPLY_ERROR text then
                Throw (protocol_error
                         (if bool_decide (drop 5 text = []) then str "unknown error"
                          else drop 5 text))
              else if bool_decide (front text ≠ REDIS_PREFIX_STATUS_REPLY_VALUE) then
                Throw (protocol_error (str "unexpected prefix for status reply"))
              else Ok (drop 1 text)), s').
Proof.
  intros Hsock Htext Hin.
  destruct (reply_line socket text rest s) as (s' & Hrun & Hin' & Hout'); [done..|].
  exists s'. split; [done|]. split; [done|].
  unfold recv_single_line_reply_. rewrite (bind_ok _ _ _ _ _ Hrun).
  unfold substr, throw, ret.
  change (length REDIS_PREFIX_STATUS_REPLY_ERROR) with 5%nat.
  repeat case_match; done.
Qed.

(** X2. The decoder of status replies, for a reply whose text holds no
    line break: [+<status>] yields the status; [-ERR <message>] raises a
    protocol error that carries the message, or "unknown error" when there
    is none; an empty line and any other first character, which includes
    the error replies that do not begin with [-ERR ] and whose text is
    therefore lost, raise the protocol errors "empty single line reply"
    and "unexpected prefix for status reply". The reply is consumed in
    every case, and nothing behind it. *)
Theorem status_reply_decoding (socket : Z) (s : socket_state)
    (text rest : std_string) :
  0 < socket → Forall (fun c => c ≠ CR ∧ c ≠ LF) text →
  sk_in s = text ++ REDIS_LBR ++ rest →
  ∃ s', sk_in s' = rest ∧ same_output s s'
    ∧ (recv_single_line_reply_ socket s).2 = s'
    ∧ (∀ status, text = REDIS_PREFIX_STATUS_REPLY_VALUE :: status →
         (recv_single_line_reply_ socket s).1 = Ok status)
    ∧ (∀ message, text = str "-ERR " ++ message → message ≠ [] →
         (recv_single_line_reply_ socket s).1 = Throw (protocol_error message))
    ∧ (text = str "-ERR " →
         (recv_single_line_reply_ socket s).1
         = Throw (protocol_error (str "unknown error")))
    ∧ (text = [] →
         (recv_single_line_reply_ socket s).1
         = Throw (protocol_error (str "empty single line reply")))
    ∧ (∀ c tail, text = c :: tail → c ≠ REDIS_PREFIX_STATUS_REPLY_VALUE →
         (∀ message, text ≠ str "-ERR " ++ message) →
         (recv_single_line_reply_ socket s).1
         = Throw (protocol_error (str "unexpected prefix for status reply"))).
Proof.
  intros Hsock Htext Hin.
  destruct (recv_single_line_reply_text socket text rest s)
    as (s' & Hin' & Hout' & Hrun); [done | | done |].
  { eapply Forall_impl; [exact Htext|]. intros c [??]. by apply not_in_LBR. }
  exists s'. rewrite Hrun. cbn [fst snd].
  split; [done|]. split; [done|]. split; [done|].
  split; [|split; [|split; [|split]]].
  - intros status ->. done.
  - intros message -> Hmsg.
    rewrite bool_decide_eq_false_2 by done.
    change REDIS_PREFIX_STATUS_REPLY_ERROR with (str "-ERR ").
    rewrite starts_with_app. cbn [str list_ascii_of_string app drop].
    by rewrite bool_decide_eq_false_2.
  - intros ->. done.
  - intros ->. done.
  - intros c tail -> Hc Hnot.
    rewrite bool_decide_eq_false_2 by done.
    destruct (starts_with REDIS_PREFIX_STATUS_REPLY_ERROR (c :: tail)) eqn:Hpre.
    { apply starts_with_prefix in Hpre as [t Ht]. by destruct (Hnot t). }
    by rewrite bool_decide_eq_true_2.
Qed.

Lemma status_reply_decoding_witness :
  (recv_single_line_reply_ 3
     (Sock (str "-ERR no such thing" ++ REDIS_LBR ++ str ":1") 0 [4]%nat [] None)).1
  = Throw (protocol_error (str "no such thing")).
Proof.
  destruct (status_reply_decoding 3
              (Sock (str "-ERR no such thing" ++ REDIS_LBR ++ str ":1") 0 [4]%nat [] None)
              (str "-ERR no such thing") (str ":1"))
    as (s' & _ & _ & _ & _ & Herr & _).
  - done.
  - repeat (apply Forall_cons_2; [compute_done|]). apply Forall_nil_2.
  - done.
  - by apply (Herr (str "no such thing")).
Defined.

(** *** Integer replies *)

Lemma recv_int_reply_dec socket z rest s :
  0 < socket → LONG_MIN ≤ z ≤ LONG_MAX → sk_in s = int_reply_bytes z ++ rest →
  ∃ s', recv_int_reply_ socket s = (Ok z, s') ∧ sk_in s' = rest ∧ same_output s s'.
Proof.
  intros Hsock Hz Hin.
  destruct (numeral_line socket REDIS_PREFIX_INT_REPLY z rest s)
    as (s' & Hrun & Hin' & Hout'); [done | done | done | |].
  { rewrite Hin. unfold int_reply_bytes. by rewrite <- !(assoc_L (++)). }
  exists s'. split; [|done]. unfold recv_int_reply_.
  rewrite (bind_ok _ _ _ _ _ Hrun). cbn [app].
  rewrite bool_decide_eq_false_2 by done.
  rewrite bool_decide_eq_false_2 by (intros H; by apply H).
  unfold lift, substr. cbn [drop]. rewrite drop_0. by rewrite lexical_cast_long_dec.
Qed.

Lemma recv_int_reply_range socket s z s' :
  recv_int_reply_ socket s = (Ok z, s') → LONG_MIN ≤ z ≤ LONG_MAX.
Proof.
  unfold recv_int_reply_, bind. destruct (read_line _ _ s) as [[line| | |] s1]; try done.
  repeat case_bool_decide; try done. unfold lift. intros [= Hcast _].
  by apply lexical_cast_long_range in Hcast.
Qed.

(** X3. Integer replies round-trip: for every value [z] of a [long], the
    reply [:<z>] in decimal is decoded to [z], consuming the reply and
    nothing behind it; whatever the stream holds, a value the decoder
    returns is within the range of [long]; and the decoder that expects
    the integer 1 accepts that reply only, raising the protocol error
    "expecting int reply of 1" for every other value. *)
Theorem int_reply_round_trip (socket : Z) (s : socket_state) (z : Z)
    (rest : std_string) :
  0 < socket → LONG_MIN ≤ z ≤ LONG_MAX → sk_in s = int_reply_bytes z ++ rest →
  (∃ s', recv_int_reply_ socket s = (Ok z, s') ∧ sk_in s' = rest ∧ same_output s s')
  ∧ (z = 1 → ∃ s', recv_int_ok_reply_ socket s = (Ok tt, s') ∧ sk_in s' = rest)
  ∧ (z ≠ 1 →
     ∃ s', recv_int_ok_reply_ socket s
           = (Throw (protocol_error (str "expecting int reply of 1")), s')
           ∧ sk_in s' = rest)
  ∧ (∀ s0 z0 s0', recv_int_reply_ socket s0 = (Ok z0, s0') → LONG_MIN ≤ z0 ≤ LONG_MAX).
Proof.
  intros Hsock Hz Hin.
  destruct (recv_int_reply_dec socket z rest s) as (s' & Hrun & Hin' & Hout'); [done..|].
  split; [by exists s'|]. split; [|split].
  - intros ->. exists s'. unfold recv_int_ok_reply_. by rewrite (bind_ok _ _ _ _ _ Hrun).
  - intros Hne. exists s'. unfold recv_int_ok_reply_. rewrite (bind_ok _ _ _ _ _ Hrun).
    by rewrite bool_decide_eq_true_2.
  - intros s0 z0 s0'. apply recv_int_reply_range.
Qed.

Lemma int_reply_round_trip_witness :
  ∃ s', recv_int_reply_ 3 (Sock (int_reply_bytes LONG_MIN ++ str "+OK") 1 [2; 30]%nat [] None)
        = (Ok LONG_MIN, s')
        ∧ sk_in s' = str "+OK"
        ∧ same_output (Sock (int_reply_bytes LONG_MIN ++ str "+OK") 1 [2; 30]%nat [] None) s'.
Proof.
  apply (int_reply_round_trip 3 _ LONG_MIN (str "+OK")); [done | compute_done | done].
Defined.

(** ** The exact reader *)

(** X4. [read_n] returns exactly the [n] requested bytes or throws. It
    first gets an array of [n + 1] bytes. When the platform provides the
    array and the peer delivers at least [n] bytes before it closes, the
    result is the first [n] bytes of the stream and exactly these are
    consumed, for every segmentation of the transport; when the peer
    closes earlier, the connection error "connection was closed" is
    raised. When the platform does not provide the array, [std::bad_alloc]
    is raised and nothing is read. A result never has any other length
    than [n]. A negative [n], and the largest [n], whose [n + 1] overflows,
    are undefined behaviour. *)
Theorem read_n_exact {P : Platform} (socket : Z) (n : Z) (s : socket_state) :
  (0 ≤ n → n + 1 ≤ max_new → (Z.to_nat n ≤ length (sk_in s))%nat →
     ∃ s', read_n socket n s = (Ok (take (Z.to_nat n) (sk_in s)), s')
           ∧ sk_in s' = drop (Z.to_nat n) (sk_in s) ∧ same_output s s')
  ∧ (0 ≤ n → n + 1 ≤ max_new → (length (sk_in s) < Z.to_nat n)%nat →
     ∃ s', read_n socket n s
           = (Throw (connection_error (str "connection was closed")), s')
           ∧ same_output s s')
  ∧ (0 ≤ n → n < LONG_MAX → max_new < n + 1 →
     read_n socket n s = (Throw bad_alloc, s))
  ∧ (∀ data s', read_n socket n s = (Ok data, s') → Z.of_nat (length data) = n)
  ∧ (n < 0 ∨ n = LONG_MAX → read_n socket n s = (Undefined, s)).
Proof.
  split_and!.
  - intros Hn Hnew Hlen. by apply read_n_ok.
  - intros Hn Hnew Hlen.
    destruct (read_n_closed socket n s) as (s' & Hrun & _ & Hout); [done..|].
    by exists s'.
  - apply read_n_refused.
  - intros data s'. apply read_n_length.
  - intros [Hn| ->]; unfold read_n.
    + by destruct (Z.ltb_spec n 0); [|lia].
    + done.
Qed.

Lemma read_n_exact_witness :
  let P := lp64 in
  ∃ s', read_n 3 4 (Sock (str "abcdefg") 1 [0; 2; 5]%nat [] None)
        = (Ok (str "abcd"), s')
        ∧ sk_in s' = str "efg"
        ∧ same_output (Sock (str "abcdefg") 1 [0; 2; 5]%nat [] None) s'.
Proof.
  intros P.
  apply (proj1 (read_n_exact 3 4 (Sock (str "abcdefg") 1 [0; 2; 5]%nat [] None)));
    [done | done | cbn; lia].
Defined.

(** ** [rtrim], [split] and [split_lines] *)

Lemma rtrim_all_ws s ws : Forall (.∈ ws) s → rtrim s ws = [].
Proof.
  intros H. rewrite <- (app_nil_l s), rtrim_app_ws by done. apply rtrim_nil.
Qed.

Lemma rtrim_no_trailing s ws :
  (∀ r c, s = r ++ [c] → c ∉ ws) → rtrim s ws = s.
Proof.
  intros H. destruct s as [|c r _] using rev_ind; [apply rtrim_nil|].
  apply rtrim_snoc. by eapply H.
Qed.

(** X5. [rtrim] removes the longest suffix made of characters of [ws] and
    nothing else: the result is a prefix of the string, what is cut off
    consists of characters of [ws], and the result does not end with one;
    a string made of such characters only (for which [find_last_not_of]
    returns [npos], and [npos + 1] wraps to 0) becomes empty; a string that
    does not end with one is returned as it is; trimming twice is trimming
    once. *)
Theorem rtrim_longest_suffix (s ws : std_string) :
  (∃ cut, s = rtrim s ws ++ cut ∧ Forall (.∈ ws) cut
          ∧ ∀ r c, rtrim s ws = r ++ [c] → c ∉ ws)
  ∧ (Forall (.∈ ws) s → rtrim s ws = [])
  ∧ ((∀ r c, s = r ++ [c] → c ∉ ws) → rtrim s ws = s)
  ∧ rtrim (rtrim s ws) ws = rtrim s ws.
Proof.
  split; [apply rtrim_spec|]. split; [apply rtrim_all_ws|].
  split; [apply rtrim_no_trailing|].
  destruct (rtrim_spec s ws) as (cut & _ & _ & Hlast).
  by apply rtrim_no_trailing.
Qed.

Lemma rtrim_longest_suffix_witness : rtrim [LF; CR; LF] REDIS_LBR = [].
Proof.
  apply (proj1 (proj2 (rtrim_longest_suffix [LF; CR; LF] REDIS_LBR))).
  repeat (apply Forall_cons_2; [compute_done|]). apply Forall_nil_2.
Defined.

Lemma getline_nil delim : getline [] delim = None.
Proof. done. Qed.

Lemma getline_delim item rest delim :
  delim ∉ item → getline (item ++ delim :: rest) delim = Some (item, rest).
Proof.
  intros H. unfold getline.
  rewrite bool_decide_eq_false_2 by (by destruct item).
  rewrite memchr_app_found by done.
  rewrite take_app_length.
  by rewrite (drop_past_middle item rest delim).
Qed.

Lemma getline_last ss delim :
  ss ≠ [] → delim ∉ ss → getline ss delim = Some (ss, []).
Proof.
  intros Hne H. unfold getline. rewrite bool_decide_eq_false_2 by done.
  apply memchr_None in H. by rewrite H.
Qed.

Lemma split_loop_delimited delim items last fuel elems n :
  Forall (delim ∉.) items → delim ∉ last →
  (length items + length (unterminated last) ≤ fuel)%nat →
  split_loop fuel (delimited delim items last) delim elems n
  = (elems ++ items ++ unterminated last,
     (n + (length items + length (unterminated last)))%nat).
Proof.
  intros Hitems Hlast. revert fuel elems n.
  induction Hitems as [|item items Hitem Hitems IH]; intros fuel elems n Hfuel.
  - unfold delimited. cbn [fmap list_fmap concat app length] in *.
    destruct last as [|c last].
    + cbn [unterminated length]. rewrite app_nil_r, Nat.add_0_r.
      by destruct fuel.
    + cbn [unterminated length] in *. destruct fuel as [|fuel]; [lia|].
      cbn [split_loop]. rewrite getline_last by done.
      destruct fuel; cbn [split_loop]; rewrite ?getline_nil; f_equal; lia.
  - destruct fuel as [|fuel]; [cbn [length] in Hfuel; lia|].
    cbn [split_loop]. unfold delimited. cbn [fmap list_fmap concat].
    rewrite <- !(assoc_L (++)). cbn [app].
    rewrite getline_delim by done.
    fold (delimited delim items last).
    rewrite IH by (cbn [length] in Hfuel; lia).
    rewrite <- (assoc_L (++)). cbn [app length]. f_equal. lia.
Qed.

Lemma delimited_cover delim str :
  ∃ items last, str = delimited delim items last
                ∧ Forall (delim ∉.) items ∧ delim ∉ last.
Proof.
  induction str as [|c str (items & last & -> & Hitems & Hlast)].
  - exists [], []. split; [done|]. split; [done|]. by apply not_elem_of_nil.
  - destruct (decide (c = delim)) as [->|Hc].
    + exists ([] :: items), last. split; [done|]. split; [|done].
      apply Forall_cons_2; [apply not_elem_of_nil | done].
    + destruct items as [|item items].
      * exists [], (c :: last). split; [done|]. split; [done|].
        apply not_elem_of_cons. by split; [congruence|].
      * exists ((c :: item) :: items), last. split; [done|].
        apply Forall_cons in Hitems as [Hitem Hitems].
        split; [|done]. apply Forall_cons_2; [|done].
        apply not_elem_of_cons. by split; [congruence|].
Qed.

Lemma delimited_length delim items last :
  (length items + length (unterminated last)
   ≤ length (delimited delim items last))%nat.
Proof.
  unfold delimited. rewrite length_app.
  assert (length items ≤ length (concat ((fun item => item ++ [delim]) <$> items)))%nat.
  { induction items as [|item items IH]; [done|].
    cbn [fmap list_fmap concat length]. rewrite !length_app. cbn [length]. 
    change (list_fmap _ _ ?f items) with (f <$> items). lia. }
  destruct last; cbn [unterminated length]; lia.
Qed.

Lemma split_delimited delim items last elems :
  Forall (delim ∉.) items → delim ∉ last →
  split (delimited delim items last) delim elems
  = (elems ++ items ++ unterminated last,
     (length items + length (unterminated last))%nat).
Proof.
  intros Hitems Hlast. unfold split.
  rewrite split_loop_delimited; [done..|].
  pose proof (delimited_length delim items last). lia.
Qed.

(** X6. [split] cuts a string at every delimiter: for a text made of the
    fields [items], each followed by the delimiter, and a last part without
    delimiter, it appends the fields and then the last part to [elems], in
    order, and returns their number. A last part that is empty is not
    appended: a final delimiter does not open an empty field, and the empty
    string has no field at all, while an empty field in front of a
    delimiter is kept. Every string has this form, so this describes
    [split] on every input. *)
Theorem split_fields (delim : ascii) (elems : list std_string) :
  (∀ items last,
     Forall (delim ∉.) items → delim ∉ last →
     split (concat ((fun item => item ++ [delim]) <$> items) ++ last) delim elems
     = (elems ++ items ++ match last with [] => [] | _ :: _ => [last] end,
        (length items + match last with [] => 0 | _ :: _ => 1 end)%nat))
  ∧ (∀ str, ∃ items last,
       str = concat ((fun item => item ++ [delim]) <$> items) ++ last
       ∧ Forall (delim ∉.) items ∧ delim ∉ last).
Proof.
  split.
  - intros items last Hitems Hlast.
    pose proof (split_delimited delim items last elems Hitems Hlast) as H.
    unfold delimited in H. rewrite H. by destruct last.
  - intros str. apply delimited_cover.
Qed.

Lemma split_fields_witness :
  split (str "a,,b,") ","%char [str "x"] = ([str "x"; str "a"; []; str "b"], 3%nat).
Proof.
  apply (proj1 (split_fields ","%char [str "x"]) [str "a"; []; str "b"] []).
  - repeat (apply Forall_cons_2; [compute_done|]). apply Forall_nil_2.
  - compute_done.
Defined.

Lemma CR_whitespace : Forall (.∈ REDIS_WHITESPACE) [CR].
Proof. apply Forall_cons_2; [compute_done | apply Forall_nil_2]. Qed.

(** X7. [split_lines] recovers the lines of a text in which every line is
    closed by CR LF: for lines that hold no LF and do not end with a
    whitespace character, the vector gets exactly these lines appended, in
    order and without the line ends. The elements that the vector held
    before the call are trimmed of trailing whitespace as well. *)
Theorem split_lines_crlf (lines elems : list std_string) :
  Forall (fun line => (LF ∉ line) ∧ (∀ r c, line = r ++ [c] → c ∉ REDIS_WHITESPACE))
         lines →
  split_lines (concat ((fun line => line ++ REDIS_LBR) <$> lines)) elems
  = ((fun it => rtrim it REDIS_WHITESPACE) <$> elems) ++ lines.
Proof.
  intros Hlines. unfold split_lines.
  pose proof (split_delimited LF ((fun line => line ++ [CR]) <$> lines) [] elems) as H.
  unfold delimited in H. rewrite app_nil_r, <- list_fmap_compose in H.
  rewrite (list_fmap_ext ((fun item => item ++ [LF]) ∘ (fun line => line ++ [CR]))
             (fun line => line ++ REDIS_LBR) lines) in H.
  2:{ intros _ line _. unfold REDIS_LBR. cbn. by rewrite <- (assoc_L (++)). }
  rewrite H; cbn [fst unterminated].
  - rewrite app_nil_r, fmap_app, <- list_fmap_compose. f_equal.
    rewrite <- (list_fmap_id lines) at 2. apply Forall_fmap_ext_1.
    eapply Forall_impl; [exact Hlines|]. intros line [_ Hend]. unfold compose.
    rewrite rtrim_app_ws by apply CR_whitespace. by apply rtrim_no_trailing.
  - apply Forall_fmap. eapply Forall_impl; [exact Hlines|]. intros line [HLF _]. cbn.
    intros [?|Hin]%elem_of_app; [done|]. by apply list_elem_of_singleton in Hin.
  - apply not_elem_of_nil.
Qed.

Lemma split_lines_crlf_witness :
  split_lines (str "redis_version:1.2" ++ REDIS_LBR ++ REDIS_LBR
                 ++ str "role:master" ++ REDIS_LBR) [str "old  "]
  = [str "old"; str "redis_version:1.2"; []; str "role:master"].
Proof.
  apply (split_lines_crlf [str "redis_version:1.2"; []; str "role:master"] [str "old  "]).
  repeat (apply Forall_cons_2; [split; [compute_done|]|]); [| | |apply Forall_nil_2].
  - intros r c H. apply (f_equal (@rev ascii)) in H. rewrite rev_app_distr in H.
    cbn in H. injection H as <- _. compute_done.
  - intros r c H. by destruct r.
  - intros r c H. apply (f_equal (@rev ascii)) in H. rewrite rev_app_distr in H.
    cbn in H. injection H as <- _. compute_done.
Defined.

(** ** The integer held by a string value *)

(** X8. [to_int_type] of [shared_int] reads a stored string as a [long]:
    the decimal text of every [long] is read back as that number; whatever
    the string, a result is within the range of [long]; and a string that
    is not such a numeral, the empty string and the placeholder that [get]
    returns for a missing key among them, raises the value error "value is
    not of integer type", never the [bad_lexical_cast] of the conversion. *)
Theorem to_int_type_reads_decimal :
  (∀ z, LONG_MIN ≤ z ≤ LONG_MAX → to_int_type (dec_of_long z) = Ok z)
  ∧ (∀ val z, to_int_type val = Ok z → LONG_MIN ≤ z ≤ LONG_MAX)
  ∧ (∀ val,
       (∃ z, to_int_type val = Ok z)
       ∨ to_int_type val = Throw (value_error (str "value is not of integer type")))
  ∧ to_int_type [] = Throw (value_error (str "value is not of integer type"))
  ∧ to_int_type missing_value
    = Throw (value_error (str "value is not of integer type")).
Proof.
  split; [|split; [|split; [|split]]].
  - intros z Hz. unfold to_int_type. by rewrite lexical_cast_long_dec.
  - intros val z. unfold to_int_type.
    destruct (lexical_cast_long val) as [z'| e | |] eqn:H; try done.
    + intros [= <-]. by eapply lexical_cast_long_range.
    + by destruct e.
  - intros val. unfold to_int_type.
    destruct (lexical_cast_long val) as [z'| e | |] eqn:H.
    + left. by exists z'.
    + apply lexical_cast_long_throws in H as ->. by right.
    + exfalso. revert H. unfold lexical_cast_long. repeat case_match; done.
    + exfalso. revert H. unfold lexical_cast_long. repeat case_match; done.
  - done.
  - done.
Qed.

Lemma to_int_type_reads_decimal_witness : to_int_type (dec_of_long (-42)) = Ok (-42).
Proof.
  apply (proj1 to_int_type_reads_decimal). compute_done.
Defined.

(** ** Requests and their replies *)

Lemma send_run fd msg n s :
  n !! fd = Some s → sk_wr_err s = None →
  send_ fd msg n = (Ok tt, <[fd := written s msg]> n).
Proof.
  intros Hfd Hwr. unfold send_, anetWrite, written. rewrite Hfd.
  destruct (sk_wr_err s); done.
Qed.

Lemma on_run {A} fd (m : io socket_state A) n s r s' :
  n !! fd = Some s → m s = (r, s') → on fd m n = (r, <[fd := s']> n).
Proof. intros Hfd Hm. unfold on. by rewrite Hfd, Hm. Qed.

(** Sending [msg] on a connection whose peer answers with [input], then
    running a decoder that consumes the answer up to [rest]. *)
Lemma request_reply {A} fd msg (m : io socket_state A) input rest r n :
  awaiting n fd input →
  (∀ s1, sk_in s1 = input →
         ∃ s', m s1 = (r, s') ∧ sk_in s' = rest ∧ same_output s1 s') →
  ∃ n', (send_ fd msg ;;; on fd m) n = (r, n') ∧ exchanged fd msg rest n n'.
Proof.
  intros (s & Hfd & Hwr & Hin) Hm.
  destruct (Hm (written s msg)) as (s' & Hrun & Hin' & Hout' & Hwr'); [done|].
  exists (<[fd := s']> n). split.
  - rewrite (bind_ok _ _ _ _ _ (send_run fd msg n s Hfd Hwr)).
    erewrite on_run; [|apply lookup_insert_eq|exact Hrun].
    by rewrite insert_insert_eq.
  - split.
    + intros fd' Hne. by rewrite lookup_insert_ne.
    + exists s, s'. rewrite lookup_insert_eq. by cbn in *.
Qed.

(** The call of an operation on one key, once the key is routed: the
    request goes to the connection of the key and the decoder consumes the
    answer. *)
Lemma key_exchange {A} c key fd (m : makecmd) words (k : Z → io socket_state A)
    input rest r n :
  get_socket c key = Ok fd → lines_ m = words →
  awaiting n fd input →
  (∀ s1, sk_in s1 = input →
         ∃ s', k fd s1 = (r, s') ∧ sk_in s' = rest ∧ same_output s1 s') →
  ∃ n', (socket <- lift (get_socket c key) ;;
         send_ socket (makecmd_to_string m) ;;; on socket (k socket)) n = (r, n')
        ∧ exchanged fd (request_bytes words) rest n n'.
Proof.
  intros Hfd <- Hin Hk. unfold bind at 1. unfold lift. rewrite Hfd.
  rewrite makecmd_to_string_frames. by eapply request_reply.
Qed.

Lemma get_run {P : Platform} c key fd payload rest n :
  get_socket c key = Ok fd → 0 < fd → payload_fits payload →
  awaiting n fd (bulk_reply_bytes payload ++ rest) →
  ∃ n', get c key n = (Ok (bulk_value payload), n')
        ∧ exchanged fd (request_bytes [str "GET"; key]) rest n n'.
Proof.
  intros Hfd Hpos Hfit Hin.
  eapply (key_exchange c key fd _ _ recv_bulk_reply_); [done | done | exact Hin |].
  intros s1 Hs1. by apply recv_bulk_reply_item.
Qed.

(** X9. [get] sends [GET key] on the connection of the key and decodes the
    bulk reply: a stored value comes back byte for byte, and for a key that
    is missing the result is the placeholder ["**nonexistent-key**"], which
    is therefore what a stored value with these very bytes gives as well:
    the result does not tell the two apart. The reply is consumed exactly;
    no other connection is touched. *)
Theorem get_reply {P : Platform} (c : base_client) (key : std_string) (fd : Z)
    (payload : option std_string) (rest : std_string) (n : gmap Z socket_state) :
  get_socket c key = Ok fd → 0 < fd → payload_fits payload →
  awaiting n fd (bulk_reply_bytes payload ++ rest) →
  ∃ n', get c key n
        = (Ok match payload with
              | Some value => value
              | None => str "**nonexistent-key**"
              end, n')
        ∧ exchanged fd (request_bytes [str "GET"; key]) rest n n'.
Proof.
  intros Hfd Hpos Hfit Hin.
  destruct (get_run c key fd payload rest n) as (n' & Hrun & Hex); [done..|].
  exists n'. split; [|done]. rewrite Hrun. by destruct payload.
Qed.

Lemma get_reply_witness :
  let P := lp64 in
  ∃ n', get two_shards (str "foo")
          (<[3 := Sock (bulk_reply_bytes None ++ str "+OK") 0 [] [] None]> ∅)
        = (Ok (str "**nonexistent-key**"), n')
        ∧ exchanged 3 (request_bytes [str "GET"; str "foo"]) (str "+OK")
            (<[3 := Sock (bulk_reply_bytes None ++ str "+OK") 0 [] [] None]> ∅) n'.
Proof.
  intros P.
  apply (get_reply two_shards (str "foo") 3 None (str "+OK")).
  - vm_compute. reflexivity.
  - done.
  - done.
  - eexists. split; [apply lookup_insert_eq|]. done.
Defined.

Lemma lrem_run c key count value fd z rest n :
  get_socket c key = Ok fd → 0 < fd → LONG_MIN ≤ z ≤ LONG_MAX →
  awaiting n fd (int_reply_bytes z ++ rest) →
  ∃ n', lrem c key count value n = (Ok z, n')
        ∧ exchanged fd (request_bytes [str "LREM"; key; dec_of_long count; value])
            rest n n'.
Proof.
  intros Hfd Hpos Hz Hin.
  eapply (key_exchange c key fd _ _ recv_int_reply_); [done | done | exact Hin |].
  intros s1 Hs1. by apply recv_int_reply_dec.
Qed.



(** X11. [lrem_exact] returns only when the number of removed elements the
    server reports equals [count] as it was passed, and raises the value
    error "failed to remove exactly N elements from list" otherwise. The
    request [LREM key count value] has been sent and answered by then. As
    the server never reports a negative number, a negative [count], which
    asks to remove from the tail of the list, always ends in that error. *)
Theorem lrem_exact_reply (c : base_client) (key value : std_string) (fd count z : Z)
    (rest : std_string) (n : gmap Z socket_state) :
  get_socket c key = Ok fd → 0 < fd → LONG_MIN ≤ z ≤ LONG_MAX →
  awaiting n fd (int_reply_bytes z ++ rest) →
  ∃ n', exchanged fd (request_bytes [str "LREM"; key; dec_of_long count; value])
          rest n n'
        ∧ (z = count → lrem_exact c key count value n = (Ok tt, n'))
        ∧ (z ≠ count →
           lrem_exact c key count value n
           = (Throw (value_error (str "failed to remove exactly N elements from list")),
              n'))
        ∧ (count < 0 → 0 ≤ z →
           lrem_exact c key count value n
           = (Throw (value_error (str "failed to remove exactly N elements from list")),
              n')).
Proof.
  intros Hfd Hpos Hz Hin.
  destruct (lrem_run c key count value fd z rest n) as (n' & Hrun & Hex); [done..|].
  exists n'. split; [done|]. unfold lrem_exact. rewrite (bind_ok _ _ _ _ _ Hrun).
  split; [|split].
  - intros ->. by rewrite bool_decide_eq_false_2 by (intros H; by apply H).
  - intros Hne. by rewrite bool_decide_eq_true_2.
  - intros Hneg Hnon. by rewrite bool_decide_eq_true_2 by lia.
Qed.

Lemma lrem_exact_reply_witness :
  ∃ n', exchanged 3 (request_bytes [str "LREM"; str "foo"; dec_of_long (-2); str "x"]) []
          (<[3 := Sock (int_reply_bytes 2) 0 [] [] None]> ∅) n'
        ∧ lrem_exact two_shards (str "foo") (-2) (str "x")
            (<[3 := Sock (int_reply_bytes 2) 0 [] [] None]> ∅)
          = (Throw (value_error (str "failed to remove exactly N elements from list")),
             n').
Proof.
  destruct (lrem_exact_reply two_shards (str "foo") (str "x") 3 (-2) 2 []
              (<[3 := Sock (int_reply_bytes 2) 0 [] [] None]> ∅))
    as (n' & Hex & _ & _ & Hthrow).
  - vm_compute. reflexivity.
  - done.
  - compute_done.
  - eexists. split; [apply lookup_insert_eq|]. split; [done|]. by rewrite app_nil_r.
  - exists n'. split; [done|]. by apply Hthrow.
Defined.

Lemma nb_digits_double d :
  (Decimal.nb_digits (Decimal.Little.double d) ≤ S (Decimal.nb_digits d))%nat
  ∧ (Decimal.nb_digits (Decimal.Little.succ_double d) ≤ S (Decimal.nb_digits d))%nat.
Proof. induction d; cbn; lia. Qed.

Lemma nb_digits_to_little_uint p :
  (Decimal.nb_digits (Pos.to_little_uint p) ≤ Pos.size_nat p)%nat.
Proof.
  induction p as [p IH|p IH|]; cbn [Pos.to_little_uint Pos.size_nat].
  - pose proof (proj2 (nb_digits_double (Pos.to_little_uint p))). lia.
  - pose proof (proj1 (nb_digits_double (Pos.to_little_uint p))). lia.
  - done.
Qed.

Lemma length_string_of_uint d :
  length (str (NilEmpty.string_of_uint d)) = Decimal.nb_digits d.
Proof. induction d; cbn; unfold str in *; lia. Qed.

Lemma length_dec_of_pos p :
  Z.pos p ≤ 2 ^ 63 →
  (length (str (NilZero.string_of_uint (Pos.to_uint p))) ≤ 64)%nat.
Proof.
  intros Hp. pose proof (DecimalPos.Unsigned.to_uint_nonnil p) as Hnil.
  assert (NilZero.string_of_uint (Pos.to_uint p) = NilEmpty.string_of_uint (Pos.to_uint p))
    as -> by (by destruct (Pos.to_uint p)).
  rewrite length_string_of_uint. unfold Pos.to_uint.
  rewrite DecimalFacts.nb_digits_rev.
  pose proof (nb_digits_to_little_uint p).
  assert (Pos.size_nat p ≤ Pos.size_nat (2 ^ 63))%nat.
  { destruct (decide (p = 2 ^ 63)%positive) as [->|Hne]; [done|].
    apply Pos.size_nat_monotone. lia. }
  change (Pos.size_nat (2 ^ 63)) with 64%nat in *. lia.
Qed.

(** The decimal text of a [long] has at most 65 characters. *)
Lemma dec_of_long_fits {P : Platform} z :
  LONG_MIN ≤ z ≤ LONG_MAX → payload_fits (Some (dec_of_long z)).
Proof.
  unfold LONG_MIN, LONG_MAX, payload_fits, dec_of_long. intros Hz.
  pose proof max_new_small as Hnew.
  assert (∀ k : nat, (k ≤ 65)%nat → Z.of_nat k + 3 ≤ max_new) as Hsmall
    by (intros k Hk; lia).
  destruct z as [|p|p]; cbn [Z.to_int NilZero.string_of_int].
  - by apply Hsmall; vm_compute; lia.
  - pose proof (length_dec_of_pos p) as H.
    assert (Z.pos p ≤ 2 ^ 63) as Hp%H by lia. clear H.
    apply Hsmall. lia.
  - pose proof (length_dec_of_pos p) as H.
    assert (Z.pos p ≤ 2 ^ 63) as Hp%H by lia. clear H.
    cbn [str list_ascii_of_string length].
    fold (str (NilZero.string_of_uint (Pos.to_uint p))).
    apply Hsmall. lia.
Qed.

(** X12. Reading a shared integer sends [GET key] and converts the value:
    the stored decimal text of a [long] [z] yields [z]; a key that is
    missing yields no number and no key error but the value error "value is
    not of integer type", because the placeholder that [get] returns for it
    is not a numeral. *)
Theorem shared_int_value_reply {P : Platform} (c : base_client) (key : std_string) (fd : Z)
    (rest : std_string) (n : gmap Z socket_state) :
  get_socket c key = Ok fd → 0 < fd →
  (∀ z, LONG_MIN ≤ z ≤ LONG_MAX →
     awaiting n fd (bulk_reply_bytes (Some (dec_of_long z)) ++ rest) →
     ∃ n', shared_int_value c key n = (Ok z, n')
           ∧ exchanged fd (request_bytes [str "GET"; key]) rest n n')
  ∧ (awaiting n fd (bulk_reply_bytes None ++ rest) →
     ∃ n', shared_int_value c key n
           = (Throw (value_error (str "value is not of integer type")), n')
           ∧ exchanged fd (request_bytes [str "GET"; key]) rest n n').
Proof.
  intros Hfd Hpos. split.
  - intros z Hz Hin.
    destruct (get_run c key fd (Some (dec_of_long z)) rest n)
      as (n' & Hrun & Hex); [done | done | | done |].
    { by apply dec_of_long_fits. }
    exists n'. split; [|done]. unfold shared_int_value.
    rewrite (bind_ok _ _ _ _ _ Hrun). unfold lift, to_int_type, bulk_value.
    cbn [default from_option id].
    by rewrite lexical_cast_long_dec.
  - intros Hin.
    destruct (get_run c key fd None rest n) as (n' & Hrun & Hex); [done..|].
    exists n'. split; [|done]. unfold shared_int_value.
    by rewrite (bind_ok _ _ _ _ _ Hrun).
Qed.

Lemma shared_int_value_reply_witness :
  let P := lp64 in
  ∃ n', shared_int_value two_shards (str "foo")
          (<[3 := Sock (bulk_reply_bytes None) 0 [] [] None]> ∅)
        = (Throw (value_error (str "value is not of integer type")), n')
        ∧ exchanged 3 (request_bytes [str "GET"; str "foo"]) []
            (<[3 := Sock (bulk_reply_bytes None) 0 [] [] None]> ∅) n'.
Proof.
  intros P.
  apply (proj2 (shared_int_value_reply two_shards (str "foo") 3 []
                  (<[3 := Sock (bulk_reply_bytes None) 0 [] [] None]> ∅)
                  ltac:(vm_compute; reflexivity) ltac:(done))).
  eexists. split; [apply lookup_insert_eq|]. split; [done|]. by rewrite app_nil_r.
Defined.

(** ** [hgetall] *)

Lemma hash_items_length pairs : length (hash_items pairs) = (2 * length pairs)%nat.
Proof.
  unfold hash_items. induction pairs as [|p pairs IH]; [done|].
  cbn [fmap list_fmap concat length app] in *. lia.
Qed.

Lemma hash_items_app pairs1 pairs2 :
  hash_items (pairs1 ++ pairs2) = hash_items pairs1 ++ hash_items pairs2.
Proof. unfold hash_items. by rewrite fmap_app, concat_app. Qed.

(** The loop on a reply of fields and values, with [extra] as what the
    reply holds behind the last pair. *)
Lemma hgetall_loop_pairs done_ pairs (extra : list std_string) fuel out :
  (length extra ≤ 1)%nat → (length pairs + length extra ≤ fuel)%nat →
  hgetall_loop fuel (2 * length done_) (hash_items (done_ ++ pairs) ++ extra) out
  = match extra with
    | [] => Ok (out ++ pairs)
    | _ :: _ => Undefined
    end.
Proof.
  intros Hextra. revert done_ fuel out.
  induction pairs as [|[field value] pairs IH]; intros done_ fuel out Hfuel.
  - rewrite app_nil_r.
    destruct extra as [|x [|??]]; [| |cbn [length] in Hextra; lia].
    + rewrite !app_nil_r.
      destruct fuel; cbn [hgetall_loop];
        rewrite bool_decide_eq_false_2; rewrite ?hash_items_length; done || lia.
    + destruct fuel as [|fuel]; [cbn [length] in Hfuel; lia|].
      cbn [hgetall_loop]. rewrite bool_decide_eq_true_2
        by (rewrite length_app, hash_items_length; cbn [length]; lia).
      unfold at_.
      rewrite lookup_app_r by (rewrite hash_items_length; lia).
      rewrite hash_items_length, Nat.sub_diag. cbn [lookup list_lookup].
      rewrite lookup_ge_None_2; [done|].
      rewrite length_app, hash_items_length. cbn [length]. lia.
  - destruct fuel as [|fuel]; [cbn [length] in Hfuel; lia|].
    assert (hash_items (done_ ++ (field, value) :: pairs) ++ extra
            = hash_items done_ ++ field :: value :: hash_items pairs ++ extra) as Hs.
    { rewrite hash_items_app, <- (assoc_L (++)). done. }
    specialize (IH (done_ ++ [(field, value)]) fuel (out ++ [(field, value)])).
    rewrite <- !(assoc_L (++)), length_app in IH. cbn [app length] in IH, Hfuel.
    replace (2 * (length done_ + 1))%nat with (2 * length done_ + 2)%nat in IH by lia.
    cbn [hgetall_loop].
    rewrite bool_decide_eq_true_2
      by (rewrite length_app, hash_items_length, length_app; cbn [length]; lia).
    unfold at_. rewrite Hs in IH |- *.
    rewrite !lookup_app_r by (rewrite hash_items_length; lia).
    rewrite hash_items_length.
    replace (2 * length done_ - 2 * length done_)%nat with 0%nat by lia.
    replace (2 * length done_ + 1 - 2 * length done_)%nat with 1%nat by lia.
    cbn [lookup list_lookup].
    rewrite IH by lia. by destruct extra.
Qed.

(** X13. [hgetall] sends [HGETALL key] and pairs the items of the reply two
    by two: for a reply that lists the fields and values of a hash, and
    for whose items the platform provides the room (the reservation of the
    vector and the array of each item), the pairs are appended to [out] in
    the order of the reply. Such a reply with an odd number of items
    makes the loop read [s[i+1]] one place behind the end of the vector,
    which is undefined behaviour: the loop does not check that a value
    follows the last field. *)
Theorem hgetall_pairs {P : Platform} (c : base_client) (key : std_string) (fd : Z)
    (pairs out : list (std_string * std_string)) (rest : std_string)
    (n : gmap Z socket_state) :
  get_socket c key = Ok fd → 0 < fd →
  Z.of_nat (2 * length pairs + 1) ≤ vector_max_alloc →
  Forall (fun word => Z.of_nat (length word) + 3 ≤ max_new) (hash_items pairs) →
  (awaiting n fd (multi_bulk_reply_bytes (Some <$> hash_items pairs) ++ rest) →
     ∃ n', hgetall c key out n = (Ok (out ++ pairs), n')
           ∧ exchanged fd (request_bytes [str "HGETALL"; key]) rest n n')
  ∧ (∀ field, Z.of_nat (length field) + 3 ≤ max_new →
       awaiting n fd
         (multi_bulk_reply_bytes (Some <$> hash_items pairs ++ [field]) ++ rest) →
       ∃ n', hgetall c key out n = (Undefined, n')
             ∧ exchanged fd (request_bytes [str "HGETALL"; key]) rest n n').
Proof.
  intros Hfd Hpos Hcount Hfit.
  assert (∀ extra, (length extra ≤ 1)%nat →
            Forall (fun word => Z.of_nat (length word) + 3 ≤ max_new) extra →
            awaiting n fd
              (multi_bulk_reply_bytes (Some <$> hash_items pairs ++ extra) ++ rest) →
            ∃ n', hgetall c key out n
                  = (match extra with [] => Ok (out ++ pairs) | _ :: _ => Undefined end,
                     n')
                  ∧ exchanged fd (request_bytes [str "HGETALL"; key]) rest n n')
    as Hboth.
  { intros extra Hextra Hfit' Hin.
    pose proof (hgetall_loop_pairs [] pairs extra
                  (length (hash_items pairs ++ extra)) out Hextra) as Hloop.
    rewrite length_app, hash_items_length in Hloop.
    specialize (Hloop ltac:(lia)). cbn [length app] in Hloop.
    rewrite Nat.mul_0_r in Hloop.
    set (k := fun socket : Z =>
           reply <- recv_multi_bulk_reply_ socket [] ;;
           lift (hgetall_loop (length reply.2) 0 reply.2 out)
           : io socket_state (list (std_string * std_string))).
    destruct (key_exchange c key fd (makecmd_new (str "HGETALL") << key)
                [str "HGETALL"; key] k
                (multi_bulk_reply_bytes (Some <$> hash_items pairs ++ extra) ++ rest) rest
                (match extra with [] => Ok (out ++ pairs) | _ :: _ => Undefined end)
                n Hfd) as (n' & Hrun & Hex); [done | exact Hin | |].
    - intros s1 Hs1.
      destruct (recv_multi_bulk_reply_items fd (Some <$> hash_items pairs ++ extra)
                  rest [] s1) as (s' & Hitems & Hin' & Hout'); [done | | | done |].
      { rewrite length_fmap, length_app, hash_items_length. cbn [length]. lia. }
      { apply Forall_fmap, Forall_app. split; (eapply Forall_impl; [eassumption|]);
          by intros w Hw. }
      exists s'. split; [|done]. unfold k. rewrite (bind_ok _ _ _ _ _ Hitems).
      unfold lift. cbn [snd app]. rewrite <- list_fmap_compose.
      rewrite (list_fmap_ext _ id (hash_items pairs ++ extra)) by done.
      rewrite list_fmap_id, length_app, hash_items_length. by rewrite Hloop.
    - exists n'. split; [|done]. rewrite <- Hrun. unfold hgetall, k.
      unfold bind, lift, on. repeat case_match; simplify_eq; done. }
  split.
  - intros Hin. apply (Hboth []); [cbn; lia | done |]. by rewrite app_nil_r.
  - intros field Hfield Hin. apply (Hboth [field]); [done | | done].
    by apply Forall_cons_2.
Qed.

Lemma hgetall_pairs_witness :
  let P := lp64 in
  ∃ n', hgetall two_shards (str "foo") []
          (<[3 := Sock (multi_bulk_reply_bytes [Some (str "f"); Some (str "v")]) 0 [] []
                       None]> ∅)
        = (Ok [(str "f", str "v")], n')
        ∧ exchanged 3 (request_bytes [str "HGETALL"; str "foo"]) []
            (<[3 := Sock (multi_bulk_reply_bytes [Some (str "f"); Some (str "v")]) 0 [] []
                         None]> ∅) n'.
Proof.
  intros P.
  apply (proj1 (hgetall_pairs two_shards (str "foo") 3 [(str "f", str "v")] [] []
                  (<[3 := Sock (multi_bulk_reply_bytes [Some (str "f"); Some (str "v")])
                               0 [] [] None]> ∅)
                  ltac:(vm_compute; reflexivity) ltac:(done) ltac:(compute_done)
                  ltac:(repeat (apply Forall_cons_2; [compute_done|]); apply Forall_nil_2))).
  eexists. split; [apply lookup_insert_eq|]. split; [done|]. by rewrite app_nil_r.
Defined.

(** ** [shutdown] *)

(** The server closes the connection without a complete reply line. *)
Lemma shutdown_con_closed (con : connection_data) (n : gmap Z socket_state) s :
  n !! socket con = Some s → 0 < socket con → sk_wr_err s = None → LF ∉ sk_in s →
  ∃ n', shutdown_con con n = (Ok tt, n')
        ∧ exchanged (socket con) (request_bytes [str "SHUTDOWN"]) [] n n'.
Proof.
  intros Hfd Hpos Hwr Hclosed. unfold shutdown_con. rewrite makecmd_to_string_frames.
  change (lines_ (makecmd_new (str "SHUTDOWN"))) with [str "SHUTDOWN"].
  rewrite (bind_ok _ _ _ _ _ (send_run _ _ n s Hfd Hwr)).
  destruct (read_line_closed (socket con) default_max_size
              (written s (request_bytes [str "SHUTDOWN"])))
    as (s' & Hline & Hin' & Hout' & Hwr'); [done | done | done |].
  exists (<[socket con := s']> n). split.
  - unfold try_catch_connection_error.
    erewrite on_run; [|apply lookup_insert_eq|].
    2:{ unfold recv_ok_reply_, recv_single_line_reply_.
        erewrite bind_throw; [done|]. by erewrite bind_throw. }
    by rewrite insert_insert_eq.
  - split; [intros fd' Hne; by rewrite lookup_insert_ne|].
    exists s, s'. rewrite lookup_insert_eq. by cbn in *.
Qed.

Lemma shutdown_con_write_fails (con : connection_data) (n : gmap Z socket_state) s err :
  n !! socket con = Some s → sk_wr_err s = Some err →
  shutdown_con con n = (Throw (connection_error err), n).
Proof.
  intros Hfd Hwr. unfold shutdown_con, bind, send_, anetWrite. by rewrite Hfd, Hwr.
Qed.

(** X14. [shutdown(con)] sends [SHUTDOWN] and swallows the connection
    error that reading the answer raises: when the server closes the
    connection without a complete reply line, which is what it does on
    shutdown, the call returns normally with the request sent; no
    connection error raised while reading ever leaves the call. The [try]
    block does not cover the write: when sending fails, that connection
    error does leave the call and nothing is sent. *)
Theorem shutdown_swallows_close (con : connection_data) (n : gmap Z socket_state)
    (s : socket_state) :
  n !! socket con = Some s → 0 < socket con →
  (sk_wr_err s = None → LF ∉ sk_in s →
     ∃ n', shutdown_con con n = (Ok tt, n')
           ∧ exchanged (socket con) (request_bytes [str "SHUTDOWN"]) [] n n')
  ∧ (sk_wr_err s = None → ∀ err, (shutdown_con con n).1 ≠ Throw (connection_error err))
  ∧ (∀ err, sk_wr_err s = Some err →
       shutdown_con con n = (Throw (connection_error err), n)).
Proof.
  intros Hfd Hpos. split; [|split].
  - intros Hwr Hclosed. by eapply shutdown_con_closed.
  - intros Hwr err. unfold shutdown_con.
    rewrite (bind_ok _ _ _ _ _ (send_run _ _ n s Hfd Hwr)).
    unfold try_catch_connection_error.
    destruct (on (socket con) (recv_ok_reply_ (socket con)) _) as [[[]|[]| |] n']; done.
  - intros err Hwr. by eapply shutdown_con_write_fails.
Qed.

Lemma shutdown_swallows_close_witness :
  ∃ n', shutdown_con (ConnectionData (str "10.0.0.1") 6379 0 3)
          (<[3 := Sock (str "+O") 0 [] [] None]> ∅) = (Ok tt, n')
        ∧ exchanged 3 (request_bytes [str "SHUTDOWN"]) []
            (<[3 := Sock (str "+O") 0 [] [] None]> ∅) n'.
Proof.
  apply (proj1 (shutdown_swallows_close (ConnectionData (str "10.0.0.1") 6379 0 3)
                  (<[3 := Sock (str "+O") 0 [] [] None]> ∅)
                  (Sock (str "+O") 0 [] [] None)
                  ltac:(apply lookup_insert_eq) ltac:(done))).
  - done.
  - compute_done.
Defined.

(** ** Routing of the operations on one key *)

Lemma reads_from_lift {A} fd (r : outcome A) : reads_from fd (lift r).
Proof.
  intros n. split; [done|]. destruct (n !! fd) as [s|] eqn:Hfd; [|done].
  exists s. split; [done|]. apply same_output_refl.
Qed.

Lemma reads_from_throw {A} fd e : reads_from fd (throw e : io _ A).
Proof. apply (reads_from_lift fd (Throw e)). Qed.

(** A request on the connection of [key], followed by code that reads the
    answer from it. *)
Lemma key_request {A} c key (m : makecmd) words
    (k : Z → io (gmap Z socket_state) A) n :
  valid_client c → lines_ m = words → (∀ fd, reads_from fd (k fd)) →
  ∃ fd, get_socket c key = Ok fd
        ∧ sent_on fd (request_bytes words) n
            ((socket <- lift (get_socket c key) ;;
              send_ socket (makecmd_to_string m) ;;; k socket) n).1
            ((socket <- lift (get_socket c key) ;;
              send_ socket (makecmd_to_string m) ;;; k socket) n).2.
Proof.
  intros Hvalid Hwords Hk.
  destruct (valid_client_routable c key Hvalid) as [fd Hfd].
  exists fd. split; [done|]. unfold bind at 1 3. unfold lift. rewrite Hfd.
  by apply request_sent.
Qed.

Lemma key_request_void {A} c key (m : makecmd) words
    (k : Z → io (gmap Z socket_state) A) n :
  valid_client c → lines_ m = words → (∀ fd, reads_from fd (k fd)) →
  ∃ fd, get_socket c key = Ok fd
        ∧ sent_on fd (request_bytes words) n
            (void (socket <- lift (get_socket c key) ;;
                   send_ socket (makecmd_to_string m) ;;; k socket) n).1
            (void (socket <- lift (get_socket c key) ;;
                   send_ socket (makecmd_to_string m) ;;; k socket) n).2.
Proof.
  intros Hvalid Hwords Hk.
  destruct (key_request c key m words k n) as (fd & Hfd & Hsent); [done..|].
  exists fd. split; [done|]. by apply sent_on_void.
Qed.

Local Ltac reads_reply :=
  repeat first
    [ apply reads_from_ret
    | apply reads_from_lift
    | apply reads_from_throw
    | eapply on_reads_from;
      first [ apply recv_ok_reply_reads | apply recv_int_reply_reads
            | apply recv_int_ok_reply_reads | apply recv_multi_bulk_reply_reads
            | apply recv_bulk_reply_ensures ]
    | apply reads_from_bind; [|intros ?]
    | case_match ].

(** Code that only computes on the result does not change what was sent. *)
Lemma sent_on_bind {A B} fd msg n (m : io (gmap Z socket_state) A)
    (k : A → io (gmap Z socket_state) B) :
  (∀ a n', (k a n').2 = n') →
  sent_on fd msg n (m n).1 (m n).2 → sent_on fd msg n (bind m k n).1 (bind m k n).2.
Proof.
  intros Hpure. unfold sent_on, bind.
  destruct (m n) as [[a|e| |] n'] eqn:Hm; cbn [fst snd];
    intros [Hother Hfd]; rewrite ?Hpure; (split; [done|]);
    (destruct (n !! fd) as [s|]; [destruct (sk_wr_err s)|]); try done;
    destruct Hfd as [-> Heq]; (discriminate Heq || (injection Heq as ->; done)).
Qed.

(** X15. Every operation on one key ([set], [get], [getset], [setnx],
    [setex], [incr], [incrby], [decr], [decrby], [exists], [del], [llen],
    [lrange], [get_list], [lrem], [lrem_exact], [lpop], [rpop], [sadd],
    [srem], [spop], [scard], [sismember], [srandmember], [blpop] and
    [brpop] on one key, [hgetall]) of a constructed client talks to one
    connection only, the one its key is routed to: the encoded request (command name, key, arguments, with
    numbers in decimal) is appended to the output of that connection, or
    the write fails with a connection error and nothing is sent; whatever
    the reply, no other connection is written to or read from. The request
    of [get_list] is [LRANGE key 0 -1]; the request of [srandmember] is
    [SPOP key], the one of [spop]. *)
Theorem single_key_routing {P : Platform} (c : base_client) (o : key_op)
    (n : gmap Z socket_state) :
  valid_client c →
  ∃ fd, get_socket c (key_op_key o) = Ok fd
        ∧ sent_on fd (request_bytes (key_op_words o)) n
            (run_key_op c o n).1 (run_key_op c o n).2.
Proof.
  intros Hvalid.
  destruct o; cbn [run_key_op key_op_key key_op_words];
    unfold set, get, getset, setnx, setex, incr, incrby, decr, decrby, exists_, del,
      llen, get_list, lrange, lrem, lpop, rpop, sadd, srem, spop, scard, sismember,
      srandmember, blpop_key, brpop_key, blocking_pop_key, hgetall.
  all: try (apply key_request; [done | done | intros fd; reads_reply]).
  all: try (apply key_request_void; [done | done | intros fd; reads_reply]).
  - (* lrem_exact *)
    unfold lrem_exact.
    destruct (key_request c key (makecmd_new (str "LREM") << key << count << value)
                [str "LREM"; key; dec_of_long count; value]
                (fun socket => on socket (recv_int_reply_ socket)) n)
      as (fd & Hfd & Hsent); [done | done | intros fd; reads_reply |].
    exists fd. split; [done|]. unfold lrem. apply sent_on_bind; [|exact Hsent].
    intros a n'. by case_bool_decide.
Qed.

Lemma single_key_routing_witness :
  let P := lp64 in
  ∃ fd, get_socket two_shards (str "b") = Ok fd
        ∧ sent_on fd (request_bytes [str "INCRBY"; str "b"; str "-5"]) two_shards_net
            (run_key_op two_shards (op_incrby (str "b") (-5)) two_shards_net).1
            (run_key_op two_shards (op_incrby (str "b") (-5)) two_shards_net).2.
Proof.
  intros P.
  apply (single_key_routing two_shards (op_incrby (str "b") (-5)) two_shards_net).
  split; [done|]. intros key. by apply default_hasher_in_bounds.
Defined.

(** ** The line reader and its terminators *)

(** X16. [read_line] accepts every usual line end: a line closed by LF,
    by CR LF or by several CR and an LF is returned without the line end,
    whatever its length and whatever budget [max_size] was passed, and the
    stream is left right behind the LF, for every segmentation of the
    transport. When the peer closes before an LF has come, the connection
    error "connection was closed" is raised. *)
Theorem read_line_terminators (socket max_size : Z) (s : socket_state)
    (text rest : std_string) (crs : nat) :
  0 < socket → 0 < max_size →
  (LF ∉ text → (∀ r c, text = r ++ [c] → c ≠ CR) →
   sk_in s = text ++ replicate crs CR ++ [LF] ++ rest →
   ∃ s', read_line socket max_size s = (Ok text, s')
         ∧ sk_in s' = rest ∧ same_output s s')
  ∧ (LF ∉ sk_in s →
     ∃ s', read_line socket max_size s
           = (Throw (connection_error (str "connection was closed")), s')
           ∧ same_output s s').
Proof.
  intros Hsock Hmax. split.
  - intros HLF Hlast Hin.
    destruct (read_line_found socket max_size (text ++ replicate crs CR) rest s)
      as (s' & Hrun & Hin' & Hout'); [done | done | | | ].
    + intros [H|H]%elem_of_app; [done|]. by apply elem_of_replicate in H as [? _].
    + rewrite Hin. by rewrite <- !(assoc_L (++)).
    + exists s'. split; [|done]. rewrite Hrun. do 2 f_equal.
      rewrite rtrim_app_ws.
      * apply rtrim_no_trailing. intros r c -> Hc.
        apply list_elem_of_In in Hc. destruct Hc as [<-|[<-|[]]].
        -- by eapply Hlast.
        -- apply HLF. set_solver.
      * apply Forall_replicate. unfold REDIS_LBR. set_solver.
  - intros Hclosed.
    destruct (read_line_closed socket max_size s) as (s' & Hrun & _ & Hout'); [done..|].
    by exists s'.
Qed.

Lemma read_line_terminators_witness :
  ∃ s', read_line 3 1
          (Sock (str "+PONG" ++ [CR; CR; LF] ++ str ":1") 2 [0; 3]%nat [] None)
        = (Ok (str "+PONG"), s')
        ∧ sk_in s' = str ":1"
        ∧ same_output
            (Sock (str "+PONG" ++ [CR; CR; LF] ++ str ":1") 2 [0; 3]%nat [] None) s'.
Proof.
  apply (proj1 (read_line_terminators 3 1
                  (Sock (str "+PONG" ++ [CR; CR; LF] ++ str ":1") 2 [0; 3]%nat [] None)
                  (str "+PONG") (str ":1") 2 ltac:(done) ltac:(done))).
  - compute_done.
  - intros r c H. apply (f_equal (@rev ascii)) in H. rewrite rev_app_distr in H.
    cbn in H. by injection H as <- _.
  - done.
Defined.

(** ** [dbsize] on all connections *)

Lemma send_all (cs : list connection_data) msg n :
  NoDup (socket <$> cs) →
  (∀ con, con ∈ cs → ∃ s, n !! socket con = Some s ∧ sk_wr_err s = None) →
  ∃ n1, for_each cs (fun con => send_ (socket con) msg) n = (Ok tt, n1)
        ∧ (∀ fd, fd ∉ socket <$> cs → n1 !! fd = n !! fd)
        ∧ (∀ con s, con ∈ cs → n !! socket con = Some s →
             n1 !! socket con = Some (written s msg)).
Proof.
  revert n. induction cs as [|con cs IH]; intros n Hdup Hopen.
  - exists n. split; [done|]. split; [done|]. by intros con s []%elem_of_nil.
  - rewrite fmap_cons in Hdup. apply NoDup_cons in Hdup as [Hfresh Hdup].
    destruct (Hopen con) as (s & Hfd & Hwr); [by left|].
    destruct (IH (<[socket con := written s msg]> n) Hdup) as (n1 & Hrun & Hother & Hcs).
    { intros con' Hcon'. destruct (Hopen con') as (s' & Hfd' & Hwr'); [by right|].
      exists s'. split; [|done]. rewrite lookup_insert_ne; [done|].
      intros Heq. apply Hfresh. rewrite Heq. by apply list_elem_of_fmap_2. }
    exists n1. split; [|split].
    + unfold for_each in *. cbn [foldM].
      by rewrite (bind_ok _ _ _ _ _ (send_run _ msg n s Hfd Hwr)).
    + intros fd [Hne Hnot]%not_elem_of_cons.
      rewrite Hother by done. by rewrite lookup_insert_ne.
    + intros con' s' Hcon' Hfd'.
      destruct (decide (socket con' = socket con)) as [Heq|Hne].
      * rewrite Heq in Hfd' |- *. rewrite Hother by done.
        rewrite lookup_insert_eq. congruence.
      * apply elem_of_cons in Hcon' as [->|Hcon']; [done|].
        apply Hcs; [done|]. by rewrite lookup_insert_ne.
Qed.

Lemma counts_nonneg (cs : list connection_data) (count : Z → Z) :
  (∀ con, con ∈ cs → 0 ≤ count (socket con)) →
  0 ≤ foldr Z.add 0 ((fun con => count (socket con)) <$> cs).
Proof.
  induction cs as [|con cs IH]; intros H; [done|].
  cbn [fmap list_fmap foldr].
  pose proof (H con ltac:(by left)). 
  pose proof (IH (fun con' Hcon' => H con' ltac:(by right))). 
  change (list_fmap _ _ ?f cs) with (f <$> cs). lia.
Qed.

Lemma recv_all (cs : list connection_data) (count : Z → Z) (rest : Z → std_string)
    n1 acc :
  NoDup (socket <$> cs) →
  (∀ con, con ∈ cs →
     0 < socket con ∧ 0 ≤ count (socket con)
     ∧ ∃ s, n1 !! socket con = Some s
            ∧ sk_in s = int_reply_bytes (count (socket con)) ++ rest (socket con)) →
  0 ≤ acc →
  acc + foldr Z.add 0 ((fun con => count (socket con)) <$> cs) ≤ LONG_MAX →
  ∃ n2, foldM (fun val con =>
                 reply <- on (socket con) (recv_int_reply_ (socket con)) ;;
                 lift (add_long val reply)) cs acc n1
        = (Ok (acc + foldr Z.add 0 ((fun con => count (socket con)) <$> cs)), n2)
        ∧ (∀ fd, fd ∉ socket <$> cs → n2 !! fd = n1 !! fd)
        ∧ (∀ con s, con ∈ cs → n1 !! socket con = Some s →
             ∃ s', n2 !! socket con = Some s' ∧ sk_in s' = rest (socket con)
                   ∧ same_output s s').
Proof.
  revert n1 acc. induction cs as [|con cs IH]; intros n1 acc Hdup Hreplies Hacc Hsum.
  - exists n1. cbn [fmap list_fmap foldr foldM]. rewrite Z.add_0_r.
    split; [done|]. split; [done|]. by intros con s []%elem_of_nil.
  - rewrite fmap_cons in Hdup. apply NoDup_cons in Hdup as [Hfresh Hdup].
    cbn [fmap list_fmap foldr] in Hsum |- *.
    change (list_fmap _ _ ?f cs) with (f <$> cs) in *.
    destruct (Hreplies con) as (Hpos & Hcount & s & Hfd & Hin); [by left|].
    pose proof (counts_nonneg cs count
                  (fun con' Hcon' => proj1 (proj2 (Hreplies con' ltac:(by right)))))
      as Htail.
    destruct (recv_int_reply_dec (socket con) (count (socket con))
                (rest (socket con)) s) as (s' & Hint & Hin' & Hout');
      [done | unfold LONG_MIN; lia | done |].
    destruct (IH (<[socket con := s']> n1) (acc + count (socket con)) Hdup)
      as (n2 & Hrun & Hother & Hcs); [| lia | lia |].
    { intros con' Hcon'.
      destruct (Hreplies con') as (Hpos' & Hcount' & s0 & Hfd' & Hin0); [by right|].
      split; [done|]. split; [done|]. exists s0. split; [|done].
      rewrite lookup_insert_ne; [done|].
      intros Heq. apply Hfresh. rewrite Heq. by apply list_elem_of_fmap_2. }
    exists n2. split; [|split].
    + cbn [foldM].
      rewrite (bind_ok _ _ n1 (acc + count (socket con)) (<[socket con := s']> n1)).
      * rewrite Hrun. do 2 f_equal. lia.
      * rewrite (bind_ok _ _ _ _ _ (on_run _ _ n1 s _ s' Hfd Hint)).
        unfold lift, add_long.
        by rewrite bool_decide_eq_true_2 by (unfold LONG_MIN; lia).
    + intros fd [Hne Hnot]%not_elem_of_cons.
      rewrite Hother by done. by rewrite lookup_insert_ne.
    + intros con' s0 Hcon' Hfd'.
      destruct (decide (socket con' = socket con)) as [Heq|Hne].
      * rewrite Heq in Hfd' |- *. rewrite Hother by done.
        rewrite lookup_insert_eq. exists s'. by simplify_eq.
      * apply elem_of_cons in Hcon' as [->|Hcon']; [done|].
        apply Hcs; [done|]. by rewrite lookup_insert_ne.
Qed.

(** X17. [dbsize()] asks every connection and adds up the answers: for a
    client whose connections have distinct descriptors and answer with the
    key counts [count], the request [DBSIZE] is written to every
    connection, every reply is consumed, the result is the sum of the
    counts, and no other descriptor of the network is touched. *)
Theorem dbsize_sums (c : base_client) (count : Z → Z) (rest : Z → std_string)
    (n : gmap Z socket_state) :
  NoDup (socket <$> connections_ c) →
  (∀ con, con ∈ connections_ c →
     0 < socket con ∧ 0 ≤ count (socket con)
     ∧ awaiting n (socket con)
         (int_reply_bytes (count (socket con)) ++ rest (socket con))) →
  foldr Z.add 0 ((fun con => count (socket con)) <$> connections_ c) ≤ LONG_MAX →
  ∃ n', dbsize c n
        = (Ok (foldr Z.add 0 ((fun con => count (socket con)) <$> connections_ c)), n')
        ∧ (∀ con, con ∈ connections_ c →
             served (socket con) (request_bytes [str "DBSIZE"]) (rest (socket con)) n n')
        ∧ (∀ fd, fd ∉ socket <$> connections_ c → n' !! fd = n !! fd).
Proof.
  intros Hdup Hreplies Hsum. unfold dbsize. rewrite makecmd_to_string_frames.
  change (lines_ (makecmd_new (str "DBSIZE"))) with [str "DBSIZE"].
  destruct (send_all (connections_ c) (request_bytes [str "DBSIZE"]) n Hdup)
    as (n1 & Hsend & Hother1 & Hsent).
  { intros con Hcon. destruct (Hreplies con Hcon) as (_ & _ & s & ? & ? & _). by exists s. }
  destruct (recv_all (connections_ c) count rest n1 0 Hdup) as (n2 & Hrecv & Hother2 & Hread);
    [| done | by rewrite Z.add_0_l |].
  { intros con Hcon. destruct (Hreplies con Hcon) as (? & ? & s & Hfd & _ & Hin).
    split; [done|]. split; [done|].
    exists (written s (request_bytes [str "DBSIZE"])). split; [by eapply Hsent|done]. }
  exists n2. split; [|split].
  - rewrite (bind_ok _ _ _ _ _ Hsend). by rewrite Hrecv, Z.add_0_l.
  - intros con Hcon. destruct (Hreplies con Hcon) as (_ & _ & s & Hfd & _ & Hin).
    destruct (Hread con _ Hcon (Hsent con s Hcon Hfd)) as (s' & Hfd' & Hin' & Hout' & Hwr').
    exists s, s'. by cbn in *.
  - intros fd Hfd. by rewrite Hother2, Hother1.
Qed.

Lemma dbsize_sums_witness :
  ∃ n', dbsize two_shards two_shards_counting = (Ok 42, n')
        ∧ (∀ con, con ∈ connections_ two_shards →
             served (socket con) (request_bytes [str "DBSIZE"]) [] two_shards_counting n')
        ∧ (∀ fd, fd ∉ socket <$> connections_ two_shards →
             n' !! fd = two_shards_counting !! fd).
Proof.
  apply (dbsize_sums two_shards two_shards_counts (fun _ => [])).
  - compute_done.
  - intros con Hcon. apply list_elem_of_In in Hcon.
    destruct Hcon as [<-|[<-|[]]]; (split; [done|]); (split; [done|]);
      eexists; (split; [by unfold two_shards_counting; simplify_map_eq|]);
      split; try done; by rewrite app_nil_r.
  - done.
Defined.

(** ** [mset] on two vectors *)

Lemma same_shard_socket c keys fd :
  keys ≠ [] → same_shard c keys fd → get_socket_keys c keys = Ok fd.
Proof.
  intros Hne Hsame.
  destruct (get_socket_keys_spec c keys Hne) as [(fd' & Hfd & Hsame')|[_ Hcross]].
  - intros key Hkey. exists fd. by apply Hsame.
  - by rewrite (same_shard_unique c keys fd' fd Hne Hsame' Hsame) in Hfd.
  - by destruct (same_shard_not_cross c keys fd Hsame).
Qed.

(** X18. [mset] on a vector of keys and a vector of values works on one
    connection only: when two of the keys are routed to different
    connections it throws the runtime error "not possible in cluster mode"
    before anything is sent, although its sibling on a vector of pairs
    serves such keys; when all keys are routed to the same connection it
    does exactly what the sibling does on the zipped vectors. *)
Theorem mset_on_vectors (c : base_client) (keys values : list std_string)
    (n : gmap Z socket_state) :
  valid_client c → length keys = length values →
  (cross_shard c keys →
     mset c keys values n
     = (Throw (runtime_error (str "not possible in cluster mode")), n))
  ∧ (∀ fd, same_shard c keys fd →
       mset c keys values n = mset_pairs c (zip keys values) n).
Proof.
  intros Hvalid Hlen. split; [by apply mset_cross_shard|].
  intros fd Hsame. unfold mset, mset_pairs.
  rewrite bool_decide_eq_false_2 by (intros H; by apply H).
  rewrite length_zip, <- Hlen, Nat.min_id.
  unfold bind at 1 5.
  rewrite (foldM_ext _
             (fun socket_commands i =>
                kv <- lift (at_ (zip keys values) i) ;;
                socket <- lift (get_socket c kv.1) ;;
                ret (upsert socket (add_pair "MSET" kv.1 kv.2) socket_commands)));
    [done|].
  intros sc i s Hi%elem_of_seq. unfold bind, lift, at_.
  destruct (lookup_lt_is_Some_2 keys i) as [key Hkey]; [lia|].
  destruct (lookup_lt_is_Some_2 values i) as [value Hvalue]; [lia|].
  rewrite same_shard_socket with (fd := fd); [|by destruct keys|done].
  rewrite Hkey, Hvalue.
  rewrite (proj2 (lookup_zip_with_Some pair keys values i (key, value)))
    by (by exists key, value).
  cbn [fst snd]. by rewrite (Hsame key) by (by eapply list_elem_of_lookup_2).
Qed.

Lemma mset_on_vectors_witness :
  mset two_shards [str "a"; str "c"] [str "1"; str "2"] two_shards_net
  = mset_pairs two_shards [(str "a", str "1"); (str "c", str "2")] two_shards_net.
Proof.
  apply (proj2 (mset_on_vectors two_shards [str "a"; str "c"] [str "1"; str "2"]
                  two_shards_net
                  ltac:(split; [done | intros key; by apply default_hasher_in_bounds])
                  ltac:(done)) 3).
  intros key Hkey. apply list_elem_of_In in Hkey.
  destruct Hkey as [<-|[<-|[]]]; vm_compute; reflexivity.
Defined.

(** ** [mget] *)

Lemma bind_ext {S A B} (m : io S A) (k k' : A → io S B) s :
  (∀ a s', k a s' = k' a s') → bind m k s = bind m k' s.
Proof. intros H. unfold bind. destruct (m s) as [[a| | |] s']; by rewrite ?H. Qed.

Lemma bind_ret_r {S A} (m : io S A) s : bind m ret s = m s.
Proof. unfold bind, ret. by destruct (m s) as [[a| | |] s']. Qed.

Lemma on_bind_lift {A B} fd (m : io socket_state A) (g : A → outcome B) n :
  (a <- on fd m ;; lift (g a)) n = on fd (a <- m ;; lift (g a)) n.
Proof.
  unfold bind, on, lift. destruct (n !! fd) as [s|]; [|done].
  by destruct (m s) as [[a| | |] s'].
Qed.

Lemma upsert_keys_gathered fd done_ key :
  upsert_keys fd (add_key key (length done_)) (gathered fd done_)
  = gathered fd (done_ ++ [key]).
Proof.
  destruct done_ as [|d ds]; [done|].
  cbn [gathered app upsert_keys]. rewrite Z.ltb_irrefl, Z.eqb_refl.
  unfold add_key. cbn [cmd indices default from_option id].
  do 3 f_equal.
  - unfold command. by rewrite (foldl_app _ (d :: ds) [key]).
  - change (d :: ds ++ [key]) with ((d :: ds) ++ [key]).
    rewrite length_app, Nat.add_1_r. by rewrite (seq_S _ 0).
Qed.

Lemma mget_gather c fd keys (n : gmap Z socket_state) :
  same_shard c keys fd →
  ∀ rest done_, keys = done_ ++ rest →
  foldM (fun socket_commands i =>
           key <- lift (at_ keys i) ;;
           socket <- lift (get_socket c key) ;;
           ret (upsert_keys socket (add_key key i) socket_commands))
        (seq (length done_) (length rest)) (gathered fd done_) n
  = (Ok (gathered fd keys), n).
Proof.
  intros Hsame rest. induction rest as [|key rest IH]; intros done_ Hkeys.
  - rewrite app_nil_r in Hkeys. by subst.
  - cbn [length seq foldM]. unfold bind at 1 2 3. unfold lift at 1, at_.
    rewrite Hkeys at 1. rewrite list_lookup_middle by done.
    unfold lift at 1. rewrite (Hsame key) by (rewrite Hkeys; set_solver).
    unfold ret at 1. rewrite upsert_keys_gathered.
    specialize (IH (done_ ++ [key])). rewrite length_app, Nat.add_1_r in IH.
    apply IH. by rewrite <- (assoc_L (++)).
Qed.

Lemma write_back_prefix vals out0 rounds done_ :
  (done_ + rounds = length vals)%nat → (length vals ≤ length out0)%nat →
  write_back (seq done_ rounds) (seq 0 (length out0)) vals
    (take done_ vals ++ drop done_ out0)
  = Ok (vals ++ drop (length vals) out0).
Proof.
  revert done_. induction rounds as [|rounds IH]; intros done_ Hlen Hout.
  - rewrite Nat.add_0_r in Hlen. subst. by rewrite firstn_all.
  - cbn [seq write_back]. unfold at_.
    destruct (lookup_lt_is_Some_2 vals done_) as [v Hv]; [lia|].
    destruct (lookup_lt_is_Some_2 out0 done_) as [x Hx]; [lia|].
    rewrite Hv, lookup_seq_lt by lia. cbn [Nat.add].
    rewrite bool_decide_eq_true_2
      by (rewrite length_app, length_take, length_drop; lia).
    rewrite insert_app_r_alt by (rewrite length_take; lia).
    rewrite length_take, Nat.min_l, Nat.sub_diag by lia.
    rewrite (drop_S out0 x done_ Hx). cbn [insert list_insert].
    rewrite (cons_middle v), (assoc_L (++)), <- (take_S_r vals done_ v Hv).
    apply IH; lia.
Qed.

(** X19. [mget] for keys that are all routed to one connection, which
    covers every client with a single connection: one request [MGET] with
    all keys, in order, is sent on that connection, and the values of a
    reply for whose items the platform provides the room (the reservation
    of the vector and the array of each value) are returned in the order
    of the keys, with the placeholder
    ["**nonexistent-key**"] at the position of every key the server
    reports as missing. When the reply holds fewer items than there are
    keys, the remaining positions hold the empty string. *)
Theorem mget_same_connection {P : Platform} (c : base_client) (keys : list std_string) (fd : Z)
    (items : list (option std_string)) (rest : std_string)
    (n : gmap Z socket_state) :
  keys ≠ [] → same_shard c keys fd → 0 < fd →
  (length items ≤ length keys)%nat → Z.of_nat (length items) ≤ vector_max_alloc →
  Forall payload_fits items →
  awaiting n fd (multi_bulk_reply_bytes items ++ rest) →
  ∃ n', mget c keys n
        = (Ok ((bulk_value <$> items)
                 ++ replicate (length keys - length items) []), n')
        ∧ exchanged fd (request_bytes (str "MGET" :: keys)) rest n n'.
Proof.
  intros Hne Hsame Hpos Hlen Hmax Hfit Hin. unfold mget.
  pose proof (mget_gather c fd keys n Hsame keys [] eq_refl) as Hgather.
  cbn [length gathered] in Hgather.
  rewrite (bind_ok _ _ _ _ _ Hgather).
  destruct keys as [|key0 keys0] eqn:Hkeys; [done|]. rewrite <- Hkeys in *.
  assert (gathered fd keys
          = [(fd, ConnectionKeys (Some (command (str "MGET") keys))
                    (seq 0 (length keys)))]) as -> by (by rewrite Hkeys).
  set (out0 := replicate (length keys) ([] : std_string)).
  set (decode := reply <- recv_multi_bulk_reply_ fd [] ;;
                 lift (write_back (seq 0 (length reply.2)) (seq 0 (length keys))
                         reply.2 out0)).
  destruct (request_reply fd (request_bytes (str "MGET" :: keys)) decode
              (multi_bulk_reply_bytes items ++ rest) rest
              (Ok ((bulk_value <$> items) ++ replicate (length keys - length items) []))
              n Hin) as (n' & Hrun & Hex).
  - intros s1 Hs1.
    destruct (recv_multi_bulk_reply_items fd items rest [] s1)
      as (s' & Hitems & Hin' & Hout'); [done | cbn [length]; lia | done | done |].
    exists s'. split; [|done]. unfold decode. rewrite (bind_ok _ _ _ _ _ Hitems).
    unfold lift. cbn [snd app].
    pose proof (write_back_prefix (bulk_value <$> items) out0
                  (length (bulk_value <$> items)) 0) as Hwb.
    unfold out0 in Hwb at 1 2. rewrite length_replicate in Hwb.
    rewrite take_0, drop_0 in Hwb. cbn [app] in Hwb. fold out0 in Hwb.
    rewrite Hwb by (rewrite ?length_fmap; done || lia).
    unfold out0. by rewrite drop_replicate, length_fmap.
  - exists n'. split; [|done]. rewrite <- Hrun.
    unfold for_each. cbn [foldM fst snd cmd indices].
    rewrite makecmd_to_string_frames, lines_command. fold out0.
    rewrite bind_assoc. apply bind_ext. intros [] g.
    unfold bind at 1, ret at 1. rewrite bind_ret_r. apply on_bind_lift.
Qed.

Lemma mget_same_connection_witness :
  let P := lp64 in
  ∃ n', mget two_shards [str "a"; str "c"]
          (<[3 := Sock (multi_bulk_reply_bytes [None; Some (str "v")]) 0 [] [] None]> ∅)
        = (Ok ((bulk_value <$> [None; Some (str "v")]) ++ replicate (2 - 2) []), n')
        ∧ exchanged 3 (request_bytes (str "MGET" :: [str "a"; str "c"])) []
            (<[3 := Sock (multi_bulk_reply_bytes [None; Some (str "v")]) 0 [] [] None]> ∅)
            n'.
Proof.
  intros P.
  apply (mget_same_connection two_shards [str "a"; str "c"] 3 [None; Some (str "v")] []).
  - done.
  - intros key Hkey. apply list_elem_of_In in Hkey.
    destruct Hkey as [<-|[<-|[]]]; vm_compute; reflexivity.
  - done.
  - done.
  - by vm_compute.
  - repeat (apply Forall_cons_2; [by vm_compute|]). apply Forall_nil_2.
  - eexists. split; [apply lookup_insert_eq|]. split; [done|]. by rewrite app_nil_r.
Defined.

(** ** [info] *)

Lemma split_lines_first bad more :
  LF ∉ bad →
  split_lines (bad ++ LF :: more) []
  = rtrim bad REDIS_WHITESPACE :: split_lines more [].
Proof.
  intros Hbad. destruct (delimited_cover LF more) as (items & last & -> & Hitems & Hlast).
  unfold split_lines.
  assert (bad ++ LF :: delimited LF items last = delimited LF (bad :: items) last) as ->.
  { unfold delimited. cbn [fmap list_fmap concat]. by rewrite <- !(assoc_L (++)). }
  rewrite !split_delimited by (done || by apply Forall_cons_2). done.
Qed.

Lemma split_lines_nonempty response : response ≠ [] → split_lines response [] ≠ [].
Proof.
  intros Hne. destruct (delimited_cover LF response) as (items & last & -> & Hitems & Hlast).
  unfold split_lines. rewrite split_delimited by done. cbn [fst app].
  destruct items as [|item items]; [|done].
  by destruct last.
Qed.

Lemma split_without_delimiter line delim :
  delim ∉ line → (length (split line delim []).1 ≤ 1)%nat.
Proof.
  intros Hline.
  pose proof (split_delimited delim [] line [] (Forall_nil_2 _) Hline) as H.
  unfold delimited in H. cbn [fmap list_fmap concat app] in H. rewrite H.
  destruct line; cbn; lia.
Qed.

(** X20. [info] requires every line of the server's answer to split at
    [':'] into exactly two fields: a response whose first line holds no
    colon, such as an empty line or a section heading, makes it throw the
    protocol error "unexpected line format for info" after the request has
    been sent and the answer consumed, whatever the lines behind it. With
    more than one connection it throws the runtime error "not possible in
    cluster mode" and touches no connection. Its check for an empty vector
    of lines can never fire, as a response that is not empty always has a
    line. *)
Theorem info_line_format {P : Platform} (lexical_cast_unsigned_long lexical_cast_unsigned_short
                            : std_string → outcome N)
    (c : base_client) (out : server_info) (n : gmap Z socket_state) :
  (∀ con bad more rest,
     connections_ c = [con] → 0 < socket con → LF ∉ bad → ":"%char ∉ bad →
     payload_fits (Some (bad ++ LF :: more)) →
     awaiting n (socket con) (bulk_reply_bytes (Some (bad ++ LF :: more)) ++ rest) →
     ∃ n', info lexical_cast_unsigned_long lexical_cast_unsigned_short c out n
           = (Throw (protocol_error (str "unexpected line format for info")), n')
           ∧ exchanged (socket con) (request_bytes [str "INFO"]) rest n n')
  ∧ ((1 < length (connections_ c))%nat →
     info lexical_cast_unsigned_long lexical_cast_unsigned_short c out n
     = (Throw (runtime_error (str "not possible in cluster mode")), n))
  ∧ (∀ response, response ≠ [] → split_lines response [] ≠ []).
Proof.
  split; [|split].
  - intros con bad more rest Hcon Hpos HLF Hcolon Hfit Hin. unfold info.
    rewrite Hcon. cbn [length]. rewrite bool_decide_eq_false_2 by lia.
    unfold connection_socket, at_. rewrite Hcon. cbn [lookup list_lookup outcome_map].
    unfold bind at 1. unfold lift at 1.
    rewrite makecmd_to_string_frames.
    change (lines_ (makecmd_new (str "INFO"))) with [str "INFO"].
    set (decode := fun response : std_string =>
           if bool_decide (response = []) then Throw (protocol_error (str "empty"))
           else if bool_decide (split_lines response [] = [])
                then Throw (protocol_error (str "empty line for info"))
                else info_lines lexical_cast_unsigned_long lexical_cast_unsigned_short
                       (split_lines response []) out).
    destruct (request_reply (socket con) (request_bytes [str "INFO"])
                (response <- recv_bulk_reply_ (socket con) ;; lift (decode response))
                _ rest (Throw unexpected_line_format) n Hin) as (n' & Hrun & Hex).
    + intros s1 Hs1.
      destruct (recv_bulk_reply_item (socket con) (Some (bad ++ LF :: more)) rest s1)
        as (s' & Hreply & Hin' & Hout'); [done..|].
      exists s'. split; [|done]. rewrite (bind_ok _ _ _ _ _ Hreply).
      unfold lift, decode, bulk_value. cbn [default from_option id].
      rewrite bool_decide_eq_false_2 by (by destruct bad).
      rewrite split_lines_first by done.
      rewrite bool_decide_eq_false_2 by done.
      cbn [info_lines]. unfold info_line.
      rewrite bool_decide_eq_true_2; [done|].
      assert (":"%char ∉ rtrim bad REDIS_WHITESPACE) as Hline.
      { intros H. apply Hcolon. unfold rtrim in H. by eapply subseteq_take. }
      pose proof (split_without_delimiter _ _ Hline). lia.
    + exists n'. split; [|done].
      change (protocol_error (str "unexpected line format for info"))
        with unexpected_line_format.
      rewrite <- Hrun.
      apply bind_ext. intros [] g. rewrite <- on_bind_lift.
      apply bind_ext. intros response g'. unfold decode, lift, throw.
      by repeat case_bool_decide.
  - intros Hmany. unfold info. by rewrite bool_decide_eq_true_2.
  - apply split_lines_nonempty.
Qed.

Lemma info_line_format_witness :
  let P := lp64 in
  ∃ n', info (fun _ => Throw bad_lexical_cast) (fun _ => Throw bad_lexical_cast)
          (BaseClient [ConnectionData (str "10.0.0.1") 6379 0 3]
                      (default_hasher boost_hash_range))
          (ServerInfo [] false 0 0 0 0 0 0 0 0 0 role_master 0 [] ∅)
          (<[3 := Sock (bulk_reply_bytes
                          (Some (str "# Server" ++ [CR] ++ LF :: str "redis_version:7.0")))
                       0 [] [] None]> ∅)
        = (Throw (protocol_error (str "unexpected line format for info")), n')
        ∧ exchanged 3 (request_bytes [str "INFO"]) []
            (<[3 := Sock (bulk_reply_bytes
                            (Some (str "# Server" ++ [CR] ++ LF :: str "redis_version:7.0")))
                         0 [] [] None]> ∅) n'.
Proof.
  intros P.
  apply (proj1 (info_line_format (fun _ => Throw bad_lexical_cast)
                  (fun _ => Throw bad_lexical_cast)
                  (BaseClient [ConnectionData (str "10.0.0.1") 6379 0 3]
                              (default_hasher boost_hash_range))
                  (ServerInfo [] false 0 0 0 0 0 0 0 0 0 role_master 0 [] ∅)
                  (<[3 := Sock (bulk_reply_bytes
                                  (Some (str "# Server" ++ [CR] ++ LF
                                           :: str "redis_version:7.0")))
                               0 [] [] None]> ∅))
           (ConnectionData (str "10.0.0.1") 6379 0 3)
           (str "# Server" ++ [CR]) (str "redis_version:7.0") []).
  - done.
  - done.
  - compute_done.
  - compute_done.
  - by vm_compute.
  - eexists. split; [apply lookup_insert_eq|]. split; [done|]. by rewrite app_nil_r.
Defined.

(** ** [keys] on all connections *)





(** ** Blocking pops on one key *)

Lemma recv_multi_bulk_reply_nil {P : Platform} socket out rest s :
  0 < socket →
  sk_in s = [REDIS_PREFIX_MULTI_BULK_REPLY] ++ dec_of_long (-1) ++ REDIS_LBR ++ rest →
  ∃ s', recv_multi_bulk_reply_ socket out s = (Throw no_such_key, s')
        ∧ sk_in s' = rest ∧ same_output s s'.
Proof.
  intros Hsock Hin.
  destruct (recv_bulk_reply_prefix_dec socket REDIS_PREFIX_MULTI_BULK_REPLY (-1) rest s)
    as (s' & Hhdr & Hin' & Hout'); [done | done | done | done | done |].
  exists s'. split; [|done]. unfold recv_multi_bulk_reply_.
  by rewrite (bind_ok _ _ _ _ _ Hhdr).
Qed.

(** X22. [blpop] and [brpop] on one key send the command with the key and
    the timeout on the connection of the key. When the server answers with
    the list name and a value, the value is returned if the name is the
    key, and the assertion fails if it is another name. When the wait
    times out and the server answers with the nil multi-bulk reply, the
    call does not return the placeholder for a missing value: the decoder
    throws the key error "no such key" first. The placeholder is returned
    for every reply with another number of items than two. A reply that
    declares a count below [-1] raises [std::length_error] from the
    reservation of the decoder. The replies with items are those for
    which the platform provides the room. *)
Theorem blocking_pop_key_reply {P : Platform} (name : string) (c : base_client)
    (key : std_string) (timeout fd : Z) (rest : std_string) (n : gmap Z socket_state) :
  get_socket c key = Ok fd → 0 < fd →
  (∀ list_name value,
     payload_fits (Some list_name) → payload_fits (Some value) →
     2 ≤ vector_max_alloc →
     awaiting n fd (multi_bulk_reply_bytes [Some list_name; Some value] ++ rest) →
     ∃ n', blocking_pop_key name c key timeout n
           = (if bool_decide (key = list_name) then Ok value else Abort, n')
           ∧ exchanged fd (request_bytes [str name; key; dec_of_long timeout]) rest n n')
  ∧ (awaiting n fd
       ([REDIS_PREFIX_MULTI_BULK_REPLY] ++ dec_of_long (-1) ++ REDIS_LBR ++ rest) →
     ∃ n', blocking_pop_key name c key timeout n
           = (Throw (key_error (str "no such key")), n')
           ∧ exchanged fd (request_bytes [str name; key; dec_of_long timeout]) rest n n')
  ∧ (∀ items,
       length items ≠ 2%nat → Forall payload_fits items →
       Z.of_nat (length items) ≤ vector_max_alloc →
       awaiting n fd (multi_bulk_reply_bytes items ++ rest) →
       ∃ n', blocking_pop_key name c key timeout n
             = (Ok (str "**nonexistent-key**"), n')
             ∧ exchanged fd (request_bytes [str name; key; dec_of_long timeout])
                 rest n n')
  ∧ (∀ count,
       LONG_MIN ≤ count < -1 →
       awaiting n fd
         ([REDIS_PREFIX_MULTI_BULK_REPLY] ++ dec_of_long count ++ REDIS_LBR ++ rest) →
       ∃ n', blocking_pop_key name c key timeout n = (Throw length_error, n')
             ∧ exchanged fd (request_bytes [str name; key; dec_of_long timeout])
                 rest n n').
Proof.
  intros Hfd Hpos.
  set (finish := fun reply : Z * list std_string =>
         match reply.2 with
         | [sv0; sv1] => if bool_decide (key = sv0) then Ok sv1 else Abort
         | _ => Ok missing_value
         end).
  assert (∀ input r,
            awaiting n fd input →
            (∀ s1, sk_in s1 = input →
               ∃ s', (reply <- recv_multi_bulk_reply_ fd [] ;; lift (finish reply)) s1
                     = (r, s') ∧ sk_in s' = rest ∧ same_output s1 s') →
            ∃ n', blocking_pop_key name c key timeout n = (r, n')
                  ∧ exchanged fd (request_bytes [str name; key; dec_of_long timeout])
                      rest n n') as Hcall.
  { intros input r Hin Hdecode.
    destruct (key_exchange c key fd (makecmd_new (str name) << key << timeout)
                [str name; key; dec_of_long timeout]
                (fun socket => reply <- recv_multi_bulk_reply_ socket [] ;;
                               lift (finish reply))
                input rest r n Hfd) as (n' & Hrun & Hex); [done | done | done |].
    exists n'. split; [|done]. rewrite <- Hrun. unfold blocking_pop_key.
    apply bind_ext. intros socket g. apply bind_ext. intros [] g'.
    rewrite <- on_bind_lift. apply bind_ext. intros reply g''.
    unfold finish, lift, ret, abort. by repeat case_match. }
  split_and!.
  - intros list_name value Hfit1 Hfit2 Hroom Hin. eapply Hcall; [exact Hin|].
    intros s1 Hs1.
    destruct (recv_multi_bulk_reply_items fd [Some list_name; Some value] rest [] s1)
      as (s' & Hitems & Hin' & Hout'); [done | done | | done |].
    { by repeat apply Forall_cons_2. }
    exists s'. split; [|done]. by rewrite (bind_ok _ _ _ _ _ Hitems).
  - intros Hin. eapply Hcall; [exact Hin|]. intros s1 Hs1.
    destruct (recv_multi_bulk_reply_nil fd [] rest s1) as (s' & Hnil & Hin' & Hout');
      [done..|].
    exists s'. split; [|done]. by rewrite (bind_throw _ _ _ _ _ Hnil).
  - intros items Hlen Hfit Hroom Hin. eapply Hcall; [exact Hin|]. intros s1 Hs1.
    destruct (recv_multi_bulk_reply_items fd items rest [] s1)
      as (s' & Hitems & Hin' & Hout'); [done..|].
    exists s'. split; [|done]. rewrite (bind_ok _ _ _ _ _ Hitems).
    unfold lift, finish. cbn [snd app].
    by destruct items as [|? [|? [|? ?]]].
  - intros count Hcount Hin. eapply Hcall; [exact Hin|]. intros s1 Hs1.
    pose proof vector_max_alloc_small. pose proof vector_max_alloc_bound.
    destruct (recv_multi_bulk_reply_no_room fd count rest [] length_error s1)
      as (s' & Hrun & Hin' & Hout'); [done | unfold LONG_MAX; lia | lia | | done |].
    { apply reserve_beyond; [unfold LONG_MAX | cbn [length] ..]; lia. }
    exists s'. split; [|done]. by rewrite (bind_throw _ _ _ _ _ Hrun).
Qed.

Lemma blocking_pop_key_reply_witness :
  let P := lp64 in
  ∃ n', blpop_key two_shards (str "foo") 5
          (<[3 := Sock (str "*-1" ++ REDIS_LBR) 0 [] [] None]> ∅)
        = (Throw (key_error (str "no such key")), n')
        ∧ exchanged 3 (request_bytes [str "BLPOP"; str "foo"; dec_of_long 5]) []
            (<[3 := Sock (str "*-1" ++ REDIS_LBR) 0 [] [] None]> ∅) n'.
Proof.
  intros P.
  apply (proj1 (proj2 (blocking_pop_key_reply "BLPOP" two_shards (str "foo") 5 3 []
                         (<[3 := Sock (str "*-1" ++ REDIS_LBR) 0 [] [] None]> ∅)
                         ltac:(vm_compute; reflexivity) ltac:(done)))).
  eexists. split; [apply lookup_insert_eq|]. done.
Defined.

(** ** [shutdown] on all connections *)

(** X23. [shutdown()] goes through the connections one after the other:
    when every server closes its connection without a complete reply line,
    the call returns normally and [SHUTDOWN] has been written to every
    connection. When writing to the first connection fails, that
    connection error leaves the call at once: nothing is sent, and the
    servers behind it are not shut down. *)
Theorem shutdown_all (c : base_client) (n : gmap Z socket_state) :
  (NoDup (socket <$> connections_ c) →
   (∀ con, con ∈ connections_ c →
      0 < socket con
      ∧ ∃ s, n !! socket con = Some s ∧ sk_wr_err s = None ∧ LF ∉ sk_in s) →
   ∃ n', shutdown c n = (Ok tt, n')
         ∧ (∀ con, con ∈ connections_ c →
              served (socket con) (request_bytes [str "SHUTDOWN"]) [] n n')
         ∧ (∀ fd, fd ∉ socket <$> connections_ c → n' !! fd = n !! fd))
  ∧ (∀ con cs s err,
       connections_ c = con :: cs → n !! socket con = Some s →
       sk_wr_err s = Some err →
       shutdown c n = (Throw (connection_error err), n)).
Proof.
  split.
  - unfold shutdown, for_each. generalize (connections_ c). clear c.
    intros cs. revert n. induction cs as [|con cs IH]; intros n Hdup Hclosed.
    + exists n. split; [done|]. split; [|done]. by intros con []%elem_of_nil.
    + rewrite fmap_cons in Hdup. apply NoDup_cons in Hdup as [Hfresh Hdup].
      destruct (Hclosed con) as (Hpos & s & Hfd & Hwr & HLF); [by left|].
      destruct (shutdown_con_closed con n s Hfd Hpos Hwr HLF)
        as (n1 & Hrun & Hother & s0 & s1 & Hfd0 & Hfd1 & Hout & Hwr1 & Hin1).
      destruct (IH n1 Hdup) as (n2 & Hrest & Hserved & Hother2).
      { intros con' Hcon'.
        destruct (Hclosed con') as (Hpos' & s' & Hfd' & Hwr' & HLF'); [by right|].
        split; [done|]. exists s'. split; [|done]. rewrite Hother; [done|].
        intros Heq. apply Hfresh. rewrite <- Heq. by apply list_elem_of_fmap_2. }
      exists n2. split; [|split].
      * cbn [foldM]. by rewrite (bind_ok _ _ _ _ _ Hrun).
      * intros con' Hcon'.
        destruct (decide (socket con' = socket con)) as [Heq|Hne].
        -- exists s0, s1. rewrite Heq, Hother2 by done. done.
        -- apply elem_of_cons in Hcon' as [->|Hcon']; [done|].
           destruct (Hserved con' Hcon') as (t & t' & Hfdt & Hfdt' & ?).
           exists t, t'. rewrite <- (Hother (socket con')) by done. done.
      * intros fd [Hne Hnot]%not_elem_of_cons. rewrite Hother2 by done. by apply Hother.
  - intros con cs s err Hcon Hfd Hwr. unfold shutdown, for_each. rewrite Hcon.
    cbn [foldM]. by rewrite (bind_throw _ _ _ _ _ (shutdown_con_write_fails con n s err Hfd Hwr)).
Qed.

Lemma shutdown_all_witness :
  ∃ n', shutdown two_shards
          (<[3 := Sock [] 0 [] [] None]> (<[4 := Sock [] 0 [] [] None]> ∅))
        = (Ok tt, n')
        ∧ (∀ con, con ∈ connections_ two_shards →
             served (socket con) (request_bytes [str "SHUTDOWN"]) []
               (<[3 := Sock [] 0 [] [] None]> (<[4 := Sock [] 0 [] [] None]> ∅)) n')
        ∧ (∀ fd, fd ∉ socket <$> connections_ two_shards →
             n' !! fd
             = (<[3 := Sock [] 0 [] [] None]> (<[4 := Sock [] 0 [] [] None]> ∅)
                : gmap Z socket_state) !! fd).
Proof.
  apply (proj1 (shutdown_all two_shards
                  (<[3 := Sock [] 0 [] [] None]> (<[4 := Sock [] 0 [] [] None]> ∅)))).
  - compute_done.
  - intros con Hcon. apply list_elem_of_In in Hcon.
    destruct Hcon as [<-|[<-|[]]]; (split; [done|]);
      eexists; (split; [by simplify_map_eq|]); (split; [done | apply not_elem_of_nil]).
Defined.
